(** * phe-voting-js: Paillier engine and vote codec

    A shallow embedding of [Paillier.ts], [VoteEncoder.ts] and the value
    classes [PublicKey], [PrivateKey], [Signature], [ZkpCommitment].

    - A [BigInteger] of the [big-integer] package is a [Z]; its methods are
      the definitions of module [bigInt], written after the package's
      loops ([modPow], [modInv]) with truncated division as the package has.
    - A JavaScript number that holds an integer is a [Z]; the 32-bit shift
      [<<] is [js_shl].
    - A JavaScript array is a [list (option Z)]; [None] is a hole, as left
      by [new Array(k)].
    - A thrown exception is [Threw]; randomness is a tape of draws, see
      [Rand]. *)

From Stdlib Require Import ZArith Lia List Bool Znumtheory Zcong.
From Stdlib Require Import String.
From Stdlib Require Import Zmod.Zmod Zmod.Zstar.
Import ListNotations.

#[local] Open Scope Z_scope.

(** ** Outcomes of a call *)

(** The three JavaScript error classes the code throws or provokes.
    [RangeError] and [Error] carry the message of the [throw] statement;
    [TypeError] is raised by the runtime (a method called on [undefined],
    [reduce] of an empty array) and its text depends on the engine. *)
Inductive exn : Type :=
| RangeError (msg : string)
| Error (msg : string)
| TypeError.

(** [Exhausted] is a run that has consumed every draw of the random tape
    and is still sampling: it has produced neither a value nor an
    exception. Functions that draw nothing never yield it. *)
Inductive outcome (A : Type) : Type :=
| Returned (a : A)
| Threw (e : exn)
| Exhausted.

Arguments Returned {A} a.
Arguments Threw {A} e.
Arguments Exhausted {A}.

Definition bind {A B : Type} (x : outcome A) (k : A -> outcome B) : outcome B :=
  match x with
  | Returned a => k a
  | Threw e => Threw e
  | Exhausted => Exhausted
  end.

Notation "x <- e ;; k" := (bind e (fun x => k))
  (at level 61, e at next level, right associativity).

(** The names the specification gives to the failures. *)
Definition BadKeyParameter : exn := RangeError "Key must be at least 160 bits"%string.
Definition BadPlaintext : exn := Error "plaintext must be less than modulo n"%string.
Definition BadCiphertext : exn := Error "ciphertext must be less than modulo n^2"%string.
Definition NotInValidSet : exn :=
  Error "Message m isn't included in the list of valid messages"%string.
Definition MalformedCommitment : exn :=
  RangeError "Invalid commitment or valid messages"%string.

(** ** Randomness

    A computation that samples reads a tape of draws and hands back what is
    left of it. *)
Definition Rand (A : Type) : Type := list Z -> outcome (A * list Z).

Definition retR {A : Type} (a : A) : Rand A := fun tape => Returned (a, tape).

Definition throwR {A : Type} (e : exn) : Rand A := fun _ => Threw e.

Definition liftR {A : Type} (x : outcome A) : Rand A :=
  fun tape => a <- x ;; Returned (a, tape).

Definition bindR {A B : Type} (x : Rand A) (k : A -> Rand B) : Rand B :=
  fun tape => r <- x tape ;; k (fst r) (snd r).

Notation "x <~ e ;; k" := (bindR e (fun x => k))
  (at level 61, e at next level, right associativity).

(** [do body while (again x)]. Every sampler consumes a draw, so a loop
    that has run more often than the tape is long cannot still be running
    on it; the bound only makes the recursion structural. *)
Fixpoint doWhile_fuel {A : Type} (fuel : nat) (body : Rand A) (again : A -> bool)
  (tape : list Z) : outcome (A * list Z) :=
  match fuel with
  | O => Exhausted
  | S fuel' =>
      match body tape with
      | Returned (x, tape') =>
          if again x then doWhile_fuel fuel' body again tape' else Returned (x, tape')
      | Threw e => Threw e
      | Exhausted => Exhausted
      end
  end.

Definition doWhile {A : Type} (body : Rand A) (again : A -> bool) : Rand A :=
  fun tape => doWhile_fuel (S (List.length tape)) body again tape.

(** The next draw that the sampler's contract admits; the others are
    rejected. *)
Fixpoint draw (accept : Z -> bool) (tape : list Z) : outcome (Z * list Z) :=
  match tape with
  | [] => Exhausted
  | x :: tape' => if accept x then Returned (x, tape') else draw accept tape'
  end.

(** ** JavaScript arrays of BigIntegers *)

Definition jsarray : Type := list (option Z).

(** [new Array<BigInteger>(capacity)]: [capacity] holes. *)
Definition new_Array (capacity : nat) : jsarray := repeat None capacity.

(** [arr[i]]: [None] stands for [undefined], which a hole and an index
    past the end both read as. *)
Definition arr_get (arr : jsarray) (i : nat) : option Z :=
  match nth_error arr i with
  | Some (Some v) => Some v
  | _ => None
  end.

(** [arr[i] = v]; an index past the end extends the array with holes. *)
Fixpoint arr_set (arr : jsarray) (i : nat) (v : Z) : jsarray :=
  match i, arr with
  | O, [] => [Some v]
  | O, _ :: rest => Some v :: rest
  | S j, [] => None :: arr_set [] j v
  | S j, x :: rest => x :: arr_set rest j v
  end.

(** The elements [forEach] and [reduce] visit: holes are skipped. *)
Fixpoint present (arr : jsarray) : list Z :=
  match arr with
  | [] => []
  | Some v :: rest => v :: present rest
  | None :: rest => present rest
  end.

(** [arr.reduce((prev, cur) => prev.add(cur))], with no initial value: the
    first present element starts the fold, and an array with none raises a
    [TypeError]. *)
Definition reduce_add (arr : jsarray) : outcome Z :=
  match present arr with
  | [] => Threw TypeError
  | x :: rest => Returned (fold_left Z.add rest x)
  end.

(** A method call [o.f(...)] on a value read from an array. *)
Definition on_receiver {A : Type} (o : option Z) (k : Z -> outcome A) : outcome A :=
  match o with
  | Some v => k v
  | None => Threw TypeError
  end.

(** An argument [x] of a BigInteger method that reads it. *)
Definition on_argument {A : Type} (o : option Z) (k : Z -> outcome A) : outcome A :=
  on_receiver o k.

(** ** JavaScript numbers *)

Definition MAX_SAFE_INTEGER : Z := 2 ^ 53 - 1.

Definition toInt32 (x : Z) : Z :=
  let y := x mod 2 ^ 32 in
  if 2 ^ 31 <=? y then y - 2 ^ 32 else y.

(** [x << s]: both operands go through 32 bits, the count through 5. *)
Definition js_shl (x s : Z) : Z := toInt32 (Z.shiftl (toInt32 x) (s mod 32)).

(** ** The BigInteger facade *)

Module bigInt.

Definition div_by_zero : exn := Error "Cannot divide by zero"%string.

(** [a.mod(m)]: the remainder has the sign of [a]. *)
Definition mod_ (a m : Z) : outcome Z :=
  if m =? 0 then Threw div_by_zero else Returned (Z.rem a m).

(** [a.divide(b)]: the quotient is truncated. *)
Definition divide (a b : Z) : outcome Z :=
  if b =? 0 then Threw div_by_zero else Returned (Z.quot a b).

(** [x.bitLength()]. *)
Definition bitLength (x : Z) : Z :=
  let n := if x <? 0 then - x - 1 else x in
  if n =? 0 then 0 else Z.log2 n + 1.

(** The loop of [modInv]:
<<
    while (!newR.isZero()) {
        q = r.divide(newR);
        lastT = t; lastR = r; t = newT; r = newR;
        newT = lastT.subtract(q.multiply(newT));
        newR = lastR.subtract(q.multiply(newR));
    }
>>
    It yields the last [(t, r)]. *)
Fixpoint modInv_loop (fuel : nat) (t newT r newR : Z) : option (Z * Z) :=
  match fuel with
  | O => None
  | S fuel' =>
      if newR =? 0 then Some (t, r)
      else
        let q := Z.quot r newR in
        modInv_loop fuel' newT (t - q * newT) newR (r - q * newR)
  end.

(** Euclid's remainders halve every other step, so this many rounds are
    more than the loop ever makes. *)
Definition modInv_fuel (a n : Z) : nat :=
  Z.to_nat (Z.log2 (Z.abs n) + Z.log2 (Z.abs a) + 4).

(** The package's message names the two operands before these words. *)
Definition not_coprime : exn := Error "not co-prime"%string.

(** [a.modInv(n)]. *)
Definition modInv (a n : Z) : outcome Z :=
  match modInv_loop (modInv_fuel a n) 0 1 n (Z.abs a) with
  | None => Exhausted
  | Some (t, r) =>
      if negb (Z.abs r =? 1) then Threw not_coprime
      else
        let t := if t <? 0 then t + n else t in
        if a <? 0 then Returned (- t) else Returned t
  end.

(** The loop of [modPow], one round per binary digit of the exponent:
<<
    while (exp.isPositive()) {
        if (base.isZero()) return Integer[0];
        if (exp.isOdd()) r = r.multiply(base).mod(mod);
        exp = exp.divide(2);
        base = base.square().mod(mod);
    }
    return r;
>> *)
Fixpoint modPow_loop (exp : positive) (r base m : Z) : Z :=
  if base =? 0 then 0
  else
    match exp with
    | xH => Z.rem (r * base) m
    | xO exp' => modPow_loop exp' r (Z.rem (base * base) m) m
    | xI exp' => modPow_loop exp' (Z.rem (r * base) m) (Z.rem (base * base) m) m
    end.

Definition zero_modulus : exn := Error "Cannot take modPow with modulus 0"%string.

(** [b.modPow(exp, m)]. *)
Definition modPow (b exp m : Z) : outcome Z :=
  if m =? 0 then Threw zero_modulus
  else
    match exp with
    | Z0 => Returned 1
    | Zpos e => Returned (modPow_loop e 1 (Z.rem b m) m)
    | Zneg e =>
        base <- modInv (Z.rem b m) m ;;
        Returned (modPow_loop e 1 base m)
    end.

(** The package's message names the count before these words. *)
Definition too_large_for_shifting : exn := Error "too large for shifting"%string.

(** [x.shiftRight(s)] and [x.shiftLeft(s)]; the package refuses counts
    beyond its base, ten million. *)
Definition shiftRight (x s : Z) : outcome Z :=
  if 10000000 <? Z.abs s then Threw too_large_for_shifting
  else Returned (Z.shiftr x s).

Definition shiftLeft (x s : Z) : outcome Z :=
  if 10000000 <? Z.abs s then Threw too_large_for_shifting
  else Returned (Z.shiftl x s).

(** [x.and(y)], on two's complement. *)
Definition and (x y : Z) : Z := Z.land x y.

End bigInt.

(** ** Value classes *)

Module PublicKey.

Record t : Type := mk { n : Z; nSquared : Z; g : Z }.

(** [new PublicKey(n, g)] caches [n.square()]. *)
Definition new (n g : Z) : t := mk n (n * n) g.

End PublicKey.

Module PrivateKey.

Record t : Type := new { lambda : Z; mu : Z }.

End PrivateKey.

Module Signature.

Record t : Type := new { s1 : Z; s2 : Z }.

End Signature.

Module ZkpCommitment.

Record t : Type := mk { a : jsarray; e : jsarray; z : jsarray }.

(** [new ZkpCommitment(capacity)]: three arrays of [capacity] holes. *)
Definition new (capacity : nat) : t :=
  mk (new_Array capacity) (new_Array capacity) (new_Array capacity).

(** [ZkpCommitment.create(a, e, z)] keeps the three arrays as given. *)
Definition create (a e z : jsarray) : t := mk a e z.

Definition set_a (c : t) (i : nat) (v : Z) : t := mk (arr_set (a c) i v) (e c) (z c).
Definition set_e (c : t) (i : nat) (v : Z) : t := mk (a c) (arr_set (e c) i v) (z c).
Definition set_z (c : t) (i : nat) (v : Z) : t := mk (a c) (e c) (arr_set (z c) i v).

End ZkpCommitment.

(** ** BigMath

    [BigMath.ts] is not among the sources. Its samplers are modelled from
    the specification; its hash functions and its primality test are
    parameters of the Paillier section below. The method
    [makeStringifyToBase64] only attaches a serialiser to a value and is
    left out. *)

Module BigMath.

(** Modelled from the spec: [BigMath.generateRandomPrime(bits)], missing
    from the sources. Section 4.1: "sample primes p, q of bit-length
    bits/2". The primality test is the parameter [isPrime]. *)
Definition generateRandomPrime (isPrime : Z -> bool) (bits : Z) : Rand Z :=
  draw (fun x => isPrime x && (bigInt.bitLength x =? bits)).

(** Modelled from the spec: [BigMath.generateCoprime(n, bits)], missing
    from the sources. Section 4.2: "sample r with gcd(r, n) = 1 and
    0 < r"; section 9: "rejection-sampling a bit-bounded coprime". *)
Definition generateCoprime (n bits : Z) : Rand Z :=
  draw (fun x => (0 <? x) && (bigInt.bitLength x <=? bits) && (Z.gcd x n =? 1)).

(** Modelled from the spec: [BigMath.generateRandom(bits)], missing from
    the sources. Section 2: "uniform random bigints of a given
    bit-length". *)
Definition generateRandom (bits : Z) : Rand Z :=
  draw (fun x => (0 <=? x) && (bigInt.bitLength x <=? bits)).

(** Modelled from the spec: [BigMath.positiveMod(x, m)], missing from the
    sources. Section 4.6.1: "taken as a non-negative representative in
    [0, M)". *)
Definition positiveMod (x m : Z) : Z := x mod m.

End BigMath.

(** ** VoteEncoder *)

Definition too_big_voting_space : exn :=
  RangeError "Too big voting space, exceeds max int"%string.

(** [VoteEncoder.encodeSingle(choice, numChoices, bitsPerChoice, bin, numBins)];
    [bin] and [numBins] default to 0. *)
Definition encodeSingle (choice numChoices bitsPerChoice bin numBins : Z) : outcome Z :=
  if (numChoices <=? choice) || (numChoices <? 2)
  then Threw (RangeError "Invlid choices"%string)
  else if (0 <? numBins) && (numBins <=? bin)
  then Threw (RangeError "Invalid bins"%string)
  else if bitsPerChoice <? 2
  then Threw (RangeError "bitsPerChoice must be at least 2"%string)
  else if MAX_SAFE_INTEGER <=? js_shl 2 (bitsPerChoice - 1)
  then Threw too_big_voting_space
  else bigInt.shiftLeft 1 (bitsPerChoice * (bin * numChoices + choice)).

(** [new Array<number>(len)]. *)
Definition new_Array_of_length (len : Z) : outcome jsarray :=
  if (len <? 0) || (2 ^ 32 <=? len)
  then Threw (RangeError "Invalid array length"%string)
  else Returned (new_Array (Z.to_nat len)).

(** The [for] loop of [decode], with [count] rounds left. The value that
    [toJSNumber] returns is the integer itself. *)
Fixpoint decode_loop (count : nat) (choice : Z) (encoded bitsPerChoice : Z)
  (result : jsarray) : outcome jsarray :=
  match count with
  | O => Returned result
  | S count' =>
      shifted <- bigInt.shiftRight encoded (choice * bitsPerChoice) ;;
      let answer := bigInt.and shifted (js_shl 1 (bitsPerChoice - 1) - 1) in
      decode_loop count' (choice + 1) encoded bitsPerChoice
        (arr_set result (Z.to_nat choice) answer)
  end.

(** [VoteEncoder.decode(encoded, numChoices, bitsPerChoice)]. *)
Definition decode (encoded numChoices bitsPerChoice : Z) : outcome jsarray :=
  if MAX_SAFE_INTEGER <=? js_shl 2 (bitsPerChoice - 1)
  then Threw too_big_voting_space
  else
    result <- new_Array_of_length numChoices ;;
    decode_loop (Z.to_nat numChoices) 0 encoded bitsPerChoice result.

(** [VoteEncoder.encodeMultiple(choices, numChoices, bitsPerChoice, bin, numBins)];
    the source spells the first letter of the name in Cyrillic. The
    [for ... of] loop adds the encoding of each choice to [result]. *)
Fixpoint encodeMultiple_loop (choices : list Z) (numChoices bitsPerChoice bin numBins : Z)
  (result : Z) : outcome Z :=
  match choices with
  | [] => Returned result
  | choice :: rest =>
      vote <- encodeSingle choice numChoices bitsPerChoice bin numBins ;;
      encodeMultiple_loop rest numChoices bitsPerChoice bin numBins (result + vote)
  end.

Definition encodeMultiple (choices : list Z) (numChoices bitsPerChoice bin numBins : Z)
  : outcome Z :=
  encodeMultiple_loop choices numChoices bitsPerChoice bin numBins 0.

(** An array of arrays of numbers, as [decodeGroups] returns. *)
Definition jsarray2 : Type := list (option jsarray).

(** [arr[i] = row]. *)
Fixpoint arr2_set (arr : jsarray2) (i : nat) (row : jsarray) : jsarray2 :=
  match i, arr with
  | O, [] => [Some row]
  | O, _ :: rest => Some row :: rest
  | S j, [] => None :: arr2_set [] j row
  | S j, x :: rest => x :: arr2_set rest j row
  end.

(** [new Array<Array<number>>(len)]. *)
Definition new_Array2_of_length (len : Z) : outcome jsarray2 :=
  if (len <? 0) || (2 ^ 32 <=? len)
  then Threw (RangeError "Invalid array length"%string)
  else Returned (repeat None (Z.to_nat len)).

(** The inner [for] loop of [decodeGroups], over the choices of one bin,
    with [count] rounds left. *)
Fixpoint decodeGroups_choices (count : nat) (choice bin : Z)
  (encoded numChoices bitsPerChoice : Z) (row : jsarray) : outcome jsarray :=
  match count with
  | O => Returned row
  | S count' =>
      shifted <- bigInt.shiftRight encoded ((choice + bin * numChoices) * bitsPerChoice) ;;
      let answer := bigInt.and shifted (js_shl 1 (bitsPerChoice - 1) - 1) in
      decodeGroups_choices count' (choice + 1) bin encoded numChoices bitsPerChoice
        (arr_set row (Z.to_nat choice) answer)
  end.

(** The outer [for] loop of [decodeGroups], over the bins. The source
    stores the fresh row in [result[bin]] and then fills it in place; the
    row is filled first here, and stored when it is complete. *)
Fixpoint decodeGroups_bins (count : nat) (bin : Z) (encoded numChoices bitsPerChoice : Z)
  (result : jsarray2) : outcome jsarray2 :=
  match count with
  | O => Returned result
  | S count' =>
      row <- new_Array_of_length numChoices ;;
      row <- decodeGroups_choices (Z.to_nat numChoices) 0 bin encoded numChoices
               bitsPerChoice row ;;
      decodeGroups_bins count' (bin + 1) encoded numChoices bitsPerChoice
        (arr2_set result (Z.to_nat bin) row)
  end.

(** [VoteEncoder.decodeGroups(encoded, numChoices, bitsPerChoice, numBins)]. *)
Definition decodeGroups (encoded numChoices bitsPerChoice numBins : Z) : outcome jsarray2 :=
  if MAX_SAFE_INTEGER <=? js_shl 2 (bitsPerChoice - 1)
  then Threw too_big_voting_space
  else
    result <- new_Array2_of_length numBins ;;
    decodeGroups_bins (Z.to_nat numBins) 0 encoded numChoices bitsPerChoice result.


(** The [for] loop of [getSingleChoicePermutations] over the choices of
    one bin; [votes] is the list that the source calls [list]. *)
Fixpoint permutations_choices (count : nat) (choice : Z)
  (numChoices bitsPerChoice bin numBins : Z) (votes : list Z) : outcome (list Z) :=
  match count with
  | O => Returned votes
  | S count' =>
      vote <- encodeSingle choice numChoices bitsPerChoice bin numBins ;;
      permutations_choices count' (choice + 1) numChoices bitsPerChoice bin numBins
        (votes ++ [vote])
  end.

(** The loop [do { ... } while (++bin < numBins)]. *)
Fixpoint permutations_bins (fuel : nat) (bin : Z) (numChoices bitsPerChoice numBins : Z)
  (votes : list Z) : outcome (list Z) :=
  match fuel with
  | O => Exhausted
  | S fuel' =>
      votes <- permutations_choices (Z.to_nat numChoices) 0 numChoices bitsPerChoice bin
                 numBins votes ;;
      if bin + 1 <? numBins
      then permutations_bins fuel' (bin + 1) numChoices bitsPerChoice numBins votes
      else Returned votes
  end.

(** [VoteEncoder.getSingleChoicePermutations(numChoices, bitsPerChoice, numBins)];
    [numBins] defaults to 0. The loop over the bins makes at most
    [numBins] rounds, and one when [numBins] is not positive. *)
Definition getSingleChoicePermutations (numChoices bitsPerChoice numBins : Z)
  : outcome (list Z) :=
  if numChoices <? 2 then Threw (RangeError "Invalid choices"%string)
  else permutations_bins (S (Z.to_nat numBins)) 0 numChoices bitsPerChoice numBins [].

(** ** Paillier *)

Section Paillier.

(** The primality test behind [BigMath.generateRandomPrime]. *)
Variable isPrime : Z -> bool.

(** [BigMath.bigIntHashFromBigInt] and [BigMath.bigIntHashFromBigIntArray]. *)
Variable bigIntHashFromBigInt : Z -> Z.
Variable bigIntHashFromBigIntArray : jsarray -> Z.

(** The two nested [do ... while] loops of [generateKeyPair]: primes [p]
    and [q] until they differ, and [n = p q] until it has [bits] bits. *)
Definition samplePrimes (bits : Z) : Rand (Z * Z * Z) :=
  doWhile
    (pq <~ doWhile
             (p <~ BigMath.generateRandomPrime isPrime (bits / 2) ;;
              q <~ BigMath.generateRandomPrime isPrime (bits / 2) ;;
              retR (p, q))
             (fun pq => fst pq =? snd pq) ;;
     retR (fst pq, snd pq, fst pq * snd pq))
    (fun pqn => negb (bigInt.bitLength (snd pqn) =? bits)).

(** What [generateKeyPair] computes once [p], [q] and [n] are chosen. *)
Definition keyPairOf (p q n : Z) : outcome (PublicKey.t * PrivateKey.t) :=
  lambda <- bigInt.divide ((p - 1) * (q - 1)) (Z.gcd (p - 1) (q - 1)) ;;
  let g := n + 1 in
  u <- bigInt.modPow g lambda (n * n) ;;
  u2 <- bigInt.divide (u - 1) n ;;
  mu <- bigInt.modInv u2 n ;;
  Returned (PublicKey.new n g, PrivateKey.new lambda mu).

(** [Paillier.generateKeyPair(bits)]. *)
Definition generateKeyPair (bits : Z) : Rand (PublicKey.t * PrivateKey.t) :=
  if (0 <? Z.rem bits 8) || (bits <? 160) then throwR BadKeyParameter
  else
    pqn <~ samplePrimes bits ;;
    liftR (keyPairOf (fst (fst pqn)) (snd (fst pqn)) (snd pqn)).

(** [Paillier.encryptWithR(m, pub, r)]. *)
Definition encryptWithR (m : Z) (pub : PublicKey.t) (r : Z) : outcome (Z * Z) :=
  if (PublicKey.n pub) <=? m then Threw BadPlaintext
  else
    gm <- bigInt.mod_ ((PublicKey.n pub) * m + 1) (PublicKey.nSquared pub) ;;
    rn <- bigInt.modPow r (PublicKey.n pub) (PublicKey.nSquared pub) ;;
    c <- bigInt.mod_ (gm * rn) (PublicKey.nSquared pub) ;;
    Returned (c, r).

(** The loop that [encryptWithoutR] and [createZkp] share:
    [do { r = generateCoprime(n, n.bitLength()) } while (r >= n)]. *)
Definition sampleUnit (pub : PublicKey.t) : Rand Z :=
  doWhile (BigMath.generateCoprime (PublicKey.n pub) (bigInt.bitLength (PublicKey.n pub)))
    (fun r => (PublicKey.n pub) <=? r).

(** [Paillier.encryptWithoutR(m, pub)]. *)
Definition encryptWithoutR (m : Z) (pub : PublicKey.t) : Rand (Z * Z) :=
  r <~ sampleUnit pub ;;
  liftR (encryptWithR m pub r).

(** [Paillier.encrypt(m, pub)]. *)
Definition encrypt (m : Z) (pub : PublicKey.t) : Rand Z :=
  cr <~ encryptWithoutR m pub ;;
  retR (fst cr).

(** [Paillier.decrypt(c, pub, priv)]. *)
Definition decrypt (c : Z) (pub : PublicKey.t) (priv : PrivateKey.t) : outcome Z :=
  if (PublicKey.nSquared pub) <=? c then Threw BadCiphertext
  else
    u <- bigInt.modPow c (PrivateKey.lambda priv) (PublicKey.nSquared pub) ;;
    l <- bigInt.divide (u - 1) (PublicKey.n pub) ;;
    bigInt.mod_ (l * PrivateKey.mu priv) (PublicKey.n pub).

(** [Paillier.addEncrypted(em1, em2, pub)]. *)
Definition addEncrypted (em1 em2 : Z) (pub : PublicKey.t) : outcome Z :=
  bigInt.mod_ (em1 * em2) (PublicKey.nSquared pub).

(** [Paillier.addScalar(em, k, pub)]. *)
Definition addScalar (em k : Z) (pub : PublicKey.t) : outcome Z :=
  gk <- bigInt.modPow (PublicKey.g pub) k (PublicKey.nSquared pub) ;;
  bigInt.mod_ (em * gk) (PublicKey.nSquared pub).

(** [Paillier.mulScalar(em, k, pub)]. *)
Definition mulScalar (em k : Z) (pub : PublicKey.t) : outcome Z :=
  bigInt.modPow em k (PublicKey.nSquared pub).

(** [Paillier.createSignature(m, pub, priv)]. *)
Definition createSignature (m : Z) (pub : PublicKey.t) (priv : PrivateKey.t)
  : outcome Signature.t :=
  let h := bigIntHashFromBigInt m in
  hl <- bigInt.modPow h (PrivateKey.lambda priv) (PublicKey.nSquared pub) ;;
  s1Num <- bigInt.divide (hl - 1) (PublicKey.n pub) ;;
  let s1Den := PrivateKey.mu priv in
  s1 <- bigInt.mod_ (s1Num * s1Den) (PublicKey.n pub) ;;
  invN <- bigInt.modInv (PublicKey.n pub) (PrivateKey.lambda priv) ;;
  test <- bigInt.modPow (PublicKey.g pub) s1 (PublicKey.n pub) ;;
  invG <- bigInt.modInv test (PublicKey.n pub) ;;
  s2 <- bigInt.modPow (h * invG) invN (PublicKey.n pub) ;;
  Returned (Signature.new s1 s2).

(** [Paillier.verifySignature(m, sig, pub)]. *)
Definition verifySignature (m : Z) (sig : Signature.t) (pub : PublicKey.t) : outcome bool :=
  let h := bigIntHashFromBigInt m in
  gs1 <- bigInt.modPow (PublicKey.g pub) (Signature.s1 sig) (PublicKey.nSquared pub) ;;
  s2n <- bigInt.modPow (Signature.s2 sig) (PublicKey.n pub) (PublicKey.nSquared pub) ;;
  hm <- bigInt.mod_ (gs1 * s2n) (PublicKey.nSquared pub) ;;
  Returned (hm =? h).

(** [u[i] = c / g^m[i] mod n^2], as both [createZkp] and [verifyZkp]
    compute it. *)
Definition zkp_u (c mi : Z) (pub : PublicKey.t) : outcome Z :=
  gmi <- bigInt.modPow (PublicKey.g pub) mi (PublicKey.nSquared pub) ;;
  inv <- bigInt.modInv gmi (PublicKey.nSquared pub) ;;
  bigInt.mod_ (c * inv) (PublicKey.nSquared pub).

(** The [for] loop of [createZkp] over the valid messages from index [i]
    on; the state is the commitment and [mk]. For a modulus of odd bit
    length the source passes a fractional bit count to [generateRandom];
    the quotient is taken here. *)
Fixpoint createZkp_loop (m c omega : Z) (pub : PublicKey.t) (rest : list Z) (i : nat)
  (commitment : ZkpCommitment.t) (mk : Z) : Rand (ZkpCommitment.t * Z) :=
  match rest with
  | [] => retR (commitment, mk)
  | mi :: rest' =>
      ui <~ liftR (zkp_u c mi pub) ;;
      if negb (mi =? m) then
        ei <~ BigMath.generateRandom (bigInt.bitLength (PublicKey.n pub) / 2 - 1) ;;
        let commitment := ZkpCommitment.set_e commitment i ei in
        zi <~ BigMath.generateCoprime (PublicKey.n pub) (bigInt.bitLength (PublicKey.n pub) - 1) ;;
        let commitment := ZkpCommitment.set_z commitment i zi in
        zin <~ liftR (bigInt.modPow zi (PublicKey.n pub) (PublicKey.nSquared pub)) ;;
        uiei <~ liftR (bigInt.modPow ui ei (PublicKey.nSquared pub)) ;;
        inv <~ liftR (bigInt.modInv uiei (PublicKey.nSquared pub)) ;;
        ai <~ liftR (bigInt.mod_ (zin * inv) (PublicKey.nSquared pub)) ;;
        let commitment := ZkpCommitment.set_a commitment i ai in
        createZkp_loop m c omega pub rest' (S i) commitment mk
      else
        ai <~ liftR (bigInt.modPow omega (PublicKey.n pub) (PublicKey.nSquared pub)) ;;
        let commitment := ZkpCommitment.set_a commitment i ai in
        createZkp_loop m c omega pub rest' (S i) commitment (Z.of_nat i)
  end.

Definition hashMod : Z := 2 ^ 256.

(** [Paillier.createZkp(m, c, r, valid, pub)]. *)
Definition createZkp (m c r : Z) (valid : list Z) (pub : PublicKey.t)
  : Rand ZkpCommitment.t :=
  let commitment := ZkpCommitment.new (List.length valid) in
  omega <~ sampleUnit pub ;;
  st <~ createZkp_loop m c omega pub valid 0 commitment (-1) ;;
  let commitment := fst st in
  let mk := snd st in
  if mk <? 0 then throwR NotInValidSet
  else
    let challenge := bigIntHashFromBigIntArray (ZkpCommitment.a commitment) in
    liftR
      (sum <- reduce_add (ZkpCommitment.e commitment) ;;
       esum <- bigInt.mod_ sum hashMod ;;
       let ek := BigMath.positiveMod (challenge - esum) hashMod in
       let commitment := ZkpCommitment.set_e commitment (Z.to_nat mk) ek in
       rek <- bigInt.modPow r ek (PublicKey.n pub) ;;
       zk <- bigInt.mod_ (omega * rek) (PublicKey.n pub) ;;
       let commitment := ZkpCommitment.set_z commitment (Z.to_nat mk) zk in
       Returned commitment).

(** [Paillier.encryptWithZkp(m, valid, pub)]. *)
Definition encryptWithZkp (m : Z) (valid : list Z) (pub : PublicKey.t)
  : Rand (Z * ZkpCommitment.t) :=
  cr <~ encryptWithoutR m pub ;;
  commitment <~ createZkp m (fst cr) (snd cr) valid pub ;;
  retR (fst cr, commitment).

(** The [for] loop of [verifyZkp] over the valid messages from index [i]
    on. *)
Fixpoint verifyZkp_loop (c : Z) (pub : PublicKey.t) (commitment : ZkpCommitment.t)
  (rest : list Z) (i : nat) : outcome bool :=
  match rest with
  | [] => Returned true
  | mi :: rest' =>
      ui <- zkp_u c mi pub ;;
      let zi := arr_get (ZkpCommitment.z commitment) i in
      let ai := arr_get (ZkpCommitment.a commitment) i in
      let ei := arr_get (ZkpCommitment.e commitment) i in
      zin <- on_receiver zi (fun zi => bigInt.modPow zi (PublicKey.n pub) (PublicKey.nSquared pub)) ;;
      uiei <- on_argument ei (fun ei => bigInt.modPow ui ei (PublicKey.nSquared pub)) ;;
      aiuiei <- on_receiver ai (fun ai => bigInt.mod_ (ai * uiei) (PublicKey.nSquared pub)) ;;
      if negb (zin =? aiuiei) then Returned false
      else verifyZkp_loop c pub commitment rest' (S i)
  end.

(** [Paillier.verifyZkp(c, valid, commitment, pub)]. *)
Definition verifyZkp (c : Z) (valid : list Z) (commitment : ZkpCommitment.t)
  (pub : PublicKey.t) : outcome bool :=
  if negb (List.length valid * 3 =?
           List.length (ZkpCommitment.a commitment)
           + List.length (ZkpCommitment.e commitment)
           + List.length (ZkpCommitment.z commitment))%nat
  then Threw MalformedCommitment
  else
    let challenger := bigIntHashFromBigIntArray (ZkpCommitment.a commitment) in
    sum <- reduce_add (ZkpCommitment.e commitment) ;;
    esum <- bigInt.mod_ sum hashMod ;;
    if negb (esum =? challenger) then Returned false
    else verifyZkp_loop c pub commitment valid 0.

End Paillier.

(** ** The tally of the tests *)

(** The aggregation loop of [VoteEncoder.spec.ts]:
    [encryptedSum = Paillier.addEncrypted(encryptedSum, encryptedVote, pub)]
    for each encrypted vote in turn. *)
Fixpoint aggregate (sum : Z) (ciphertexts : list Z) (pub : PublicKey.t) : outcome Z :=
  match ciphertexts with
  | [] => Returned sum
  | c :: rest => sum' <- addEncrypted sum c pub ;; aggregate sum' rest pub
  end.

(** * Notions of the specification *)

(** Section 3 of the specification: [n] is the product of two distinct
    primes, and [gcd(n, phi(n)) = 1]. *)
Record key_primes (p q : Z) : Prop := {
  kp_prime_p : Z.prime p;
  kp_prime_q : Z.prime q;
  kp_distinct : p <> q;
  kp_invariant : Z.gcd (p * q) ((p - 1) * (q - 1)) = 1
}.

(** Carmichael's function of [p q] as [generateKeyPair] computes it. *)
Definition carmichael (p q : Z) : Z := (p - 1) * (q - 1) / Z.gcd (p - 1) (q - 1).

(** A key pair of the data model: what [generateKeyPair] computes from
    primes that satisfy the invariant of section 3. *)
Definition valid_key_pair (pub : PublicKey.t) (priv : PrivateKey.t) : Prop :=
  exists p q, key_primes p q /\ keyPairOf p q (p * q) = Returned (pub, priv).

(** The ciphertext of [m] under randomness [r], as [encryptWithR]
    computes it. *)
Definition ciphertext (n m r : Z) : Z :=
  ((n * m + 1) mod (n * n) * (r ^ n mod (n * n))) mod (n * n).

(** The field of choice [i] in [encoded]. *)
Definition field (encoded bitsPerChoice mask : Z) (i : nat) : Z :=
  Z.land (Z.shiftr encoded (Z.of_nat i * bitsPerChoice)) mask.

(** The sum of a list. *)
Definition total (l : list Z) : Z := fold_right Z.add 0 l.

(** One round of the verifier passes on [(m_i, a_i, e_i, z_i)]. *)
Definition clause_ok (c : Z) (pub : PublicKey.t) (mi ai ei zi : Z) : Prop :=
  exists ui zin uiei,
    zkp_u c mi pub = Returned ui /\
    bigInt.modPow zi (PublicKey.n pub) (PublicKey.nSquared pub) = Returned zin /\
    bigInt.modPow ui ei (PublicKey.nSquared pub) = Returned uiei /\
    bigInt.mod_ (ai * uiei) (PublicKey.nSquared pub) = Returned zin.

(** The verifier's rounds pass on the valid messages and three dense
    arrays, position by position. *)
Inductive clauses_ok (c : Z) (pub : PublicKey.t)
  : list Z -> list Z -> list Z -> list Z -> Prop :=
| clauses_nil : clauses_ok c pub [] [] [] []
| clauses_cons mi valid ai la ei le zi lz :
    clause_ok c pub mi ai ei zi ->
    clauses_ok c pub valid la le lz ->
    clauses_ok c pub (mi :: valid) (ai :: la) (ei :: le) (zi :: lz).

(** What the prover's loop leaves in the three arrays for the messages
    it has visited: a simulated clause where [m_i <> m], and [a_i] alone
    where [m_i = m]. *)
Inductive built (m c omega : Z) (pub : PublicKey.t)
  : list Z -> jsarray -> jsarray -> jsarray -> Prop :=
| built_nil : built m c omega pub [] [] [] []
| built_other mi rest ai ei zi ra re rz :
    mi <> m -> 0 <= ei ->
    clause_ok c pub mi ai ei zi ->
    built m c omega pub rest ra re rz ->
    built m c omega pub (mi :: rest) (Some ai :: ra) (Some ei :: re) (Some zi :: rz)
| built_self rest ai ra re rz :
    bigInt.modPow omega (PublicKey.n pub) (PublicKey.nSquared pub) = Returned ai ->
    built m c omega pub rest ra re rz ->
    built m c omega pub (m :: rest) (Some ai :: ra) (None :: re) (None :: rz).

(** The value of [mk] after the loop has visited [rest] from index [i]. *)
Fixpoint mk_after (m : Z) (rest : list Z) (i : nat) (mk : Z) : Z :=
  match rest with
  | [] => mk
  | mi :: rest' => mk_after m rest' (S i) (if mi =? m then Z.of_nat i else mk)
  end.

(** [c] is a ciphertext of [m] modulo [n]: it is [(1 + n m) y^n] modulo
    [n^2] for a unit [y]. *)
Definition encrypts (n c m : Z) : Prop :=
  0 <= c < n * n /\
  exists y, Z.gcd y n = 1 /\ c mod (n * n) = ((1 + n * m) * y ^ n) mod (n * n).

(** The integer whose fields of [bitsPerChoice] bits, lowest first, are
    [fields]. *)
Fixpoint pack (bitsPerChoice : Z) (fields : list Z) : Z :=
  match fields with
  | [] => 0
  | c :: rest => c + 2 ^ bitsPerChoice * pack bitsPerChoice rest
  end.

(** The number of votes for choice [i] among [choices]. *)
Definition votes_for (choices : list Z) (i : nat) : Z :=
  Z.of_nat (count_occ Z.eq_dec choices (Z.of_nat i)).

(** The exceptions of the [big-integer] package: never a [RangeError],
    never a [TypeError], never one of the messages of [Paillier.ts]. *)
Definition facade_error (e : exn) : Prop :=
  e = bigInt.div_by_zero \/ e = bigInt.not_coprime \/ e = bigInt.zero_modulus.

(** The residue of a unit of [Z_p]. *)
Definition val {p : Z} (x : Zstar p) : Z := Zmod.unsigned (Zstar.to_Zmod x).

(** The check of Proth's criterion for [N = k 2^m + 1] and a base [a]. *)
Definition proth_certificate (N k m a : Z) : bool :=
  (N =? k * 2 ^ m + 1) && (0 <? k) && (k <? 2 ^ m) && (0 <? m) && (0 <=? a)
  && match bigInt.modPow a ((N - 1) / 2) N with
     | Returned x => x =? N - 1
     | _ => false
     end.

(** ** Keys for the examples *)

(** Two Proth primes of 80 bits and two of 128 bits. *)
Definition p80 : Z := 1208925819555255546806273.
Definition q80 : Z := 1208925819511275081695233.
Definition p128 : Z := 340282366920938462024528569682423185409.
Definition q128 : Z := 340282366920938460622576020080497262593.

(** A primality test that admits these four primes. *)
Definition isPrime_table (x : Z) : bool :=
  (x =? p80) || (x =? q80) || (x =? p128) || (x =? q128).

(** The key pairs that [generateKeyPair] computes from them. *)
Definition pub160 : PublicKey.t := PublicKey.new (p80 * q80) (p80 * q80 + 1).
Definition priv160 : PrivateKey.t :=
  PrivateKey.new 664613997802997425803211531723210752
    856989567918230571041049665410150394951332195107.
Definition pub256 : PublicKey.t := PublicKey.new (p128 * q128) (p128 * q128 + 1).
Definition priv256 : PrivateKey.t :=
  PrivateKey.new 3138550867693340342445140148774971557090868166846471733248
    32154681944051696035072449721184559284793131391419167368546804814656104071426.

(** A small key, for the counterexamples. *)
Definition pub143 : PublicKey.t := PublicKey.new 143 144.

(** The key pair that [generateKeyPair] would compute from the primes 13
    and 17, for the small examples. *)
Definition pub221 : PublicKey.t := PublicKey.new 221 222.
Definition priv221 : PrivateKey.t := PrivateKey.new 48 198.

(** * Properties *)

(** ** Outcomes *)

Lemma bind_Returned {A B : Type} (x : outcome A) (k : A -> outcome B) (b : B) :
  bind x k = Returned b -> exists a, x = Returned a /\ k a = Returned b.
Proof. destruct x as [a| |]; simpl; intros H; try discriminate. now exists a. Qed.

(** ** The BigInteger facade *)

Lemma mod_nonneg (a m : Z) :
  0 <= a -> 0 < m -> bigInt.mod_ a m = Returned (a mod m).
Proof.
  intros Ha Hm. unfold bigInt.mod_.
  destruct (Z.eqb_spec m 0) as [->|_]; [lia|].
  now rewrite Z.rem_mod_nonneg.
Qed.

Lemma divide_nonneg (a b : Z) :
  0 <= a -> 0 < b -> bigInt.divide a b = Returned (a / b).
Proof.
  intros Ha Hb. unfold bigInt.divide.
  destruct (Z.eqb_spec b 0) as [->|_]; [lia|].
  now rewrite Z.quot_div_nonneg.
Qed.

Lemma modPow_loop_spec (m : Z) (Hm : 0 < m) (e : positive) :
  forall r base, 0 <= r -> 0 <= base ->
    bigInt.modPow_loop e r base m = (r * base ^ Z.pos e) mod m.
Proof.
  induction e as [e IH|e IH|]; intros r base Hr Hb; simpl bigInt.modPow_loop.
  - destruct (Z.eqb_spec base 0) as [->|Hnz].
    + rewrite Z.pow_0_l by lia. now rewrite Z.mul_0_r, Z.mod_0_l by lia.
    + rewrite !Z.rem_mod_nonneg by nia.
      rewrite IH by (apply Z.mod_pos_bound; lia).
      rewrite Pos2Z.inj_xI, Z.pow_add_r, Z.pow_mul_r, Z.pow_2_r, Z.pow_1_r by lia.
      rewrite <- Zmult_mod_idemp_r, Z.mod_pow_l, Zmult_mod_idemp_r.
      rewrite Zmult_mod_idemp_l. f_equal. ring.
  - destruct (Z.eqb_spec base 0) as [->|Hnz].
    + rewrite Z.pow_0_l by lia. now rewrite Z.mul_0_r, Z.mod_0_l by lia.
    + rewrite !Z.rem_mod_nonneg by nia.
      rewrite IH by (try apply Z.mod_pos_bound; lia).
      rewrite Pos2Z.inj_xO, Z.pow_mul_r, Z.pow_2_r by lia.
      now rewrite <- Zmult_mod_idemp_r, Z.mod_pow_l, Zmult_mod_idemp_r.
  - destruct (Z.eqb_spec base 0) as [->|Hnz].
    + now rewrite Z.pow_0_l, Z.mul_0_r, Z.mod_0_l by lia.
    + rewrite Z.rem_mod_nonneg by nia. now rewrite Z.pow_1_r.
Qed.

(** For a base and an exponent that are not negative, [modPow] is the
    power reduced modulo [m]. *)
Lemma modPow_spec (b e m : Z) :
  0 <= b -> 0 <= e -> 1 < m -> bigInt.modPow b e m = Returned (b ^ e mod m).
Proof.
  intros Hb He Hm. unfold bigInt.modPow.
  destruct (Z.eqb_spec m 0) as [->|_]; [lia|].
  destruct e as [|e|e]; [| |lia].
  - now rewrite Z.pow_0_r, Z.mod_1_l.
  - rewrite modPow_loop_spec by (try apply Z.rem_nonneg; lia).
    rewrite Z.mul_1_l, Z.rem_mod_nonneg by lia. now rewrite Z.mod_pow_l.
Qed.

Lemma modInv_loop_more_fuel (fuel : nat) :
  forall t newT r newR res,
    bigInt.modInv_loop fuel t newT r newR = Some res ->
    bigInt.modInv_loop (S fuel) t newT r newR = Some res.
Proof.
  induction fuel as [|fuel IH]; intros t newT r newR res H; [discriminate|].
  simpl in H. change (bigInt.modInv_loop (S (S fuel)) t newT r newR)
    with (if newR =? 0 then Some (t, r)
          else bigInt.modInv_loop (S fuel) newT (t - Z.quot r newR * newT) newR
                 (r - Z.quot r newR * newR)).
  destruct (newR =? 0); [assumption|]. now apply IH.
Qed.

Lemma modInv_loop_fuel_le (f1 f2 : nat) t newT r newR res :
  (f1 <= f2)%nat ->
  bigInt.modInv_loop f1 t newT r newR = Some res ->
  bigInt.modInv_loop f2 t newT r newR = Some res.
Proof.
  induction 1 as [|f2 _ IH]; [trivial|].
  intros H. now apply modInv_loop_more_fuel, IH.
Qed.

(** Euclid's step on remainders [0 <= newR < r]. *)
Lemma euclid_step (r newR : Z) :
  0 < newR < r ->
  let q := Z.quot r newR in
  1 <= q /\ 0 <= r - q * newR < newR /\ 2 * (r - q * newR) + 1 <= r.
Proof.
  intros H q. subst q. rewrite Z.quot_div_nonneg by lia.
  pose proof (Z.div_mod r newR ltac:(lia)) as E.
  pose proof (Z.mod_pos_bound r newR ltac:(lia)) as B.
  assert (1 <= r / newR) by (apply Z.div_le_lower_bound; lia).
  split; [assumption|]. split; [nia|nia].
Qed.

Lemma log2_succ_double_pos (x : Z) : 0 < x -> Z.log2 (2 * x + 1) = Z.log2 x + 1.
Proof. intros H. rewrite Z.log2_succ_double by lia. lia. Qed.

(** The loop ends within [log2 r + log2 (2 newR + 1)] rounds. *)
Lemma modInv_loop_terminates (fuel : nat) :
  forall t newT r newR,
    0 <= newR < r ->
    Z.log2 r + Z.log2 (2 * newR + 1) < Z.of_nat fuel ->
    exists res, bigInt.modInv_loop fuel t newT r newR = Some res.
Proof.
  induction fuel as [|fuel IH]; intros t newT r newR Hr Hf.
  - pose proof (Z.log2_nonneg r). pose proof (Z.log2_nonneg (2 * newR + 1)). lia.
  - simpl. destruct (Z.eqb_spec newR 0) as [->|Hnz]; [eauto|].
    destruct (euclid_step r newR ltac:(lia)) as (Hq & Hb & Hh).
    apply IH; [lia|].
    rewrite log2_succ_double_pos in Hf by lia.
    pose proof (Z.log2_le_mono _ _ Hh). lia.
Qed.

Lemma abs_sub_opposite (t newT q : Z) :
  t * newT <= 0 -> 0 <= q -> Z.abs (t - q * newT) = Z.abs t + q * Z.abs newT.
Proof.
  intros Hs Hq.
  destruct (Z.lt_trichotomy newT 0) as [Hn|[->|Hn]].
  - assert (0 <= t) by nia. assert (q * newT <= 0) by nia.
    rewrite (Z.abs_neq newT), (Z.abs_eq t), Z.abs_eq by lia. ring.
  - rewrite Z.mul_0_r, Z.sub_0_r. simpl. lia.
  - assert (t <= 0) by nia. assert (0 <= q * newT) by nia.
    rewrite (Z.abs_eq newT), (Z.abs_neq t), Z.abs_neq by lia. ring.
Qed.

(** What the loop maintains, for [0 <= a < n]. *)
Lemma modInv_loop_invariant (a n : Z) (Hn : 0 < n) (fuel : nat) :
  forall t newT r newR t' r',
    0 <= newR < r ->
    (t * a) mod n = r mod n ->
    (newT * a) mod n = newR mod n ->
    Z.abs t * newR + Z.abs newT * r = n ->
    t * newT <= 0 ->
    Z.abs t <= Z.abs newT ->
    bigInt.modInv_loop fuel t newT r newR = Some (t', r') ->
    r' = Z.gcd r newR /\ (t' * a) mod n = r' mod n /\ Z.abs t' <= n.
Proof.
  induction fuel as [|fuel IH]; intros t newT r newR t' r' Hr Ht HnT Hdet Hsgn Hmono H;
    [discriminate|].
  simpl in H. destruct (Z.eqb_spec newR 0) as [->|Hnz].
  - injection H as <- <-. rewrite Z.gcd_0_r, Z.abs_eq by lia.
    repeat split; [assumption|]. nia.
  - destruct (euclid_step r newR ltac:(lia)) as (Hq & Hb & _).
    set (q := Z.quot r newR) in *.
    pose proof (abs_sub_opposite t newT q Hsgn ltac:(lia)) as Habs.
    assert (Hg : Z.gcd newR (r - q * newR) = Z.gcd r newR).
    { rewrite (Z.gcd_comm r newR).
      replace r with ((r - q * newR) + q * newR) at 2 by ring.
      now rewrite Z.gcd_add_mult_diag_r. }
    assert (HnT' : ((t - q * newT) * a) mod n = (r - q * newR) mod n).
    { rewrite Z.mul_sub_distr_r, Zminus_mod, Ht.
      rewrite <- Z.mul_assoc, (Zmult_mod q), HnT, <- Zmult_mod, <- Zminus_mod.
      reflexivity. }
    rewrite <- Hg.
    apply (IH newT (t - q * newT) newR (r - q * newR) t' r'); try assumption.
    + rewrite Habs. nia.
    + nia.
    + rewrite Habs. nia.
Qed.

(** [modInv] of a residue prime to the modulus. *)
Lemma modInv_spec_small (a n : Z) :
  1 < n -> 0 <= a < n -> Z.gcd a n = 1 ->
  forall fuel, Z.log2 n + Z.log2 (2 * a + 1) < Z.of_nat fuel ->
  exists t, bigInt.modInv_loop fuel 0 1 n a = Some (t, 1) /\
       -n < t < n /\ (t * a) mod n = 1.
Proof.
  intros Hn Ha Hg fuel Hf.
  destruct (modInv_loop_terminates fuel 0 1 n a Ha Hf) as [[t r] Hres].
  assert (H0 : (0 * a) mod n = n mod n)
    by (rewrite Z.mul_0_l, Z.mod_0_l, Z.mod_same by lia; reflexivity).
  assert (H1 : (1 * a) mod n = a mod n) by now rewrite Z.mul_1_l.
  assert (H2 : Z.abs 0 * a + Z.abs 1 * n = n) by (rewrite Z.abs_0, (Z.abs_eq 1); lia).
  assert (H3 : Z.abs 0 <= Z.abs 1) by (rewrite Z.abs_0, (Z.abs_eq 1); lia).
  destruct (modInv_loop_invariant a n ltac:(lia) fuel 0 1 n a t r Ha H0 H1
              H2 ltac:(lia) H3 Hres)
    as (Hr & Hta & Hbound).
  rewrite Z.gcd_comm, Hg in Hr. subst r.
  rewrite (Z.mod_1_l n) in Hta by lia.
  exists t. split; [assumption|]. split; [|assumption].
  assert (Z.abs t <> n).
  { intros E. assert (Hz : (t * a) mod n = 0).
    { apply Z.mod_divide; [lia|]. apply Z.divide_mul_l.
      destruct (Z.abs_eq_or_opp t) as [E'|E']; rewrite E' in E.
      - subst t. apply Z.divide_refl.
      - exists (-1). lia. }
    lia. }
  lia.
Qed.

(** A value beyond the modulus: two rounds reduce it. *)
Lemma modInv_loop_reduce (a n : Z) (fuel : nat) :
  0 < n < a ->
  bigInt.modInv_loop (S (S fuel)) 0 1 n a = bigInt.modInv_loop fuel 0 1 n (a mod n).
Proof.
  intros H.
  change (bigInt.modInv_loop (S (S fuel)) 0 1 n a)
    with (if a =? 0 then Some (0, n)
          else if n - Z.quot n a * a =? 0 then Some (1, a)
          else bigInt.modInv_loop fuel (0 - Z.quot n a * 1)
                 (1 - Z.quot a (n - Z.quot n a * a) * (0 - Z.quot n a * 1))
                 (n - Z.quot n a * a)
                 (a - Z.quot a (n - Z.quot n a * a) * (n - Z.quot n a * a))).
  rewrite (Z.quot_small n a) by lia.
  destruct (Z.eqb_spec a 0); [lia|].
  rewrite !Z.mul_0_l, !Z.sub_0_r, Z.mul_0_r, Z.sub_0_r.
  destruct (Z.eqb_spec n 0); [lia|].
  rewrite Z.quot_div_nonneg, Zmod_eq_full by lia. reflexivity.
Qed.

(** [a.modInv(n)] for [a] prime to [n]: the inverse, as a residue. *)
Lemma modInv_spec (a n : Z) :
  1 < n -> 0 <= a -> Z.gcd a n = 1 ->
  exists t, bigInt.modInv a n = Returned t /\ 0 <= t < n /\ (t * a) mod n = 1.
Proof.
  intros Hn Ha Hg. unfold bigInt.modInv, bigInt.modInv_fuel.
  rewrite (Z.abs_eq a), (Z.abs_eq n) by lia.
  assert (Hne : a <> n) by (intros ->; rewrite Z.gcd_diag, Z.abs_eq in Hg; lia).
  assert (Hloop : exists t, bigInt.modInv_loop
                    (Z.to_nat (Z.log2 n + Z.log2 a + 4)) 0 1 n a = Some (t, 1) /\
                    - n < t < n /\ (t * a) mod n = 1).
  { pose proof (Z.log2_nonneg n). pose proof (Z.log2_nonneg a).
    destruct (Z_lt_le_dec a n) as [Hlt|Hge].
    - apply modInv_spec_small; try lia.
      rewrite Z2Nat.id by lia.
      destruct (Z.eq_dec a 0) as [->|Hnz]; [simpl; lia|].
      rewrite log2_succ_double_pos by lia. lia.
    - replace (Z.to_nat (Z.log2 n + Z.log2 a + 4))
        with (S (S (Z.to_nat (Z.log2 n + Z.log2 a + 2)))) by lia.
      rewrite modInv_loop_reduce by lia.
      pose proof (Z.mod_pos_bound a n ltac:(lia)) as Hb.
      destruct (modInv_spec_small (a mod n) n Hn Hb) with
        (fuel := Z.to_nat (Z.log2 n + Z.log2 a + 2)) as (t & H1 & H2 & H3).
      + rewrite Z.gcd_mod by lia. now rewrite Z.gcd_comm.
      + rewrite Z2Nat.id by lia.
        assert (Z.log2 (2 * (a mod n) + 1) <= Z.log2 (2 * n)) by (apply Z.log2_le_mono; lia).
        rewrite Z.log2_double in * by lia.
        pose proof (Z.log2_le_mono n a ltac:(lia)). lia.
      + exists t. repeat split; try assumption; try lia.
        now rewrite Zmult_mod_idemp_r in H3. }
  destruct Hloop as (t & -> & Hb & Hinv). simpl negb.
  change (Z.abs 1 =? 1) with true. simpl negb. cbv iota.
  destruct (Z.ltb_spec a 0) as [?|_]; [lia|].
  destruct (Z.ltb_spec t 0) as [Hneg|Hpos].
  - exists (t + n). split; [reflexivity|]. split; [lia|].
    replace ((t + n) * a) with (t * a + a * n) by ring.
    now rewrite Z_mod_plus_full.
  - exists t. split; [reflexivity|]. split; [lia|assumption].
Qed.

(** ** Units *)

Lemma coprime_square (a n : Z) : Z.gcd a n = 1 -> Z.gcd a (n * n) = 1.
Proof. intros H. now apply Z.coprime_mul_r. Qed.

Lemma coprime_of_inverse (a t n : Z) : 1 < n -> (t * a) mod n = 1 -> Z.gcd t n = 1.
Proof.
  intros Hn H. apply Z.bezout_1_gcd. exists a, (- ((t * a) / n)).
  pose proof (Z.div_mod (t * a) n ltac:(lia)). lia.
Qed.

(** A power of a unit, whatever the sign of the exponent, is returned
    and is a unit. *)
Lemma modPow_unit (g x n : Z) :
  1 < n -> 0 <= g -> Z.gcd g n = 1 ->
  exists y, bigInt.modPow g x n = Returned y /\ 0 <= y < n /\ Z.gcd y n = 1.
Proof.
  intros Hn Hg Hco. destruct x as [|e|e].
  - exists 1. split.
    + unfold bigInt.modPow. destruct (Z.eqb_spec n 0); [lia|reflexivity].
    + split; [lia|apply Z.gcd_1_l].
  - rewrite modPow_spec by lia. eexists. split; [reflexivity|].
    split; [apply Z.mod_pos_bound; lia|].
    apply Z.coprime_mod_l_iff. apply Z.coprime_pow_l; [lia|assumption].
  - unfold bigInt.modPow. destruct (Z.eqb_spec n 0); [lia|].
    rewrite Z.rem_mod_nonneg by lia.
    destruct (modInv_spec (g mod n) n) as (base & -> & Hb & Hinv); try lia.
    { apply Z.mod_pos_bound. lia. }
    { now apply Z.coprime_mod_l_iff. }
    cbn [bind]. eexists. split; [reflexivity|].
    rewrite modPow_loop_spec by lia. rewrite Z.mul_1_l.
    split; [apply Z.mod_pos_bound; lia|].
    apply Z.coprime_mod_l_iff. apply Z.coprime_pow_l; [lia|].
    now apply coprime_of_inverse with (g mod n).
Qed.

(** ** Congruences *)

Lemma cong_of_divide (a b m : Z) : 0 < m -> (m | a - b) -> a mod m = b mod m.
Proof.
  intros Hm [k Hk]. replace a with (b + k * m) by lia. apply Z_mod_plus_full.
Qed.

Lemma divide_of_cong (a b m : Z) : 0 < m -> a mod m = b mod m -> (m | a - b).
Proof.
  intros Hm H. apply Z.mod_divide; [lia|].
  rewrite Zminus_mod, H, Z.sub_diag. apply Z.mod_0_l. lia.
Qed.

Lemma cong_pow (a b m k : Z) : a mod m = b mod m -> a ^ k mod m = b ^ k mod m.
Proof. intros H. now rewrite <- (Z.mod_pow_l a), H, Z.mod_pow_l. Qed.

Lemma cong_mul (a a' b b' m : Z) :
  a mod m = a' mod m -> b mod m = b' mod m -> (a * b) mod m = (a' * b') mod m.
Proof. intros Ha Hb. now rewrite Zmult_mod, Ha, Hb, <- Zmult_mod. Qed.

(** [(1 + n x) mod n^2], for the function [L]. *)
Lemma one_plus_mod_square (n x : Z) :
  1 < n -> (1 + n * x) mod (n * n) = 1 + n * (x mod n).
Proof.
  intros Hn. pose proof (Z.mod_pos_bound x n ltac:(lia)) as Hb.
  rewrite <- (Z.mod_small (1 + n * (x mod n)) (n * n)) by nia.
  apply cong_of_divide; [nia|].
  exists (x / n). rewrite (Z.div_mod x n) at 1 by lia. ring.
Qed.

Lemma L_one_plus (n x : Z) : 1 < n -> (1 + n * x - 1) / n = x.
Proof.
  intros Hn. replace (1 + n * x - 1) with (x * n) by ring. apply Z.div_mul. lia.
Qed.

(** [(1 + n x)^k = 1 + n k x] modulo [n^2]. *)
Lemma pow_one_plus (n x k : Z) :
  0 < n -> 0 <= k -> (1 + n * x) ^ k mod (n * n) = (1 + n * (k * x)) mod (n * n).
Proof.
  intros Hn Hk. revert k Hk. apply natlike_ind.
  - now rewrite Z.pow_0_r, Z.mul_0_l, Z.mul_0_r, Z.add_0_r.
  - intros k Hk IH. rewrite Z.pow_succ_r by assumption.
    rewrite Zmult_mod, IH, <- Zmult_mod.
    apply cong_of_divide; [nia|]. exists (k * x * x). ring.
Qed.

(** The generator [g = n + 1] raised to [k]. *)
Lemma g_pow_mod (n k : Z) :
  1 < n -> 0 <= k -> (n + 1) ^ k mod (n * n) = 1 + n * (k mod n).
Proof.
  intros Hn Hk. replace (n + 1) with (1 + n * 1) by ring.
  now rewrite pow_one_plus, Z.mul_1_r, one_plus_mod_square by lia.
Qed.

(** The first two terms of [(b + d)^(k+1)]. *)
Lemma pow_binomial_2 (b d k : Z) :
  0 <= k ->
  exists s, (b + d) ^ (k + 1) = b ^ (k + 1) + (k + 1) * b ^ k * d + d * d * s.
Proof.
  revert k. apply natlike_ind.
  - exists 0. rewrite Z.add_0_l, !Z.pow_1_r, Z.pow_0_r. ring.
  - intros k Hk [s IH]. exists (b * s + (k + 1) * b ^ k + d * s).
    replace (k + 1) with (Z.succ k) in IH by lia.
    replace (Z.succ k + 1) with (Z.succ (Z.succ k)) by lia.
    rewrite (Z.pow_succ_r (b + d) (Z.succ k)), IH by lia.
    rewrite !(Z.pow_succ_r b) by lia. unfold Z.succ. ring.
Qed.

(** Congruent modulo [n], the [n]-th powers are congruent modulo [n^2]. *)
Lemma pow_lift (a b n : Z) :
  0 < n -> a mod n = b mod n -> a ^ n mod (n * n) = b ^ n mod (n * n).
Proof.
  intros Hn H. apply divide_of_cong in H; [|assumption]. destruct H as [t Ht].
  destruct (pow_binomial_2 b (a - b) (n - 1) ltac:(lia)) as [s Hs].
  replace (b + (a - b)) with a in Hs by ring.
  replace (n - 1 + 1) with n in Hs by ring.
  apply cong_of_divide; [nia|].
  exists (b ^ (n - 1) * t + t * t * s). rewrite Hs, Ht. ring.
Qed.

(** ** The modulus of a key *)



Lemma carmichael_multiple_l (p q : Z) :
  1 < p -> 1 < q -> exists k, 0 <= k /\ carmichael p q = (p - 1) * k.
Proof.
  intros Hp Hq. unfold carmichael.
  pose proof (Z.gcd_nonneg (p - 1) (q - 1)).
  assert (Z.gcd (p - 1) (q - 1) <> 0) by (rewrite Z.gcd_eq_0; lia).
  destruct (Z.gcd_divide_r (p - 1) (q - 1)) as [k Hk].
  exists k. split; [nia|].
  rewrite Hk at 1. rewrite Z.mul_assoc, Z.div_mul by assumption. reflexivity.
Qed.

Lemma carmichael_comm (p q : Z) : carmichael p q = carmichael q p.
Proof. unfold carmichael. now rewrite Z.mul_comm, Z.gcd_comm. Qed.

Lemma carmichael_divides (p q : Z) :
  1 < p -> 1 < q -> (carmichael p q | (p - 1) * (q - 1)).
Proof.
  intros Hp Hq. unfold carmichael.
  pose proof (Z.gcd_nonneg (p - 1) (q - 1)).
  assert (Z.gcd (p - 1) (q - 1) <> 0) by (rewrite Z.gcd_eq_0; lia).
  destruct (Z.gcd_divide_l (p - 1) (q - 1)) as [k Hk].
  remember (Z.gcd (p - 1) (q - 1)) as d. exists d.
  rewrite Hk. replace (k * d * (q - 1)) with (k * (q - 1) * d) by ring.
  rewrite Z.div_mul by assumption. ring.
Qed.

Lemma carmichael_pos (p q : Z) : 1 < p -> 1 < q -> 0 < carmichael p q.
Proof.
  intros Hp Hq. destruct (carmichael_divides p q Hp Hq) as [z Hz].
  assert (0 <= carmichael p q).
  { unfold carmichael. apply Z.div_pos; [nia|].
    pose proof (Z.gcd_nonneg (p - 1) (q - 1)).
    assert (Z.gcd (p - 1) (q - 1) <> 0) by (rewrite Z.gcd_eq_0; lia). lia. }
  assert (0 < (p - 1) * (q - 1)) by nia.
  destruct (Z.eq_dec (carmichael p q) 0) as [E|E]; [|lia].
  rewrite E, Z.mul_0_r in Hz. lia.
Qed.

Lemma fermat_multiple (p r e k : Z) :
  Z.prime p -> ~ (p | r) -> 0 <= k -> e = (p - 1) * k -> r ^ e mod p = 1.
Proof.
  intros Hp Hr Hk ->. pose proof (Z.prime_ge_2 p Hp).
  rewrite Z.pow_mul_r by lia.
  rewrite <- Z.mod_pow_l, Z.fermat_nz; trivial.
  - rewrite Z.pow_1_l by lia. apply Z.mod_1_l. lia.
  - rewrite Z.mod_divide by lia. assumption.
Qed.

Lemma coprime_not_divide (p r m : Z) :
  1 < p -> (p | m) -> Z.gcd r m = 1 -> ~ (p | r).
Proof.
  intros Hp Hm Hg Hr.
  assert (H : (p | 1)) by (rewrite <- Hg; now apply Z.gcd_greatest).
  apply Z.divide_1_r_nonneg in H; lia.
Qed.

Section Modulus.

Variables p q : Z.
Hypothesis Hkey : key_primes p q.

Let n := p * q.
Let lambda := carmichael p q.

Lemma modulus_gt_1 : 1 < n.
Proof.
  destruct Hkey as [Hp Hq _ _].
  apply Z.prime_ge_2 in Hp, Hq. subst n. nia.
Qed.

Lemma primes_coprime : Z.gcd p q = 1.
Proof.
  destruct Hkey. apply Z.coprime_prime_l; [assumption|].
  intros H. apply kp_distinct0. now apply Z.divide_prime_prime.
Qed.

(** [r^lambda = 1] modulo [n] for [r] prime to [n]. *)
Lemma carmichael_exponent (r : Z) : Z.gcd r n = 1 -> r ^ lambda mod n = 1.
Proof.
  intros Hr. pose proof modulus_gt_1 as Hn. destruct Hkey as [Pp Pq Hne _].
  pose proof (Z.prime_ge_2 p Pp). pose proof (Z.prime_ge_2 q Pq).
  destruct (carmichael_multiple_l p q) as (k & Hk & Ek); try lia.
  destruct (carmichael_multiple_l q p) as (k' & Hk' & Ek'); try lia.
  rewrite <- carmichael_comm in Ek'.
  assert (Hp : r ^ lambda mod p = 1).
  { apply fermat_multiple with k; trivial.
    apply coprime_not_divide with n; [lia| |assumption]. now exists q; subst n; ring. }
  assert (Hq : r ^ lambda mod q = 1).
  { apply fermat_multiple with k'; trivial.
    apply coprime_not_divide with n; [lia| |assumption]. now exists p. }
  rewrite <- (Z.mod_1_l n) by lia. apply cong_of_divide; [lia|].
  assert (Dp : (p | r ^ lambda - 1)).
  { apply divide_of_cong; [lia|]. rewrite Hp. symmetry. apply Z.mod_1_l. lia. }
  assert (Dq : (q | r ^ lambda - 1)).
  { apply divide_of_cong; [lia|]. rewrite Hq. symmetry. apply Z.mod_1_l. lia. }
  destruct Dq as [j Hj]. rewrite Hj in Dp.
  rewrite Z.mul_comm in Dp. apply Z.gauss in Dp; [|exact primes_coprime].
  destruct Dp as [i Hi]. exists i. rewrite Hj, Hi. subst n. ring.
Qed.

(** [r^(n lambda) = 1] modulo [n^2]. *)
Lemma carmichael_exponent_square (r : Z) :
  Z.gcd r n = 1 -> (r ^ lambda) ^ n mod (n * n) = 1.
Proof.
  intros Hr. pose proof modulus_gt_1 as Hn.
  rewrite (pow_lift (r ^ lambda) 1 n) by
    (try lia; rewrite carmichael_exponent by assumption; symmetry; apply Z.mod_1_l; lia).
  rewrite Z.pow_1_l by lia. apply Z.mod_1_l. nia.
Qed.

Lemma carmichael_coprime : Z.gcd lambda n = 1.
Proof.
  destruct Hkey as [Pp Pq Hne Hinv].
  pose proof (Z.prime_ge_2 p Pp). pose proof (Z.prime_ge_2 q Pq).
  pose proof (Z.gcd_nonneg lambda n) as Hnn.
  assert (Hd : (Z.gcd lambda n | 1)).
  { rewrite <- Hinv. apply Z.gcd_greatest; [apply Z.gcd_divide_r|].
    apply Z.divide_trans with lambda; [apply Z.gcd_divide_l|].
    apply carmichael_divides; lia. }
  apply Z.divide_1_r_nonneg in Hd; assumption.
Qed.

End Modulus.

(** Primes of equal bit length, at least three bits long, satisfy the
    invariant. *)
Lemma not_divide_pred (a b : Z) :
  Z.prime a -> Z.prime b -> a <> b -> 2 < a -> 2 < b -> b < 2 * a ->
  ~ (a | (a - 1) * (b - 1)).
Proof.
  intros Ha Hb Hne Ha2 Hb2 Hsz H.
  apply Z.divide_prime_mul in H; [|assumption].
  destruct H as [[k Hk]|[k Hk]].
  - assert (0 < k) by nia. nia.
  - assert (0 < k) by nia. assert (k = 1) by nia. subst k.
    destruct Ha as [_ Ha]. destruct Hb as [_ Hb].
    destruct (Z.eq_dec (a mod 2) 0) as [E|E].
    + apply (Ha 2); [lia|]. apply Z.mod_divide; [lia|assumption].
    + apply (Hb 2); [lia|]. apply Z.mod_divide; [lia|].
      pose proof (Z.mod_pos_bound a 2 ltac:(lia)).
      replace b with (a + 1) by lia.
      rewrite Zplus_mod. replace (a mod 2) with 1 by lia. reflexivity.
Qed.

Lemma bitLength_pos_bounds (x b : Z) :
  0 < x -> bigInt.bitLength x = b -> 2 ^ (b - 1) <= x < 2 ^ b.
Proof.
  intros Hx <-. unfold bigInt.bitLength.
  destruct (Z.ltb_spec x 0); [lia|]. destruct (Z.eqb_spec x 0); [lia|].
  replace (Z.log2 x + 1 - 1) with (Z.log2 x) by ring.
  apply Z.log2_spec. assumption.
Qed.

Lemma key_primes_of_equal_length (p q b : Z) :
  Z.prime p -> Z.prime q -> p <> q -> 3 <= b ->
  bigInt.bitLength p = b -> bigInt.bitLength q = b ->
  key_primes p q.
Proof.
  intros Pp Pq Hne Hb Lp Lq.
  pose proof (Z.prime_ge_2 p Pp). pose proof (Z.prime_ge_2 q Pq).
  apply bitLength_pos_bounds in Lp, Lq; try lia.
  assert (4 <= 2 ^ (b - 1)).
  { change 4 with (2 ^ 2). apply Z.pow_le_mono_r; lia. }
  assert (2 ^ b = 2 * 2 ^ (b - 1)).
  { rewrite <- Z.pow_succ_r by lia. f_equal. lia. }
  constructor; trivial.
  apply Z.coprime_mul_l; unfold Z.coprime.
  - apply Z.coprime_prime_l; [assumption|]. apply not_divide_pred; trivial; lia.
  - apply Z.coprime_prime_l; [assumption|]. rewrite Z.mul_comm.
    apply not_divide_pred; trivial; lia.
Qed.

(** ** Sampling *)

Lemma draw_Returned (accept : Z -> bool) (tape : list Z) (x : Z) (tape' : list Z) :
  draw accept tape = Returned (x, tape') -> accept x = true.
Proof.
  induction tape as [|y tape IH]; simpl; [discriminate|].
  destruct (accept y) eqn:E; [|assumption].
  intros H. injection H as <- _. assumption.
Qed.

Lemma doWhile_fuel_Returned {A : Type} (body : Rand A) (again : A -> bool) (fuel : nat) :
  forall tape x tape',
    doWhile_fuel fuel body again tape = Returned (x, tape') ->
    again x = false /\ exists tape0, body tape0 = Returned (x, tape').
Proof.
  induction fuel as [|fuel IH]; intros tape x tape'; simpl; [discriminate|].
  destruct (body tape) as [[y tape1]| |] eqn:E; try discriminate.
  destruct (again y) eqn:Ey.
  - apply IH.
  - intros H. injection H as <- <-. split; [assumption|]. now exists tape.
Qed.

Lemma doWhile_Returned {A : Type} (body : Rand A) (again : A -> bool) tape x tape' :
  doWhile body again tape = Returned (x, tape') ->
  again x = false /\ exists tape0, body tape0 = Returned (x, tape').
Proof. apply doWhile_fuel_Returned. Qed.

Lemma bindR_Returned {A B : Type} (x : Rand A) (k : A -> Rand B) tape b tape' :
  bindR x k tape = Returned (b, tape') ->
  exists a tape1, x tape = Returned (a, tape1) /\ k a tape1 = Returned (b, tape').
Proof.
  unfold bindR. intros H. apply bind_Returned in H. destruct H as ([a tape1] & H1 & H2).
  now exists a, tape1.
Qed.

Lemma liftR_Returned {A : Type} (x : outcome A) tape a tape' :
  liftR x tape = Returned (a, tape') -> x = Returned a /\ tape' = tape.
Proof.
  unfold liftR. destruct x; simpl; intros H; try discriminate.
  injection H as <- <-. now split.
Qed.

(** What [sampleUnit] returns: a unit of [Z_n], as a residue. *)
Lemma sampleUnit_Returned (pub : PublicKey.t) tape r tape' :
  sampleUnit pub tape = Returned (r, tape') ->
  0 < r < PublicKey.n pub /\ Z.gcd r (PublicKey.n pub) = 1.
Proof.
  intros H. apply doWhile_Returned in H. destruct H as (Hlt & tape0 & H).
  apply draw_Returned in H. apply andb_prop in H. destruct H as [H Hg].
  apply andb_prop in H. destruct H as [Hpos _]. lia.
Qed.

(** ** Key generation *)

Lemma keyPairOf_spec (p q : Z) :
  key_primes p q ->
  exists mu,
    keyPairOf p q (p * q)
    = Returned (PublicKey.new (p * q) (p * q + 1), PrivateKey.new (carmichael p q) mu)
    /\ 0 <= mu < p * q /\ (mu * carmichael p q) mod (p * q) = 1.
Proof.
  intros Hkey. pose proof (modulus_gt_1 p q Hkey) as Hn.
  pose proof (carmichael_coprime p q Hkey) as Hco.
  destruct Hkey as [Pp Pq Hne Hinv].
  pose proof (Z.prime_ge_2 p Pp). pose proof (Z.prime_ge_2 q Pq).
  pose proof (carmichael_pos p q ltac:(lia) ltac:(lia)) as Hl.
  unfold keyPairOf.
  pose proof (Z.gcd_nonneg (p - 1) (q - 1)).
  assert (Z.gcd (p - 1) (q - 1) <> 0) by (rewrite Z.gcd_eq_0; lia).
  assert (0 <= (p - 1) * (q - 1)) by (apply Z.mul_nonneg_nonneg; lia).
  rewrite divide_nonneg by lia. fold (carmichael p q). cbn [bind].
  remember (p * q) as n. remember (carmichael p q) as lambda.
  assert (1 < n * n) by nia.
  rewrite modPow_spec by lia.
  rewrite g_pow_mod by lia. cbn [bind].
  pose proof (Z.mod_pos_bound lambda n ltac:(lia)) as Hb.
  assert (0 <= n * (lambda mod n)) by (apply Z.mul_nonneg_nonneg; lia).
  rewrite divide_nonneg by lia. rewrite L_one_plus by lia. cbn [bind].
  destruct (modInv_spec (lambda mod n) n) as (mu & -> & Hmu & Hinvmu); try lia.
  { rewrite Z.gcd_mod by lia. now rewrite Z.gcd_comm. }
  exists mu. cbn [bind]. repeat split; try lia.
  now rewrite Zmult_mod_idemp_r in Hinvmu.
Qed.

Lemma valid_key_pair_inv (pub : PublicKey.t) (priv : PrivateKey.t) :
  valid_key_pair pub priv ->
  exists p q,
    key_primes p q /\ pub = PublicKey.new (p * q) (p * q + 1) /\
    PrivateKey.lambda priv = carmichael p q /\
    0 <= PrivateKey.mu priv < p * q /\
    (PrivateKey.mu priv * carmichael p q) mod (p * q) = 1.
Proof.
  intros (p & q & Hkey & H). exists p, q.
  destruct (keyPairOf_spec p q Hkey) as (mu & E & Hmu & Hinv).
  rewrite E in H. injection H as <- <-. cbn [PrivateKey.lambda PrivateKey.mu].
  split; [exact Hkey|]. repeat split; trivial; lia.
Qed.

(** A key pair that [generateKeyPair] returns is valid, when the
    primality test admits primes only. *)
Lemma generateKeyPair_valid (isPrime : Z -> bool) (bits : Z) tape pub priv tape' :
  (forall x, isPrime x = true -> Z.prime x) ->
  generateKeyPair isPrime bits tape = Returned ((pub, priv), tape') ->
  valid_key_pair pub priv /\ 160 <= bits /\ Z.rem bits 8 = 0 /\
  bigInt.bitLength (PublicKey.n pub) = bits.
Proof.
  intros Hsound H. unfold generateKeyPair in H.
  destruct (0 <? Z.rem bits 8) eqn:E8; [discriminate|].
  destruct (bits <? 160) eqn:E160; [discriminate|]. simpl orb in H. cbv iota in H.
  apply bindR_Returned in H. destruct H as ([[p q] n] & tape1 & Hs & Hk).
  apply liftR_Returned in Hk. destruct Hk as [Hk _]. simpl in Hk.
  apply doWhile_Returned in Hs. destruct Hs as (Hlen & tape2 & Hs). simpl in Hlen.
  apply bindR_Returned in Hs. destruct Hs as ([p' q'] & tape3 & Hpq & Hr).
  unfold retR in Hr. simpl in Hr. injection Hr as -> -> <- _.
  apply doWhile_Returned in Hpq. destruct Hpq as (Hne & tape4 & Hpq). simpl in Hne.
  apply bindR_Returned in Hpq. destruct Hpq as (p0 & tape5 & Hp & Hpq).
  apply bindR_Returned in Hpq. destruct Hpq as (q0 & tape6 & Hq & Hr).
  unfold retR in Hr. injection Hr as -> -> _.
  apply draw_Returned in Hp, Hq.
  apply andb_prop in Hp, Hq. destruct Hp as [Pp Lp], Hq as [Pq Lq].
  apply Hsound in Pp, Pq.
  assert (Hbits : 160 <= bits) by lia.
  assert (Hrem : Z.rem bits 8 = 0).
  { pose proof (Z.rem_bound_pos bits 8 ltac:(lia) ltac:(lia)). lia. }
  assert (Hkey : key_primes p q).
  { apply key_primes_of_equal_length with (bits / 2); trivial; try lia.
    assert (80 <= bits / 2) by (apply Z.div_le_lower_bound; lia). lia. }
  destruct (keyPairOf_spec p q Hkey) as (mu & E & _).
  rewrite E in Hk. injection Hk as <- <-.
  split; [exists p, q; now split|]. repeat split; trivial.
  cbn [PublicKey.n PublicKey.new]. apply negb_false_iff in Hlen. lia.
Qed.

(** ** Encryption and decryption *)


Lemma ciphertext_range (n m r : Z) : 1 < n -> 0 <= ciphertext n m r < n * n.
Proof. intros Hn. apply Z.mod_pos_bound. nia. Qed.

Lemma ciphertext_cong (n m r : Z) :
  ciphertext n m r mod (n * n) = ((1 + n * m) * r ^ n) mod (n * n).
Proof.
  unfold ciphertext. rewrite Z.mod_mod_divide by apply Z.divide_refl.
  rewrite <- Zmult_mod. f_equal. ring.
Qed.

Lemma encryptWithR_spec (n g m r : Z) :
  1 < n -> 0 <= m < n -> 0 <= r ->
  encryptWithR m (PublicKey.new n g) r = Returned (ciphertext n m r, r).
Proof.
  intros Hn Hm Hr. unfold encryptWithR, ciphertext. cbn [PublicKey.n PublicKey.nSquared PublicKey.new].
  destruct (Z.leb_spec n m); [lia|].
  assert (1 < n * n) by nia.
  assert (0 <= n * m) by (apply Z.mul_nonneg_nonneg; lia).
  rewrite mod_nonneg by lia. cbn [bind].
  rewrite modPow_spec by lia. cbn [bind].
  pose proof (Z.mod_pos_bound (n * m + 1) (n * n) ltac:(lia)).
  pose proof (Z.mod_pos_bound (r ^ n) (n * n) ltac:(lia)).
  rewrite mod_nonneg by (try apply Z.mul_nonneg_nonneg; lia). reflexivity.
Qed.

(** Decryption of anything congruent to [(1 + n m) y^n] with [y] a unit. *)
Lemma decrypt_core (pub : PublicKey.t) (priv : PrivateKey.t) (c m y : Z) :
  valid_key_pair pub priv ->
  let n := PublicKey.n pub in
  0 <= c < n * n ->
  c mod (n * n) = ((1 + n * m) * y ^ n) mod (n * n) ->
  Z.gcd y n = 1 ->
  decrypt c pub priv = Returned (m mod n).
Proof.
  intros Hv. apply valid_key_pair_inv in Hv.
  destruct Hv as (p & q & Hkey & -> & Hl & Hmu & Hinv).
  cbn [PublicKey.n PublicKey.new]. intros Hc Hcong Hy.
  pose proof (modulus_gt_1 p q Hkey) as Hn.
  pose proof (carmichael_exponent_square p q Hkey y Hy) as Hcar.
  assert (Hlpos : 0 < carmichael p q).
  { destruct Hkey as [Pp Pq _ _]. apply Z.prime_ge_2 in Pp, Pq.
    apply carmichael_pos; lia. }
  remember (p * q) as n. remember (carmichael p q) as lambda.
  destruct priv as [l mu]. cbn [PrivateKey.lambda PrivateKey.mu] in *. subst l.
  unfold decrypt. cbn [PublicKey.n PublicKey.nSquared PublicKey.new PrivateKey.lambda PrivateKey.mu].
  destruct (Z.leb_spec (n * n) c); [lia|].
  assert (1 < n * n) by nia.
  rewrite modPow_spec by lia. cbn [bind].
  assert (Hu : c ^ lambda mod (n * n) = 1 + n * ((lambda * m) mod n)).
  { rewrite (cong_pow c _ (n * n) lambda Hcong).
    rewrite Z.pow_mul_l, <- Z.pow_mul_r, (Z.mul_comm n lambda), Z.pow_mul_r by lia.
    rewrite Zmult_mod, Hcar, Z.mul_1_r, Z.mod_mod by lia.
    now rewrite pow_one_plus, one_plus_mod_square by lia. }
  rewrite Hu.
  pose proof (Z.mod_pos_bound (lambda * m) n ltac:(lia)) as Hb.
  assert (0 <= n * ((lambda * m) mod n)) by (apply Z.mul_nonneg_nonneg; lia).
  rewrite divide_nonneg by lia. rewrite L_one_plus by lia. cbn [bind].
  rewrite mod_nonneg by (try apply Z.mul_nonneg_nonneg; lia).
  f_equal. rewrite Zmult_mod_idemp_l.
  replace (lambda * m * mu) with (m * (mu * lambda)) by ring.
  now rewrite <- Zmult_mod_idemp_r, Hinv, Z.mul_1_r.
Qed.

Lemma encrypt_Returned (m : Z) (pub : PublicKey.t) tape c tape' :
  encrypt m pub tape = Returned (c, tape') ->
  exists r, sampleUnit pub tape = Returned (r, tape') /\
       encryptWithR m pub r = Returned (c, r).
Proof.
  unfold encrypt, encryptWithoutR. intros H.
  apply bindR_Returned in H. destruct H as ([c' r'] & tape1 & H & Hret).
  unfold retR in Hret. injection Hret as <- <-.
  apply bindR_Returned in H. destruct H as (r & tape2 & Hs & He).
  apply liftR_Returned in He. destruct He as [He ->].
  exists r. split; [assumption|].
  assert (r' = r); [|now subst].
  unfold encryptWithR in He. destruct (_ <=? _); [discriminate|].
  repeat (apply bind_Returned in He; destruct He as (? & _ & He)).
  now injection He.
Qed.

Lemma encrypt_of_sample (m : Z) (pub : PublicKey.t) tape r tape' c :
  sampleUnit pub tape = Returned (r, tape') ->
  encryptWithR m pub r = Returned (c, r) ->
  encrypt m pub tape = Returned (c, tape').
Proof.
  intros Hs He. unfold encrypt, encryptWithoutR, bindR. rewrite Hs. cbn [bind fst snd].
  unfold liftR. rewrite He. reflexivity.
Qed.

Lemma valid_key_pair_pub (pub : PublicKey.t) (priv : PrivateKey.t) :
  valid_key_pair pub priv ->
  1 < PublicKey.n pub /\
  pub = PublicKey.new (PublicKey.n pub) (PublicKey.n pub + 1).
Proof.
  intros Hv. apply valid_key_pair_inv in Hv.
  destruct Hv as (p & q & Hkey & -> & _). cbn [PublicKey.n PublicKey.new].
  split; [exact (modulus_gt_1 p q Hkey)|reflexivity].
Qed.

(** What [encrypt] returns under a valid key. *)
Lemma encrypt_valid (pub : PublicKey.t) (priv : PrivateKey.t) (m : Z) tape c tape' :
  valid_key_pair pub priv ->
  0 <= m < PublicKey.n pub ->
  encrypt m pub tape = Returned (c, tape') ->
  exists r, Z.gcd r (PublicKey.n pub) = 1 /\ 0 < r < PublicKey.n pub /\
       c = ciphertext (PublicKey.n pub) m r.
Proof.
  intros Hv Hm He. destruct (valid_key_pair_pub pub priv Hv) as [Hn Hpub].
  apply encrypt_Returned in He. destruct He as (r & Hs & He).
  apply sampleUnit_Returned in Hs. destruct Hs as [Hr Hg].
  rewrite Hpub, encryptWithR_spec in He by lia.
  injection He as <-. now exists r.
Qed.

(** C1. A key pair of [generateKeyPair(bits)], [bits >= 160] a multiple
    of 8, and a plaintext [0 <= m < n]: once the randomness [r] is drawn,
    [encrypt] returns a ciphertext and [decrypt] gives [m] back. *)
Theorem decrypt_encrypt_roundtrip (isPrime : Z -> bool) (bits : Z)
  (tape0 tape0' : list Z) (pub : PublicKey.t) (priv : PrivateKey.t)
  (m : Z) (tape tape' : list Z) (r : Z) :
  (forall x, isPrime x = true -> Z.prime x) ->
  160 <= bits -> Z.rem bits 8 = 0 ->
  generateKeyPair isPrime bits tape0 = Returned ((pub, priv), tape0') ->
  0 <= m < PublicKey.n pub ->
  sampleUnit pub tape = Returned (r, tape') ->
  exists c, encrypt m pub tape = Returned (c, tape') /\
       decrypt c pub priv = Returned m.
Proof.
  intros Hsound _ _ Hgen Hm Hs.
  destruct (generateKeyPair_valid isPrime bits tape0 pub priv tape0' Hsound Hgen)
    as (Hv & _).
  destruct (valid_key_pair_pub pub priv Hv) as [Hn Hpub].
  pose proof (sampleUnit_Returned pub tape r tape' Hs) as [Hr Hg].
  exists (ciphertext (PublicKey.n pub) m r). split.
  - apply encrypt_of_sample with r; [assumption|].
    rewrite Hpub at 1. apply encryptWithR_spec; lia.
  - rewrite <- (Z.mod_small m (PublicKey.n pub)) at 2 by lia.
    apply decrypt_core with r; trivial.
    + apply ciphertext_range; lia.
    + apply ciphertext_cong.
Qed.

(** The product of two ciphertexts decrypts to the sum of the
    plaintexts modulo [n]. *)
Lemma decrypt_addEncrypted (pub : PublicKey.t) (priv : PrivateKey.t)
  (m1 m2 : Z) (tape1 tape1' tape2 tape2' : list Z) (c1 c2 : Z) :
  valid_key_pair pub priv ->
  0 <= m1 < PublicKey.n pub -> 0 <= m2 < PublicKey.n pub ->
  encrypt m1 pub tape1 = Returned (c1, tape1') ->
  encrypt m2 pub tape2 = Returned (c2, tape2') ->
  exists c, addEncrypted c1 c2 pub = Returned c /\
       decrypt c pub priv = Returned ((m1 + m2) mod PublicKey.n pub).
Proof.
  intros Hv Hm1 Hm2 He1 He2.
  destruct (valid_key_pair_pub pub priv Hv) as [Hn Hpub].
  destruct (encrypt_valid pub priv m1 tape1 c1 tape1' Hv Hm1 He1) as (r1 & Hg1 & Hr1 & ->).
  destruct (encrypt_valid pub priv m2 tape2 c2 tape2' Hv Hm2 He2) as (r2 & Hg2 & Hr2 & ->).
  remember (PublicKey.n pub) as n.
  pose proof (ciphertext_range n m1 r1 Hn). pose proof (ciphertext_range n m2 r2 Hn).
  assert (1 < n * n) by nia.
  exists ((ciphertext n m1 r1 * ciphertext n m2 r2) mod (n * n)). split.
  - unfold addEncrypted. rewrite Hpub. cbn [PublicKey.nSquared PublicKey.new].
    apply mod_nonneg; [apply Z.mul_nonneg_nonneg; lia|lia].
  - rewrite Heqn. apply decrypt_core with (r1 * r2); trivial; rewrite <- Heqn.
    + apply Z.mod_pos_bound. lia.
    + rewrite Z.mod_mod by lia.
      rewrite (cong_mul _ _ _ _ (n * n) (ciphertext_cong n m1 r1) (ciphertext_cong n m2 r2)).
      apply cong_of_divide; [lia|].
      exists (m1 * m2 * r1 ^ n * r2 ^ n). rewrite Z.pow_mul_l. ring.
    + apply Z.coprime_mul_l; assumption.
Qed.

(** C2. Under a valid key pair, once the randomness of the two
    encryptions is drawn, [encrypt] returns two ciphertexts and their
    [addEncrypted] decrypts to [(m1 + m2) mod n]. *)
Theorem decrypt_addEncrypted_encrypt (pub : PublicKey.t) (priv : PrivateKey.t)
  (m1 m2 : Z) (tape1 tape1' tape2 tape2' : list Z) (r1 r2 : Z) :
  valid_key_pair pub priv ->
  0 <= m1 < PublicKey.n pub -> 0 <= m2 < PublicKey.n pub ->
  sampleUnit pub tape1 = Returned (r1, tape1') ->
  sampleUnit pub tape2 = Returned (r2, tape2') ->
  exists c1 c2 c,
    encrypt m1 pub tape1 = Returned (c1, tape1') /\
    encrypt m2 pub tape2 = Returned (c2, tape2') /\
    addEncrypted c1 c2 pub = Returned c /\
    decrypt c pub priv = Returned ((m1 + m2) mod PublicKey.n pub).
Proof.
  intros Hv Hm1 Hm2 Hs1 Hs2.
  destruct (valid_key_pair_pub pub priv Hv) as [Hn Hpub].
  pose proof (sampleUnit_Returned pub tape1 r1 tape1' Hs1) as [Hr1 _].
  pose proof (sampleUnit_Returned pub tape2 r2 tape2' Hs2) as [Hr2 _].
  assert (E1 : encrypt m1 pub tape1 = Returned (ciphertext (PublicKey.n pub) m1 r1, tape1')).
  { apply encrypt_of_sample with r1; [assumption|].
    rewrite Hpub at 1. apply encryptWithR_spec; lia. }
  assert (E2 : encrypt m2 pub tape2 = Returned (ciphertext (PublicKey.n pub) m2 r2, tape2')).
  { apply encrypt_of_sample with r2; [assumption|].
    rewrite Hpub at 1. apply encryptWithR_spec; lia. }
  destruct (decrypt_addEncrypted pub priv m1 m2 tape1 tape1' tape2 tape2' _ _
              Hv Hm1 Hm2 E1 E2) as (c & Hc & Hd).
  eauto 10.
Qed.

(** C6, as the code has it. Once [r] is drawn, [encrypt] fails with
    BadPlaintext exactly for [m >= n]: it returns a value for every
    [m < n], negative ones included, and for [0 <= m < n] that value is a
    ciphertext, [0 <= c < n^2]. *)
Theorem encrypt_plaintext_check (n g m : Z) (tape tape' : list Z) (r : Z) :
  sampleUnit (PublicKey.new n g) tape = Returned (r, tape') ->
  (n <= m -> encrypt m (PublicKey.new n g) tape = Threw BadPlaintext) /\
  (m < n -> exists c, encrypt m (PublicKey.new n g) tape = Returned (c, tape') /\
                 (0 <= m -> 0 <= c < n * n)).
Proof.
  intros Hs. pose proof (sampleUnit_Returned _ _ _ _ Hs) as [Hr Hg].
  cbn [PublicKey.n PublicKey.new] in Hr, Hg. split.
  - intros Hm. unfold encrypt, encryptWithoutR, bindR. rewrite Hs. cbn [bind fst snd].
    unfold liftR, encryptWithR. cbn [PublicKey.n PublicKey.new].
    destruct (Z.leb_spec n m); [reflexivity|lia].
  - intros Hm. assert (1 < n * n) by nia.
    assert (He : exists c, encryptWithR m (PublicKey.new n g) r = Returned (c, r) /\
                      (0 <= m -> 0 <= c < n * n)).
    { destruct (Z_le_gt_dec 0 m) as [Hpos|Hneg].
      - exists (ciphertext n m r). split; [apply encryptWithR_spec; lia|].
        intros _. apply ciphertext_range. lia.
      - unfold encryptWithR. cbn [PublicKey.n PublicKey.nSquared PublicKey.new].
        destruct (Z.leb_spec n m); [lia|]. unfold bigInt.mod_.
        destruct (Z.eqb_spec (n * n) 0); [lia|]. cbn [bind].
        rewrite modPow_spec by lia. cbn [bind]. eexists. split; [reflexivity|lia]. }
    destruct He as (c & He & Hc). exists c. split; [|assumption].
    now apply encrypt_of_sample with r.
Qed.

(** C10. For a modulus [n > 1] and a generator [g >= 0], as every key of
    the data model has, the three homomorphic operations map ciphertexts
    and a scalar [k >= 0] to ciphertexts. *)
Theorem homomorphic_ops_range (n g c c1 c2 k : Z) :
  1 < n -> 0 <= g ->
  0 <= c < n * n -> 0 <= c1 < n * n -> 0 <= c2 < n * n -> 0 <= k ->
  let pub := PublicKey.new n g in
  (exists x, addEncrypted c1 c2 pub = Returned x /\ 0 <= x < n * n) /\
  (exists x, addScalar c k pub = Returned x /\ 0 <= x < n * n) /\
  (exists x, mulScalar c k pub = Returned x /\ 0 <= x < n * n).
Proof.
  intros Hn Hg Hc Hc1 Hc2 Hk pub. subst pub.
  unfold addEncrypted, addScalar, mulScalar. cbn [PublicKey.nSquared PublicKey.g PublicKey.new].
  assert (Hnn : 1 < n * n) by nia.
  repeat split.
  - exists ((c1 * c2) mod (n * n)). split.
    + apply mod_nonneg; [apply Z.mul_nonneg_nonneg; lia|lia].
    + apply Z.mod_pos_bound. lia.
  - rewrite modPow_spec by lia. cbn [bind].
    pose proof (Z.mod_pos_bound (g ^ k) (n * n) ltac:(lia)).
    exists ((c * (g ^ k mod (n * n))) mod (n * n)). split.
    + apply mod_nonneg; [apply Z.mul_nonneg_nonneg; lia|lia].
    + apply Z.mod_pos_bound. lia.
  - rewrite modPow_spec by lia. exists (c ^ k mod (n * n)). split; [reflexivity|].
    apply Z.mod_pos_bound. lia.
Qed.

(** ** Signatures *)

Lemma carmichael_gt_1 (p q : Z) : key_primes p q -> 1 < carmichael p q.
Proof.
  intros [Pp Pq Hne _]. pose proof (Z.prime_ge_2 p Pp). pose proof (Z.prime_ge_2 q Pq).
  pose proof (carmichael_pos p q ltac:(lia) ltac:(lia)).
  destruct (carmichael_multiple_l p q) as (k & Hk & E); try lia.
  destruct (carmichael_multiple_l q p) as (k' & Hk' & E'); try lia.
  rewrite <- carmichael_comm in E'.
  destruct (Z.eq_dec (carmichael p q) 1) as [E1|]; [|lia].
  rewrite E1 in E, E'.
  assert (p - 1 = 1) by (apply Z.divide_1_r_nonneg; [lia|exists k; lia]).
  assert (q - 1 = 1) by (apply Z.divide_1_r_nonneg; [lia|exists k'; lia]).
  lia.
Qed.

(** A residue [u = 1 (mod n)] below [n^2] is [1 + n x] with [x = L(u)]. *)
Lemma L_residue (n u : Z) :
  1 < n -> 0 <= u < n * n -> u mod n = 1 ->
  let x := (u - 1) / n in u = 1 + n * x /\ 0 <= x < n.
Proof.
  intros Hn Hu H1 x. subst x.
  assert (Hd : (u - 1) mod n = 0).
  { rewrite Zminus_mod, H1, Z.mod_1_l, Z.sub_diag by lia. apply Z.mod_0_l. lia. }
  pose proof (Z.div_mod (u - 1) n ltac:(lia)) as E. rewrite Hd in E.
  assert (1 <= u).
  { destruct (Z.eq_dec u 0) as [->|]; [|lia]. rewrite Z.mod_0_l in H1; lia. }
  split; [lia|]. split; [apply Z.div_pos; lia|].
  apply Z.div_lt_upper_bound; [lia|nia].
Qed.

(** The arithmetic of the signature: with [u = h^lambda = 1 + n x],
    [s1 = x mu] and [s2 = h^(1/n mod lambda)], the verifier recovers [h]. *)
Lemma signature_arith (p q h mu invN : Z) :
  key_primes p q ->
  let n := p * q in
  let lambda := carmichael p q in
  Z.gcd h n = 1 ->
  (mu * lambda) mod n = 1 ->
  0 <= invN -> (invN * n) mod lambda = 1 ->
  let x := (h ^ lambda mod (n * n) - 1) / n in
  let s1 := (x * mu) mod n in
  let s2 := h ^ invN mod n in
  ((1 + n * s1) * (s2 ^ n mod (n * n))) mod (n * n) = h mod (n * n).
Proof.
  intros Hkey n lambda Hh Hmu HinvN0 HinvN x s1 s2.
  pose proof (modulus_gt_1 p q Hkey) as Hn. fold n in Hn.
  pose proof (carmichael_gt_1 p q Hkey) as Hl. fold lambda in Hl.
  pose proof (carmichael_exponent p q Hkey h Hh) as Hcar. fold n lambda in Hcar.
  assert (Hnn : 1 < n * n) by nia.
  set (u := h ^ lambda mod (n * n)) in *.
  destruct (L_residue n u Hn) as [Hu Hx].
  { apply Z.mod_pos_bound. lia. }
  { subst u. rewrite Z.mod_mod_divide by (exists n; ring). assumption. }
  fold x in Hu, Hx. clearbody x.
  (* the exponent [invN n = lambda t + 1] *)
  set (e := invN * n) in *.
  set (t := e / lambda).
  assert (He : e = lambda * t + 1).
  { pose proof (Z.div_mod e lambda ltac:(lia)) as E. rewrite HinvN in E. exact E. }
  assert (Ht : 0 <= t) by (apply Z.div_pos; [subst e; nia|lia]).
  (* [s2^n] is [h (1 + n t x)] modulo [n^2] *)
  assert (Hs2 : s2 ^ n mod (n * n) = (h * (1 + n * (t * x))) mod (n * n)).
  { rewrite (pow_lift s2 (h ^ invN) n) by (try lia; subst s2; apply Z.mod_mod; lia).
    rewrite <- Z.pow_mul_r by lia. fold e. rewrite He.
    rewrite Z.pow_add_r, Z.pow_1_r, Z.pow_mul_r by nia.
    rewrite Zmult_mod, <- (Z.mod_pow_l (h ^ lambda)).
    fold u. rewrite Hu, pow_one_plus by lia.
    rewrite <- Zmult_mod. f_equal. ring. }
  rewrite Hs2, Zmult_mod_idemp_r.
  apply cong_of_divide; [lia|].
  (* [n] divides [s1 + t x] *)
  assert (Hd : (n | s1 + t * x)).
  { assert (Hmu' : (mu * lambda) mod n = 1 mod n) by (rewrite Z.mod_1_l; lia).
    apply divide_of_cong in Hmu'; [|lia]. destruct Hmu' as [j Hj].
    pose proof (Z.div_mod (x * mu) n ltac:(lia)) as Es1. fold s1 in Es1.
    exists (x * mu * invN - x * mu / n - j * t * x).
    assert (Et : t = mu * (e - 1) - n * j * t).
    { rewrite He. replace (lambda * t + 1 - 1) with (lambda * t) by ring.
      replace (mu * (lambda * t)) with (mu * lambda * t) by ring.
      replace (mu * lambda) with (1 + j * n) by lia. ring. }
    replace (s1 + t * x) with (x * mu - n * (x * mu / n) + t * x) by lia.
    rewrite Et at 1. subst e. ring. }
  destruct Hd as [d Hd].
  exists (h * (d + s1 * (t * x))).
  replace ((1 + n * s1) * (h * (1 + n * (t * x))) - h)
    with (h * (n * (s1 + t * x) + n * n * (s1 * (t * x)))) by ring.
  rewrite Hd. ring.
Qed.

Lemma signature_roundtrip_valid (H : Z -> Z) (pub : PublicKey.t) (priv : PrivateKey.t) (m : Z) :
  valid_key_pair pub priv ->
  0 <= H m < PublicKey.n pub * PublicKey.n pub ->
  Z.gcd (H m) (PublicKey.n pub) = 1 ->
  exists sig, createSignature H m pub priv = Returned sig /\
         verifySignature H m sig pub = Returned true.
Proof.
  intros Hv. apply valid_key_pair_inv in Hv.
  destruct Hv as (p & q & Hkey & -> & Hl & Hmu & Hinv).
  cbn [PublicKey.n PublicKey.new]. intros Hh Hg.
  pose proof (modulus_gt_1 p q Hkey) as Hn.
  pose proof (carmichael_gt_1 p q Hkey) as Hl1.
  pose proof (carmichael_coprime p q Hkey) as Hco.
  pose proof (carmichael_exponent p q Hkey (H m) Hg) as Hcar.
  destruct priv as [l mu]. cbn [PrivateKey.lambda PrivateKey.mu] in *. subst l.
  destruct (modInv_spec (p * q) (carmichael p q)) as (invN & EinvN & HinvN & HinvN1);
    try lia.
  { now rewrite Z.gcd_comm. }
  pose proof (signature_arith p q (H m) mu invN Hkey Hg Hinv ltac:(lia) HinvN1) as Harith.
  cbv zeta in Harith.
  remember (p * q) as n. remember (carmichael p q) as lambda. remember (H m) as h.
  assert (Hnn : 1 < n * n) by nia.
  destruct (L_residue n (h ^ lambda mod (n * n)) Hn) as [Hu Hx].
  { apply Z.mod_pos_bound. lia. }
  { rewrite Z.mod_mod_divide by (exists n; ring). assumption. }
  remember ((h ^ lambda mod (n * n) - 1) / n) as x.
  pose proof (Z.mod_pos_bound (x * mu) n ltac:(lia)) as Hs1.
  remember ((x * mu) mod n) as s1.
  pose proof (Z.mod_pos_bound (h ^ invN) n ltac:(lia)) as Hs2.
  remember (h ^ invN mod n) as s2.
  exists (Signature.new s1 s2). split.
  - unfold createSignature.
    cbn [PublicKey.n PublicKey.nSquared PublicKey.g PublicKey.new PrivateKey.lambda PrivateKey.mu].
    rewrite <- Heqh.
    rewrite modPow_spec by lia. cbn [bind].
    assert (0 <= n * x) by (apply Z.mul_nonneg_nonneg; lia).
    rewrite divide_nonneg by lia. rewrite <- Heqx. cbn [bind].
    rewrite mod_nonneg by (try apply Z.mul_nonneg_nonneg; lia). rewrite <- Heqs1. cbn [bind].
    rewrite EinvN. cbn [bind].
    rewrite modPow_spec by lia.
    assert (E1 : (n + 1) ^ s1 mod n = 1).
    { rewrite <- Z.mod_pow_l. replace ((n + 1) mod n) with 1.
      - rewrite Z.pow_1_l by lia. apply Z.mod_1_l. lia.
      - rewrite <- Z.add_mod_idemp_l, Z.mod_same by lia. symmetry. apply Z.mod_1_l. lia. }
    rewrite E1. cbn [bind].
    destruct (modInv_spec 1 n) as (invG & -> & HinvG & HinvG1); try lia.
    { apply Z.gcd_1_l. }
    cbn [bind]. rewrite Z.mul_1_r, Z.mod_small in HinvG1 by lia. subst invG.
    rewrite Z.mul_1_r, modPow_spec by lia. rewrite <- Heqs2. reflexivity.
  - unfold verifySignature.
    cbn [PublicKey.n PublicKey.nSquared PublicKey.g PublicKey.new Signature.s1 Signature.s2].
    rewrite <- Heqh.
    rewrite modPow_spec, g_pow_mod by lia. cbn [bind].
    rewrite modPow_spec by lia. cbn [bind].
    rewrite (Z.mod_small s1 n) by lia.
    pose proof (Z.mod_pos_bound (s2 ^ n) (n * n) ltac:(lia)).
    assert (0 <= n * s1) by (apply Z.mul_nonneg_nonneg; lia).
    rewrite mod_nonneg by (try apply Z.mul_nonneg_nonneg; lia). cbn [bind].
    rewrite Harith, Z.mod_small by lia. now rewrite Z.eqb_refl.
Qed.

(** C7. A key pair of [generateKeyPair(bits)] with [bits >= 256], a hash
    of 256 bits and a message whose hash is prime to [n]: the signature
    that [createSignature] returns passes [verifySignature]. *)
Theorem signature_roundtrip (isPrime : Z -> bool) (H : Z -> Z) (bits : Z)
  (tape0 tape0' : list Z) (pub : PublicKey.t) (priv : PrivateKey.t) (m : Z) :
  (forall x, isPrime x = true -> Z.prime x) ->
  256 <= bits ->
  generateKeyPair isPrime bits tape0 = Returned ((pub, priv), tape0') ->
  0 <= H m < 2 ^ 256 ->
  Z.gcd (H m) (PublicKey.n pub) = 1 ->
  exists sig, createSignature H m pub priv = Returned sig /\
         verifySignature H m sig pub = Returned true.
Proof.
  intros Hsound Hbits Hgen Hh Hg.
  destruct (generateKeyPair_valid isPrime bits tape0 pub priv tape0' Hsound Hgen)
    as (Hv & _ & _ & Hlen).
  apply signature_roundtrip_valid; trivial.
  destruct (valid_key_pair_pub pub priv Hv) as [Hn _].
  apply bitLength_pos_bounds in Hlen; [|lia].
  assert (2 ^ 255 <= 2 ^ (bits - 1)) by (apply Z.pow_le_mono_r; lia).
  assert (2 ^ 256 <= 2 ^ 255 * 2 ^ 255) by (rewrite <- Z.pow_add_r by lia; apply Z.pow_le_mono_r; lia).
  split; [lia|]. remember (PublicKey.n pub) as n. remember (2 ^ 255) as b.
  assert (b * b <= n * n) by nia. lia.
Qed.

(** ** Proth's criterion

    The primes of the keys used below are [k 2^m + 1] with [k < 2^m];
    such a number is prime as soon as some [a] has
    [a^((N-1)/2) = -1 (mod N)]. *)



Lemma val_inj {p : Z} (x y : Zstar p) : val x = val y -> x = y.
Proof. intros H. now apply Zstar.to_Zmod_inj, Zmod.unsigned_inj. Qed.

Lemma val_one (p : Z) : 2 <= p -> val (@Zstar.one p) = 1.
Proof. intros Hp. unfold val. rewrite Zstar.to_Zmod_1. now apply Zmod.unsigned_1_pos. Qed.

Lemma val_pow {p : Z} (x : Zstar p) (e : Z) :
  0 <= e -> val (Zstar.pow x e) = val x ^ e mod p.
Proof.
  intros He. unfold val. rewrite Zstar.to_Zmod_pow. now apply Zmod.unsigned_pow_nonneg_r.
Qed.

Lemma val_mul {p : Z} (x y : Zstar p) : val (Zstar.mul x y) = (val x * val y) mod p.
Proof. unfold val. rewrite Zstar.to_Zmod_mul. apply Zmod.unsigned_mul. Qed.

Lemma val_of_Z (p a : Z) :
  Z.gcd a p = 1 -> val (Zstar.of_Zmod (Zmod.of_Z p a)) = a mod p.
Proof.
  intros Hg. unfold val. rewrite Zstar.to_Zmod_of_Zmod; rewrite Zmod.unsigned_of_Z; trivial.
  now apply Z.coprime_mod_l_iff.
Qed.

Lemma gcd_pow2_divides (m x : Z) :
  1 <= m -> ~ (2 ^ m | x) -> (Z.gcd (2 ^ m) x | 2 ^ (m - 1)).
Proof.
  intros Hm Hx. set (d := Z.gcd (2 ^ m) x).
  assert (Hpow : 0 < 2 ^ m) by (apply Z.pow_pos_nonneg; lia).
  assert (Hd0 : 0 <= d) by apply Z.gcd_nonneg.
  destruct (Z.gcd_divide_l (2 ^ m) x) as [c Hc]. fold d in Hc.
  assert (Hsplit : 2 ^ m = 2 * 2 ^ (m - 1)).
  { rewrite <- Z.pow_succ_r by lia. f_equal. lia. }
  destruct (Z.eq_dec (c mod 2) 0) as [Heven|Hodd].
  - apply Z.mod_divide in Heven; [|lia]. destruct Heven as [c' Hc'].
    exists c'. nia.
  - exfalso. apply Hx.
    assert (Hco : Z.gcd c (2 ^ m) = 1).
    { apply Z.coprime_pow_r; [lia|]. unfold Z.coprime. rewrite Z.gcd_comm.
      apply Z.coprime_prime_l; [exact Z.prime_2|].
      intros H. apply Z.mod_divide in H; lia. }
    assert (Hc1 : (c | 1)).
    { apply Z.gauss with (2 ^ m); [|assumption]. exists d. lia. }
    assert (0 < c) by nia.
    apply Z.divide_1_r_nonneg in Hc1; [|lia]. subst c.
    rewrite Hc, Z.mul_1_l. apply Z.gcd_divide_r.
Qed.

(** An element whose [2^(m-1)]-th power is [-1] has order [2^m]. *)
Lemma pow2_divides_pred (p m : Z) (b : Zstar p) :
  Z.prime p -> 3 <= p -> 1 <= m ->
  val (Zstar.pow b (2 ^ (m - 1))) = p - 1 ->
  (2 ^ m | p - 1).
Proof.
  intros Pp Hp Hm Hy. set (y := Zstar.pow b (2 ^ (m - 1))) in *.
  assert (Hpow : 0 <= 2 ^ (m - 1)) by (apply Z.pow_nonneg; lia).
  assert (Hy2 : Zstar.pow b (2 ^ m) = Zstar.one).
  { replace (2 ^ m) with (2 ^ (m - 1) * 2)
      by (rewrite Z.mul_comm, <- Z.pow_succ_r by lia; f_equal; lia).
    rewrite Zstar.pow_mul_r. fold y. rewrite Zstar.pow_2_r.
    apply val_inj. rewrite val_mul, Hy, val_one by lia.
    replace ((p - 1) * (p - 1)) with (1 + (p - 2) * p) by ring.
    rewrite Z_mod_plus_full. apply Z.mod_1_l. lia. }
  destruct (Z.BoolSpec_divide (2 ^ m) (p - 1)) as [|Hnd]; [assumption|exfalso].
  destruct (gcd_pow2_divides m (p - 1) Hm Hnd) as [f Hf].
  destruct (Z.gcd_bezout (2 ^ m) (p - 1) _ eq_refl) as (u & v & Huv).
  assert (Hd : Zstar.pow b (Z.gcd (2 ^ m) (p - 1)) = Zstar.one).
  { rewrite <- Huv, Zstar.pow_add_r, (Z.mul_comm u), (Z.mul_comm v), !Zstar.pow_mul_r.
    rewrite Hy2. replace (p - 1) with (Z.pred p) by lia. rewrite Zstar.fermat by assumption.
    now rewrite !Zstar.pow_1_l, Zstar.mul_1_l. }
  assert (Hy1 : y = Zstar.one).
  { subst y. rewrite Hf, Z.mul_comm, Zstar.pow_mul_r, Hd. apply Zstar.pow_1_l. }
  rewrite Hy1, val_one in Hy by lia. lia.
Qed.

Lemma prime_divisor (n : Z) : 1 < n -> exists p, Z.prime p /\ (p | n).
Proof.
  intros Hn. assert (H0 : 0 <= n) by lia. revert Hn.
  pattern n. apply Z_lt_induction; [|assumption]. clear n H0.
  intros n IH Hn. destruct (prime_dec n) as [Hp|Hnp].
  - exists n. split; [now apply prime_alt|apply Z.divide_refl].
  - destruct (not_prime_divide n Hn Hnp) as (d & Hd & Hdiv).
    destruct (IH d ltac:(lia) ltac:(lia)) as (p & Pp & Hpd).
    exists p. split; [assumption|]. now apply Z.divide_trans with d.
Qed.

Lemma small_prime_factor (N : Z) :
  1 < N -> ~ Z.prime N -> exists p, Z.prime p /\ (p | N) /\ p * p <= N.
Proof.
  intros HN Hnp. rewrite prime_alt in Hnp.
  destruct (not_prime_divide N HN Hnp) as (d & Hd & [e He]).
  assert (1 < e < N) by nia.
  destruct (Z_le_gt_dec d e).
  - destruct (prime_divisor d ltac:(lia)) as (p & Pp & Hpd).
    exists p. split; [assumption|]. split.
    + apply Z.divide_trans with d; [assumption|]. exists e. lia.
    + pose proof (Z.prime_ge_2 p Pp). apply Z.divide_pos_le in Hpd; [|lia]. nia.
  - destruct (prime_divisor e ltac:(lia)) as (p & Pp & Hpe).
    exists p. split; [assumption|]. split.
    + apply Z.divide_trans with e; [assumption|]. exists d. lia.
    + pose proof (Z.prime_ge_2 p Pp). apply Z.divide_pos_le in Hpe; [|lia]. nia.
Qed.

Theorem proth_prime (N k m a : Z) : proth_certificate N k m a = true -> Z.prime N.
Proof.
  unfold proth_certificate. intros H.
  repeat (apply andb_prop in H; destruct H as [H ?]).
  assert (HN : N = k * 2 ^ m + 1) by lia.
  assert (Hk : 0 < k < 2 ^ m) by lia. assert (Hm : 0 < m) by lia. assert (Ha : 0 <= a) by lia.
  clear H H1 H2 H3 H4.
  assert (Hpm : 2 ^ m = 2 * 2 ^ (m - 1)).
  { rewrite <- Z.pow_succ_r by lia. f_equal. lia. }
  assert (Hpm1 : 0 < 2 ^ (m - 1)) by (apply Z.pow_pos_nonneg; lia).
  assert (Hhalf : (N - 1) / 2 = 2 ^ (m - 1) * k).
  { rewrite HN, Hpm. replace (k * (2 * 2 ^ (m - 1)) + 1 - 1) with (2 ^ (m - 1) * k * 2) by ring.
    apply Z.div_mul. lia. }
  assert (HN1 : 1 < N) by nia.
  rewrite modPow_spec in H0 by (try lia; rewrite Hhalf; nia).
  apply Z.eqb_eq in H0. rewrite Hhalf in H0.
  destruct (prime_dec N) as [HP|HnP]; [now apply prime_alt|exfalso].
  rewrite <- prime_alt in HnP.
  destruct (small_prime_factor N HN1 HnP) as (p & Pp & Hdiv & Hsq).
  pose proof (Z.prime_ge_2 p Pp) as Hp2.
  (* modulo [p] *)
  assert (Hmodp : a ^ (2 ^ (m - 1) * k) mod p = (N - 1) mod p).
  { rewrite <- H0. symmetry. apply Z.mod_mod_divide. assumption. }
  assert (Hm1 : (N - 1) mod p = p - 1).
  { destruct Hdiv as [c Hc]. rewrite Hc.
    replace (c * p - 1) with (p - 1 + (c - 1) * p) by ring.
    rewrite Z_mod_plus_full. apply Z.mod_small. lia. }
  assert (Hp3 : 3 <= p).
  { destruct (Z.eq_dec p 2) as [->|]; [|lia].
    destruct Hdiv as [c Hc]. rewrite HN, Hpm in Hc. lia. }
  assert (Hap : Z.gcd a p = 1).
  { rewrite Z.gcd_comm. apply Z.coprime_prime_l; [assumption|]. intros [c Hc].
    rewrite Hc, Z.pow_mul_l in Hmodp.
    rewrite (Z.mul_comm (c ^ _)) in Hmodp.
    assert (Hz : (p ^ (2 ^ (m - 1) * k) * c ^ (2 ^ (m - 1) * k)) mod p = 0).
    { apply Z.mod_divide; [lia|]. apply Z.divide_mul_l.
      apply Z.divide_pow_same_r. nia. }
    lia. }
  set (x := Zstar.of_Zmod (Zmod.of_Z p a)).
  assert (Hb : val (Zstar.pow (Zstar.pow x k) (2 ^ (m - 1))) = p - 1).
  { rewrite <- Zstar.pow_mul_r, (Z.mul_comm k), val_pow by nia.
    subst x. rewrite val_of_Z by assumption. now rewrite Z.mod_pow_l, Hmodp. }
  apply pow2_divides_pred in Hb; trivial; [|lia].
  apply Z.divide_pos_le in Hb; [|lia].
  assert (2 ^ m * 2 ^ m <= (p - 1) * (p - 1)) by nia. nia.
Qed.

(** ** Which exceptions the facade raises *)


Lemma mod_Threw (a m : Z) (e : exn) : bigInt.mod_ a m = Threw e -> facade_error e.
Proof.
  unfold bigInt.mod_. destruct (m =? 0); intros H; [|discriminate].
  injection H as <-. now left.
Qed.

Lemma modInv_Threw (a n : Z) (e : exn) : bigInt.modInv a n = Threw e -> facade_error e.
Proof.
  unfold bigInt.modInv. destruct (bigInt.modInv_loop _ _ _ _ _) as [[t r]|]; [|discriminate].
  destruct (negb _); [|destruct (a <? 0); discriminate].
  intros H. injection H as <-. right. now left.
Qed.

Lemma modPow_Threw (b x m : Z) (e : exn) : bigInt.modPow b x m = Threw e -> facade_error e.
Proof.
  unfold bigInt.modPow. destruct (m =? 0).
  - intros H. injection H as <-. right. now right.
  - destruct x as [|x|x]; try discriminate.
    destruct (bigInt.modInv (Z.rem b m) m) as [base| |] eqn:E; cbn [bind]; try discriminate.
    intros H. injection H as <-. now apply modInv_Threw in E.
Qed.

Lemma zkp_u_Threw (c mi : Z) (pub : PublicKey.t) (e : exn) :
  zkp_u c mi pub = Threw e -> facade_error e.
Proof.
  unfold zkp_u.
  destruct (bigInt.modPow _ _ _) as [gmi| |] eqn:E1; cbn [bind]; try discriminate.
  - destruct (bigInt.modInv _ _) as [inv| |] eqn:E2; cbn [bind]; try discriminate.
    + apply mod_Threw.
    + intros H. injection H as <-. now apply modInv_Threw in E2.
  - intros H. injection H as <-. now apply modPow_Threw in E1.
Qed.

Lemma facade_error_not_RangeError (e : exn) (msg : string) :
  facade_error e -> e <> RangeError msg.
Proof. unfold facade_error; intros [ -> | [ -> | -> ] ]; discriminate. Qed.

Lemma facade_error_not_NotInValidSet (e : exn) : facade_error e -> e <> NotInValidSet.
Proof. unfold facade_error; intros [ -> | [ -> | -> ] ]; discriminate. Qed.

Lemma facade_error_not_TypeError (e : exn) : facade_error e -> e <> TypeError.
Proof. unfold facade_error; intros [ -> | [ -> | -> ] ]; discriminate. Qed.

(** ** The length guard of [verifyZkp] *)

Lemma reduce_add_Threw (arr : jsarray) (e : exn) : reduce_add arr = Threw e -> e = TypeError.
Proof.
  unfold reduce_add. destruct (present arr); intros H; [|discriminate]. now injection H.
Qed.

Lemma verifyZkp_loop_Threw (c : Z) (pub : PublicKey.t) (cm : ZkpCommitment.t)
  (rest : list Z) :
  forall i e, verifyZkp_loop c pub cm rest i = Threw e -> e = TypeError \/ facade_error e.
Proof.
  induction rest as [|mi rest IH]; intros i e; cbn [verifyZkp_loop]; [discriminate|].
  destruct (zkp_u c mi pub) as [ui| |] eqn:Eu; cbn [bind]; try discriminate.
  2: { intros H. injection H as <-. right. now apply zkp_u_Threw in Eu. }
  unfold on_argument, on_receiver.
  destruct (arr_get (ZkpCommitment.z cm) i) as [zi|]; cbn [bind].
  2: { intros H. injection H as <-. now left. }
  destruct (bigInt.modPow zi _ _) as [zin| |] eqn:E1; cbn [bind]; try discriminate.
  2: { intros H. injection H as <-. right. now apply modPow_Threw in E1. }
  destruct (arr_get (ZkpCommitment.e cm) i) as [ei|]; cbn [bind].
  2: { intros H. injection H as <-. now left. }
  destruct (bigInt.modPow ui _ _) as [uiei| |] eqn:E2; cbn [bind]; try discriminate.
  2: { intros H. injection H as <-. right. now apply modPow_Threw in E2. }
  destruct (arr_get (ZkpCommitment.a cm) i) as [ai|]; cbn [bind].
  2: { intros H. injection H as <-. now left. }
  destruct (bigInt.mod_ _ _) as [aiuiei| |] eqn:E3; cbn [bind]; try discriminate.
  2: { intros H. injection H as <-. right. now apply mod_Threw in E3. }
  destruct (negb _); [discriminate|]. apply IH.
Qed.

(** C4, as the code has it. [verifyZkp] fails with MalformedCommitment
    exactly when [|a| + |e| + |z|] differs from [3 k]; lengths that are
    unequal and sum to [3 k] pass the guard. *)
Theorem verifyZkp_length_guard (H : jsarray -> Z) (c : Z) (valid : list Z)
  (commitment : ZkpCommitment.t) (pub : PublicKey.t) :
  verifyZkp H c valid commitment pub = Threw MalformedCommitment <->
  (List.length valid * 3 <>
   List.length (ZkpCommitment.a commitment) + List.length (ZkpCommitment.e commitment)
   + List.length (ZkpCommitment.z commitment))%nat.
Proof.
  unfold verifyZkp.
  destruct (Nat.eqb_spec (List.length valid * 3)
              (List.length (ZkpCommitment.a commitment)
               + List.length (ZkpCommitment.e commitment)
               + List.length (ZkpCommitment.z commitment))) as [E|E]; cbn [negb].
  - split; [|intros Hne; now elim Hne]. intros Hthrew. exfalso.
    destruct (reduce_add _) as [sum| |] eqn:Er; cbn [bind] in Hthrew; try discriminate.
    2: { injection Hthrew as ->. now apply reduce_add_Threw in Er. }
    destruct (bigInt.mod_ sum hashMod) as [esum| |] eqn:Em; cbn [bind] in Hthrew;
      try discriminate.
    destruct (negb _); [discriminate|].
    apply verifyZkp_loop_Threw in Hthrew. destruct Hthrew as [Ht|Hf]; [discriminate|].
    now apply (facade_error_not_RangeError _ "Invalid commitment or valid messages" Hf).
  - split; [intros _; assumption|reflexivity].
Qed.

(** ** [createZkp] on a singleton valid set *)

Lemma draw_not_Threw (accept : Z -> bool) (tape : list Z) (e : exn) :
  draw accept tape <> Threw e.
Proof. induction tape as [|x tape IH]; simpl; [discriminate|]. now destruct (accept x). Qed.

Lemma doWhile_not_Threw {A : Type} (body : Rand A) (again : A -> bool) :
  (forall tape e, body tape <> Threw e) ->
  forall tape e, doWhile body again tape <> Threw e.
Proof.
  intros Hbody tape e. unfold doWhile. generalize (S (List.length tape)) as fuel.
  intros fuel. revert tape. induction fuel as [|fuel IH]; intros tape; simpl; [discriminate|].
  destruct (body tape) as [[x tape']| |] eqn:E; try discriminate.
  - destruct (again x); [apply IH|discriminate].
  - now apply Hbody in E.
Qed.

Lemma sampleUnit_not_Threw (pub : PublicKey.t) (tape : list Z) (e : exn) :
  sampleUnit pub tape <> Threw e.
Proof. apply doWhile_not_Threw. intros. apply draw_not_Threw. Qed.

(** With [g >= 0] prime to [n], [u_i] is computed without an exception,
    whatever the sign of [m_i]. *)
Lemma zkp_u_Returned (n g c mi : Z) :
  1 < n -> 0 <= g -> Z.gcd g n = 1 ->
  exists ui, zkp_u c mi (PublicKey.new n g) = Returned ui.
Proof.
  intros Hn Hg Hco. unfold zkp_u. cbn [PublicKey.g PublicKey.nSquared PublicKey.new].
  assert (Hnn : 1 < n * n) by nia.
  destruct (modPow_unit g mi (n * n) Hnn Hg (coprime_square g n Hco))
    as (gmi & -> & Hgmi & Hgco). cbn [bind].
  destruct (modInv_spec gmi (n * n)) as (inv & -> & _); try lia. cbn [bind].
  unfold bigInt.mod_. destruct (Z.eqb_spec (n * n) 0); [lia|]. eauto.
Qed.

(** The outcomes of [createZkp] when the valid set is [[m]]. *)
Lemma createZkp_singleton_cases (H : jsarray -> Z) (m c r : Z) (pub : PublicKey.t)
  (tape : list Z) :
  createZkp H m c r [m] pub tape = Exhausted \/
  createZkp H m c r [m] pub tape = Threw TypeError \/
  exists e, facade_error e /\ createZkp H m c r [m] pub tape = Threw e.
Proof.
  remember (createZkp H m c r [m] pub tape) as res eqn:Eres.
  unfold createZkp in Eres. unfold bindR at 1 in Eres.
  destruct (sampleUnit pub tape) as [[omega tape1]| |] eqn:Es; cbn [bind fst snd] in Eres.
  2: { now apply sampleUnit_not_Threw in Es. }
  2: { now left. }
  unfold bindR at 1 in Eres. cbn [createZkp_loop] in Eres.
  unfold bindR at 1, liftR at 1 in Eres.
  destruct (zkp_u c m pub) as [ui| |] eqn:Eu; cbn [bind fst snd] in Eres.
  2: { right. right. exists e. split; [now apply zkp_u_Threw in Eu|assumption]. }
  2: { now left. }
  rewrite Z.eqb_refl in Eres. cbn [negb] in Eres. unfold bindR at 1, liftR at 1 in Eres.
  destruct (bigInt.modPow omega _ _) as [ai| |] eqn:Ea; cbn [bind fst snd] in Eres.
  2: { right. right. exists e. split; [now apply modPow_Threw in Ea|assumption]. }
  2: { now left. }
  unfold retR in Eres. cbn [bind fst snd] in Eres. right. left. exact Eres.
Qed.

(** C5. [createZkp(m, c, r, [m], pub)] neither returns a commitment nor
    raises NotInValidSet, for any inputs; once [omega] is drawn and the
    key has [g >= 0] prime to [n], it raises a [TypeError]: the fold of
    the [e] array finds no element. *)
Theorem createZkp_singleton (H : jsarray -> Z) (m c r : Z) (pub : PublicKey.t)
  (tape : list Z) :
  (forall commitment tape',
      createZkp H m c r [m] pub tape <> Returned (commitment, tape')) /\
  createZkp H m c r [m] pub tape <> Threw NotInValidSet /\
  (forall n g omega tape',
      pub = PublicKey.new n g -> 0 <= g -> Z.gcd g n = 1 ->
      sampleUnit pub tape = Returned (omega, tape') ->
      createZkp H m c r [m] pub tape = Threw TypeError).
Proof.
  split; [|split].
  - intros cm tape'.
    destruct (createZkp_singleton_cases H m c r pub tape) as [E|[E|(e & _ & E)]];
      rewrite E; discriminate.
  - destruct (createZkp_singleton_cases H m c r pub tape) as [E|[E|(e & He & E)]];
      rewrite E; try discriminate.
    intros Heq. injection Heq as ->. now apply facade_error_not_NotInValidSet in He.
  - intros n g omega tape' Hpub Hg Hco Hs.
    pose proof (sampleUnit_Returned _ _ _ _ Hs) as [Hw _].
    rewrite Hpub in Hw. cbn [PublicKey.n PublicKey.new] in Hw.
    assert (Hn : 1 < n) by lia.
    destruct (zkp_u_Returned n g c m Hn Hg Hco) as [ui Eu]. rewrite <- Hpub in Eu.
    destruct (createZkp_singleton_cases H m c r pub tape) as [E|[E|(e & He & E)]];
      [exfalso|assumption|exfalso].
    + unfold createZkp in E. unfold bindR at 1 in E. rewrite Hs in E. cbn [bind fst snd] in E.
      unfold bindR at 1 in E. cbn [createZkp_loop] in E.
      unfold bindR at 1, liftR at 1 in E. rewrite Eu in E. cbn [bind fst snd] in E.
      rewrite Z.eqb_refl in E. cbn [negb] in E. unfold bindR at 1, liftR at 1 in E.
      rewrite Hpub in E. cbn [PublicKey.n PublicKey.nSquared PublicKey.new] in E.
      rewrite modPow_spec in E by nia. discriminate E.
    + unfold createZkp in E. unfold bindR at 1 in E. rewrite Hs in E. cbn [bind fst snd] in E.
      unfold bindR at 1 in E. cbn [createZkp_loop] in E.
      unfold bindR at 1, liftR at 1 in E. rewrite Eu in E. cbn [bind fst snd] in E.
      rewrite Z.eqb_refl in E. cbn [negb] in E. unfold bindR at 1, liftR at 1 in E.
      rewrite Hpub in E. cbn [PublicKey.n PublicKey.nSquared PublicKey.new] in E.
      rewrite modPow_spec in E by nia. cbn [bind fst snd] in E. unfold retR in E.
      cbn [bind fst snd] in E. injection E as <-. now apply facade_error_not_TypeError in He.
Qed.

(** ** Completeness of the membership proof *)

(** [u_i] under a key with [g >= 0] prime to [n], for a ciphertext prime
    to [n]: a unit modulo [n^2]. *)
Lemma zkp_u_unit (n g c mi : Z) :
  1 < n -> 0 <= g -> Z.gcd g n = 1 -> 0 <= c -> Z.gcd c n = 1 ->
  exists ui, zkp_u c mi (PublicKey.new n g) = Returned ui /\
        0 <= ui < n * n /\ Z.gcd ui (n * n) = 1.
Proof.
  intros Hn Hg Hco Hc Hcc. unfold zkp_u. cbn [PublicKey.g PublicKey.nSquared PublicKey.new].
  assert (Hnn : 1 < n * n) by nia.
  destruct (modPow_unit g mi (n * n) Hnn Hg (coprime_square g n Hco))
    as (gmi & -> & Hgmi & Hgco). cbn [bind].
  destruct (modInv_spec gmi (n * n)) as (inv & -> & Hinv & Hinv1); try lia. cbn [bind].
  rewrite mod_nonneg by (try apply Z.mul_nonneg_nonneg; lia).
  eexists. split; [reflexivity|]. split; [apply Z.mod_pos_bound; lia|].
  apply Z.coprime_mod_l_iff. apply Z.coprime_mul_l.
  - now apply coprime_square.
  - now apply coprime_of_inverse with gmi.
Qed.

Lemma ciphertext_coprime (n m r : Z) :
  1 < n -> Z.gcd r n = 1 -> Z.gcd (ciphertext n m r) n = 1.
Proof.
  intros Hn Hr.
  assert (H : Z.gcd (ciphertext n m r) (n * n) = 1).
  { unfold ciphertext. apply Z.coprime_mod_l_iff. apply Z.coprime_mul_l.
    - apply Z.coprime_mod_l_iff. apply coprime_square.
      apply Z.bezout_1_gcd. exists 1, (- m). ring.
    - apply Z.coprime_mod_l_iff. apply Z.coprime_pow_l; [lia|]. now apply coprime_square. }
  apply Z.bezout_1_gcd. apply Z.gcd_bezout in H. destruct H as (u & v & H).
  exists u, (v * n). lia.
Qed.

(** At the plaintext itself, [u] is [r^n]. *)
Lemma zkp_u_self (n m r : Z) :
  1 < n -> 0 <= m < n -> Z.gcd r n = 1 ->
  zkp_u (ciphertext n m r) m (PublicKey.new n (n + 1)) = Returned (r ^ n mod (n * n)).
Proof.
  intros Hn Hm Hr. unfold zkp_u. cbn [PublicKey.g PublicKey.nSquared PublicKey.new].
  assert (Hnn : 1 < n * n) by nia.
  rewrite modPow_spec, g_pow_mod by lia. cbn [bind]. rewrite (Z.mod_small m n) by lia.
  assert (Hgm : Z.gcd (1 + n * m) (n * n) = 1).
  { apply coprime_square. apply Z.bezout_1_gcd. exists 1, (- m). ring. }
  assert (0 <= n * m) by (apply Z.mul_nonneg_nonneg; lia).
  destruct (modInv_spec (1 + n * m) (n * n)) as (inv & -> & Hinv & Hinv1); try lia.
  cbn [bind]. pose proof (ciphertext_range n m r Hn).
  rewrite mod_nonneg by (try apply Z.mul_nonneg_nonneg; lia). f_equal.
  rewrite <- Zmult_mod_idemp_l, ciphertext_cong, Zmult_mod_idemp_l.
  replace ((1 + n * m) * r ^ n * inv) with (r ^ n * (inv * (1 + n * m))) by ring.
  now rewrite <- Zmult_mod_idemp_r, Hinv1, Z.mul_1_r.
Qed.

Lemma arr_set_middle (done : jsarray) (x : option Z) (rest : jsarray) (v : Z) (i : nat) :
  i = List.length done -> arr_set (done ++ x :: rest) i v = done ++ Some v :: rest.
Proof.
  intros ->. induction done as [|y done IH]; [reflexivity|].
  cbn [List.length app arr_set]. now rewrite IH.
Qed.

Lemma arr_get_middle (done : jsarray) (x : option Z) (rest : jsarray) :
  arr_get (done ++ x :: rest) (List.length done) = x.
Proof.
  unfold arr_get. rewrite nth_error_app2, Nat.sub_diag by lia. cbn [nth_error].
  now destruct x.
Qed.

Lemma app_cons_assoc {A : Type} (l : list A) (x : A) (r : list A) :
  l ++ x :: r = (l ++ [x]) ++ r.
Proof. now rewrite <- app_assoc. Qed.

Section Prover.

Variables (n m c omega : Z).
Hypothesis Hn : 1 < n.
Hypothesis Hc : 0 <= c.
Hypothesis Hcn : Z.gcd c n = 1.

Let pub := PublicKey.new n (n + 1).

Lemma g_coprime : Z.gcd (n + 1) n = 1.
Proof. apply Z.bezout_1_gcd. exists 1, (-1). ring. Qed.

(** A simulated clause verifies. *)
Lemma simulated_clause (mi ui ei zi zin uiei inv ai : Z) :
  0 <= ei -> 0 <= zi ->
  zkp_u c mi pub = Returned ui ->
  bigInt.modPow zi n (n * n) = Returned zin ->
  bigInt.modPow ui ei (n * n) = Returned uiei ->
  bigInt.modInv uiei (n * n) = Returned inv ->
  bigInt.mod_ (zin * inv) (n * n) = Returned ai ->
  clause_ok c pub mi ai ei zi.
Proof.
  intros Hei Hzi Hu Hzin Huiei Hinv Hai.
  destruct (zkp_u_unit n (n + 1) c mi Hn ltac:(lia) g_coprime Hc Hcn) as (ui' & Eu & Hui & Huco).
  fold pub in Eu. rewrite Hu in Eu. injection Eu as <-.
  assert (Hnn : 1 < n * n) by nia.
  rewrite modPow_spec in Hzin, Huiei by lia.
  injection Hzin as <-. injection Huiei as <-.
  assert (Hco : Z.gcd (ui ^ ei mod (n * n)) (n * n) = 1).
  { apply Z.coprime_mod_l_iff. apply Z.coprime_pow_l; [lia|assumption]. }
  pose proof (Z.mod_pos_bound (ui ^ ei) (n * n) ltac:(lia)) as Hb1.
  pose proof (Z.mod_pos_bound (zi ^ n) (n * n) ltac:(lia)) as Hb2.
  destruct (modInv_spec (ui ^ ei mod (n * n)) (n * n)) as (t & Et & Ht & Ht1); try lia.
  rewrite Hinv in Et. injection Et as <-.
  rewrite mod_nonneg in Hai by (try apply Z.mul_nonneg_nonneg; lia). injection Hai as <-.
  exists ui, (zi ^ n mod (n * n)), (ui ^ ei mod (n * n)).
  cbn [PublicKey.n PublicKey.nSquared PublicKey.new pub].
  rewrite !modPow_spec by lia. repeat split; trivial.
  pose proof (Z.mod_pos_bound (zi ^ n mod (n * n) * inv) (n * n) ltac:(lia)).
  rewrite mod_nonneg by (try apply Z.mul_nonneg_nonneg; lia). f_equal.
  rewrite Zmult_mod_idemp_l.
  replace (zi ^ n mod (n * n) * inv * (ui ^ ei mod (n * n)))
    with (zi ^ n mod (n * n) * (inv * (ui ^ ei mod (n * n)))) by ring.
  rewrite <- Zmult_mod_idemp_r, Ht1, Z.mul_1_r. apply Z.mod_mod. lia.
Qed.

(** The prover's loop, from a state whose arrays hold [done] entries
    followed by holes. *)
Lemma createZkp_loop_built (rest : list Z) :
  forall (da de dz : jsarray) (mk : Z) (tape tape' : list Z)
    (commitment : ZkpCommitment.t) (mk' : Z),
    List.length de = List.length da -> List.length dz = List.length da ->
    createZkp_loop m c omega pub rest (List.length da)
      (ZkpCommitment.mk (da ++ repeat None (List.length rest))
         (de ++ repeat None (List.length rest))
         (dz ++ repeat None (List.length rest))) mk tape
    = Returned ((commitment, mk'), tape') ->
    exists ra re rz,
      commitment = ZkpCommitment.mk (da ++ ra) (de ++ re) (dz ++ rz) /\
      built m c omega pub rest ra re rz /\
      mk' = mk_after m rest (List.length da) mk.
Proof.
  induction rest as [|mi rest IH]; intros da de dz mk tape tape' cm mk' Hde Hdz H.
  - cbn [createZkp_loop] in H. unfold retR in H. injection H as <- <- _.
    exists [], [], []. repeat split. constructor.
  - cbn [createZkp_loop List.length repeat] in H.
    apply bindR_Returned in H. destruct H as (ui & tape1 & Hu & H).
    apply liftR_Returned in Hu. destruct Hu as [Hu ->].
    cbn [mk_after]. destruct (Z.eqb_spec mi m) as [->|Hne]; cbn [negb] in H.
    + apply bindR_Returned in H. destruct H as (ai & tape2 & Ha & H).
      apply liftR_Returned in Ha. destruct Ha as [Ha ->].
      unfold ZkpCommitment.set_a in H. cbn [ZkpCommitment.a ZkpCommitment.e ZkpCommitment.z] in H.
      rewrite (arr_set_middle da) in H by reflexivity.
      rewrite (app_cons_assoc da), (app_cons_assoc de), (app_cons_assoc dz) in H.
      replace (S (List.length da)) with (List.length (da ++ [Some ai])) in H
        by (rewrite length_app; cbn [List.length]; lia).
      apply IH in H; try (rewrite !length_app; cbn [List.length]; lia).
      destruct H as (ra & re & rz & -> & Hb & ->).
      exists (Some ai :: ra), (None :: re), (None :: rz).
      rewrite <- !app_cons_assoc. split; [reflexivity|]. split.
      * now apply built_self.
      * rewrite length_app. cbn [List.length]. now rewrite Nat.add_1_r.
    + apply bindR_Returned in H. destruct H as (ei & tape2 & He & H).
      apply bindR_Returned in H. destruct H as (zi & tape3 & Hz & H).
      apply bindR_Returned in H. destruct H as (zin & tape4 & Hzin & H).
      apply liftR_Returned in Hzin. destruct Hzin as [Hzin ->].
      apply bindR_Returned in H. destruct H as (uiei & tape5 & Huiei & H).
      apply liftR_Returned in Huiei. destruct Huiei as [Huiei ->].
      apply bindR_Returned in H. destruct H as (inv & tape6 & Hinv & H).
      apply liftR_Returned in Hinv. destruct Hinv as [Hinv ->].
      apply bindR_Returned in H. destruct H as (ai & tape7 & Hai & H).
      apply liftR_Returned in Hai. destruct Hai as [Hai ->].
      apply draw_Returned in He, Hz.
      apply andb_prop in He. destruct He as [He _].
      apply andb_prop in Hz. destruct Hz as [Hz _]. apply andb_prop in Hz. destruct Hz as [Hz _].
      unfold ZkpCommitment.set_a, ZkpCommitment.set_e, ZkpCommitment.set_z in H.
      cbn [ZkpCommitment.a ZkpCommitment.e ZkpCommitment.z] in H.
      rewrite (arr_set_middle da), (arr_set_middle de), (arr_set_middle dz) in H by lia.
      rewrite (app_cons_assoc da), (app_cons_assoc de), (app_cons_assoc dz) in H.
      replace (S (List.length da)) with (List.length (da ++ [Some ai])) in H
        by (rewrite length_app; cbn [List.length]; lia).
      apply IH in H; try (rewrite !length_app; cbn [List.length]; lia).
      destruct H as (ra & re & rz & -> & Hb & ->).
      exists (Some ai :: ra), (Some ei :: re), (Some zi :: rz).
      rewrite <- !app_cons_assoc. split; [reflexivity|]. split.
      * apply built_other; trivial; [lia|].
        apply simulated_clause with ui zin uiei inv; trivial; lia.
      * rewrite length_app. cbn [List.length]. now rewrite Nat.add_1_r.
Qed.

End Prover.

Lemma fold_left_add (l : list Z) (x : Z) : fold_left Z.add l x = x + total l.
Proof.
  revert x. induction l as [|y l IH]; intros x; cbn [fold_left total fold_right]; [lia|].
  rewrite IH. unfold total. lia.
Qed.

Lemma total_app (l1 l2 : list Z) : total (l1 ++ l2) = total l1 + total l2.
Proof. unfold total. induction l1 as [|x l1 IH]; cbn [app fold_right]; lia. Qed.

Lemma total_nonneg (l : list Z) : Forall (fun x => 0 <= x) l -> 0 <= total l.
Proof. unfold total. induction 1; cbn [fold_right]; lia. Qed.

Lemma present_dense (l : list Z) : present (map Some l) = l.
Proof. induction l as [|x l IH]; cbn [map present]; [reflexivity|now rewrite IH]. Qed.

Lemma present_app (a1 a2 : jsarray) : present (a1 ++ a2) = present a1 ++ present a2.
Proof.
  induction a1 as [|[x|] a1 IH]; cbn [app present]; [reflexivity| |assumption].
  now rewrite IH.
Qed.

Lemma reduce_add_total (arr : jsarray) :
  present arr <> [] -> reduce_add arr = Returned (total (present arr)).
Proof.
  unfold reduce_add. destruct (present arr) as [|x l]; [congruence|]. intros _.
  now rewrite fold_left_add.
Qed.

Lemma arr_get_dense_middle (p : list Z) (x : option Z) (rest : jsarray) (i : nat) :
  i = List.length p -> arr_get (map Some p ++ x :: rest) i = x.
Proof. intros ->. rewrite <- (length_map Some p). apply arr_get_middle. Qed.

Section Clauses.

Variables (m c omega : Z) (pub : PublicKey.t).

Lemma clauses_ok_length (l la le lz : list Z) :
  clauses_ok c pub l la le lz ->
  List.length la = List.length l /\ List.length le = List.length l /\
  List.length lz = List.length l.
Proof. induction 1; cbn [List.length]; lia. Qed.

Lemma clauses_ok_app (l1 la1 le1 lz1 l2 la2 le2 lz2 : list Z) :
  clauses_ok c pub l1 la1 le1 lz1 -> clauses_ok c pub l2 la2 le2 lz2 ->
  clauses_ok c pub (l1 ++ l2) (la1 ++ la2) (le1 ++ le2) (lz1 ++ lz2).
Proof. induction 1; intros H2; cbn [app]; [assumption|]. constructor; auto. Qed.

Lemma built_dense (l : list Z) (ra re rz : jsarray) :
  ~ In m l -> built m c omega pub l ra re rz ->
  exists la le lz,
    ra = map Some la /\ re = map Some le /\ rz = map Some lz /\
    clauses_ok c pub l la le lz /\ Forall (fun x => 0 <= x) le.
Proof.
  intros Hnin Hb. induction Hb as [|mi rest ai ei zi ra re rz Hne Hei Hok Hb IH
                                   |rest ai ra re rz Ha Hb IH].
  - exists [], [], []. repeat split; constructor.
  - destruct IH as (la & le & lz & -> & -> & -> & Hcl & Hpos).
    { intros Hin. apply Hnin. now right. }
    exists (ai :: la), (ei :: le), (zi :: lz). repeat split; try constructor; assumption.
  - exfalso. apply Hnin. now left.
Qed.

Lemma built_split (pre post : list Z) :
  forall ra re rz,
    ~ In m pre -> ~ In m post ->
    built m c omega pub (pre ++ m :: post) ra re rz ->
    exists la1 le1 lz1 ak la2 le2 lz2,
      ra = map Some (la1 ++ ak :: la2) /\
      re = map Some le1 ++ None :: map Some le2 /\
      rz = map Some lz1 ++ None :: map Some lz2 /\
      clauses_ok c pub pre la1 le1 lz1 /\ clauses_ok c pub post la2 le2 lz2 /\
      Forall (fun x => 0 <= x) le1 /\ Forall (fun x => 0 <= x) le2 /\
      bigInt.modPow omega (PublicKey.n pub) (PublicKey.nSquared pub) = Returned ak.
Proof.
  induction pre as [|x pre IH]; intros ra re rz Hpre Hpost Hb; cbn [app] in Hb.
  - inversion Hb as [|mi rest ai ei zi ra' re' rz' Hne _ _ _|rest ai ra' re' rz' Ha Hb']; subst.
    + congruence.
    + destruct (built_dense post ra' re' rz' Hpost Hb') as (la & le & lz & -> & -> & -> & Hcl & Hpos).
      exists [], [], [], ai, la, le, lz. repeat split; try constructor; assumption.
  - assert (Hx : x <> m) by (intros ->; apply Hpre; now left).
    assert (Hpre' : ~ In m pre) by (intros Hin; apply Hpre; now right).
    inversion Hb as [|mi rest ai ei zi ra' re' rz' Hne Hei Hok Hb'|rest ai ra' re' rz' Ha Hb'];
      subst; [|congruence].
    destruct (IH ra' re' rz' Hpre' Hpost Hb')
      as (la1 & le1 & lz1 & ak & la2 & le2 & lz2 & -> & -> & -> & Hc1 & Hc2 & Hp1 & Hp2 & Hak).
    exists (ai :: la1), (ei :: le1), (zi :: lz1), ak, la2, le2, lz2.
    repeat split; try constructor; assumption.
Qed.

Lemma mk_after_notin (l : list Z) :
  forall i mk, ~ In m l -> mk_after m l i mk = mk.
Proof.
  induction l as [|x l IH]; intros i mk Hnin; cbn [mk_after]; [reflexivity|].
  destruct (Z.eqb_spec x m) as [->|_]; [exfalso; apply Hnin; now left|].
  apply IH. intros Hin. apply Hnin. now right.
Qed.

Lemma mk_after_split (pre post : list Z) :
  forall i mk, ~ In m post ->
    mk_after m (pre ++ m :: post) i mk = Z.of_nat (i + List.length pre).
Proof.
  induction pre as [|x pre IH]; intros i mk Hpost; cbn [app mk_after List.length].
  - rewrite Z.eqb_refl, mk_after_notin by assumption. f_equal. lia.
  - rewrite IH by assumption. f_equal. lia.
Qed.

(** The verifier's loop on dense arrays whose clauses pass. *)
Lemma verifyZkp_loop_true (l la le lz : list Z) :
  clauses_ok c pub l la le lz ->
  forall pa pe pz : list Z,
    List.length pe = List.length pa -> List.length pz = List.length pa ->
    verifyZkp_loop c pub
      (ZkpCommitment.mk (map Some (pa ++ la)) (map Some (pe ++ le)) (map Some (pz ++ lz)))
      l (List.length pa)
    = Returned true.
Proof.
  induction 1 as [|mi valid ai la ei le zi lz Hok Hcl IH]; intros pa pe pz Hpe Hpz;
    [reflexivity|].
  cbn [verifyZkp_loop ZkpCommitment.a ZkpCommitment.e ZkpCommitment.z].
  destruct Hok as (ui & zin & uiei & -> & Hzin & Huiei & Hai). cbn [bind].
  rewrite !map_app. cbn [map].
  rewrite (arr_get_dense_middle pz), (arr_get_dense_middle pa), (arr_get_dense_middle pe)
    by lia.
  unfold on_argument, on_receiver. rewrite Hzin. cbn [bind]. rewrite Huiei. cbn [bind].
  rewrite Hai. cbn [bind]. rewrite Z.eqb_refl. cbn [negb].
  specialize (IH (pa ++ [ai]) (pe ++ [ei]) (pz ++ [zi])).
  rewrite !length_app in IH. cbn [List.length] in IH.
  rewrite <- !app_assoc, !map_app in IH. cbn [app map] in IH.
  rewrite !Nat.add_1_r in IH. apply IH; lia.
Qed.

End Clauses.

Lemma exactly_once_split (m : Z) (valid : list Z) :
  count_occ Z.eq_dec valid m = 1%nat ->
  exists pre post, valid = pre ++ m :: post /\ ~ In m pre /\ ~ In m post.
Proof.
  induction valid as [|x valid IH]; cbn [count_occ]; [discriminate|].
  destruct (Z.eq_dec x m) as [->|Hne]; intros H.
  - exists [], valid. repeat split; [now intros []|].
    apply (count_occ_not_In Z.eq_dec). lia.
  - destruct (IH H) as (pre & post & -> & Hpre & Hpost).
    exists (x :: pre), post. repeat split; trivial.
    intros [->|Hin]; [congruence|contradiction].
Qed.

(** The prover's own clause: [a = omega^n], [z = omega r^e mod n]. *)
Lemma own_clause (n m r omega ek ak rek zk : Z) :
  1 < n -> 0 <= m < n -> 0 <= r -> Z.gcd r n = 1 -> 0 <= omega -> 0 <= ek ->
  bigInt.modPow omega n (n * n) = Returned ak ->
  bigInt.modPow r ek n = Returned rek ->
  bigInt.mod_ (omega * rek) n = Returned zk ->
  clause_ok (ciphertext n m r) (PublicKey.new n (n + 1)) m ak ek zk.
Proof.
  intros Hn Hm Hr Hrn Hw Hek Hak Hrek Hzk.
  assert (Hnn : 1 < n * n) by nia.
  rewrite modPow_spec in Hak, Hrek by lia. injection Hak as <-. injection Hrek as <-.
  pose proof (Z.mod_pos_bound (r ^ ek) n ltac:(lia)).
  rewrite mod_nonneg in Hzk by (try apply Z.mul_nonneg_nonneg; lia). injection Hzk as <-.
  pose proof (Z.mod_pos_bound (omega * (r ^ ek mod n)) n ltac:(lia)).
  pose proof (Z.mod_pos_bound (r ^ n) (n * n) ltac:(lia)).
  pose proof (Z.mod_pos_bound (omega ^ n) (n * n) ltac:(lia)).
  pose proof (Z.mod_pos_bound ((r ^ n mod (n * n)) ^ ek) (n * n) ltac:(lia)).
  exists (r ^ n mod (n * n)), ((omega * (r ^ ek mod n) mod n) ^ n mod (n * n)),
    ((r ^ n mod (n * n)) ^ ek mod (n * n)).
  cbn [PublicKey.n PublicKey.nSquared PublicKey.new].
  rewrite zkp_u_self, !modPow_spec by lia.
  rewrite mod_nonneg by (try apply Z.mul_nonneg_nonneg; lia).
  repeat split. f_equal.
  rewrite (pow_lift (omega * (r ^ ek mod n) mod n) (omega * r ^ ek) n)
    by (try lia; now rewrite Z.mod_mod, Zmult_mod_idemp_r by lia).
  rewrite Z.mod_pow_l, <- Zmult_mod.
  rewrite Z.pow_mul_l, <- !Z.pow_mul_r by lia. now rewrite (Z.mul_comm ek n).
Qed.

(** The challenge check: the [e] entries sum to the hash, modulo
    [2^256]. *)
Lemma challenge_sum (challenge s : Z) :
  0 <= challenge < hashMod ->
  (s + BigMath.positiveMod (challenge - s mod hashMod) hashMod) mod hashMod = challenge.
Proof.
  intros Hc. unfold BigMath.positiveMod.
  rewrite Zplus_mod_idemp_r, <- Zplus_mod_idemp_l.
  replace (s mod hashMod + (challenge - s mod hashMod)) with challenge by ring.
  now apply Z.mod_small.
Qed.

(** Completeness for valid sets of at least two messages in which [m]
    occurs once: what [encryptWithZkp] returns, [verifyZkp] accepts. *)
Theorem zkp_completeness (H : jsarray -> Z) (n m : Z) (valid : list Z)
  (tape tape' : list Z) (c : Z) (commitment : ZkpCommitment.t) :
  (forall arr, 0 <= H arr < 2 ^ 256) ->
  1 < n -> 0 <= m < n ->
  count_occ Z.eq_dec valid m = 1%nat -> (2 <= List.length valid)%nat ->
  encryptWithZkp H m valid (PublicKey.new n (n + 1)) tape
  = Returned ((c, commitment), tape') ->
  verifyZkp H c valid commitment (PublicKey.new n (n + 1)) = Returned true.
Proof.
  intros Hhash Hn Hm Honce Hlen Hrun. set (pub := PublicKey.new n (n + 1)) in *.
  assert (Hnn : 1 < n * n) by nia.
  (* the encryption *)
  unfold encryptWithZkp in Hrun.
  apply bindR_Returned in Hrun. destruct Hrun as ([c0 r] & tape1 & Henc & Hrun).
  apply bindR_Returned in Hrun. destruct Hrun as (cm & tape2 & Hzkp & Hret).
  unfold retR in Hret. cbn [fst snd] in Hret, Hzkp. injection Hret as -> -> _.
  unfold encryptWithoutR in Henc.
  apply bindR_Returned in Henc. destruct Henc as (r0 & tape3 & Hs & Henc).
  apply liftR_Returned in Henc. destruct Henc as [Henc ->].
  pose proof (sampleUnit_Returned _ _ _ _ Hs) as [Hr0 Hr0n].
  cbn [PublicKey.n PublicKey.new pub] in Hr0, Hr0n.
  unfold pub in Henc. rewrite encryptWithR_spec in Henc by lia. injection Henc as <- <-.
  pose proof (ciphertext_range n m r0 Hn) as Hcr.
  pose proof (ciphertext_coprime n m r0 Hn Hr0n) as Hcco.
  set (c := ciphertext n m r0) in *.
  (* the prover's loop *)
  unfold createZkp in Hzkp.
  apply bindR_Returned in Hzkp. destruct Hzkp as (omega & tape4 & Hw & Hzkp).
  pose proof (sampleUnit_Returned _ _ _ _ Hw) as [Hw0 _].
  cbn [PublicKey.n PublicKey.new pub] in Hw0.
  apply bindR_Returned in Hzkp. destruct Hzkp as ([cm0 mk] & tape5 & Hloop & Hzkp).
  cbn [fst snd] in Hzkp.
  apply (createZkp_loop_built n m c omega Hn ltac:(lia) Hcco valid [] [] []) in Hloop;
    [|reflexivity|reflexivity].
  destruct Hloop as (ra & re & rz & -> & Hbuilt & ->). cbn [app List.length] in Hbuilt, Hzkp.
  destruct (exactly_once_split m valid Honce) as (pre & post & -> & Hpre & Hpost).
  destruct (built_split m c omega _ pre post ra re rz Hpre Hpost Hbuilt)
    as (la1 & le1 & lz1 & ak & la2 & le2 & lz2 & -> & -> & -> & Hc1 & Hc2 & Hp1 & Hp2 & Hak).
  rewrite mk_after_split in Hzkp by assumption. cbn [Nat.add] in Hzkp.
  destruct (clauses_ok_length c _ pre la1 le1 lz1 Hc1) as (Lla1 & Lle1 & Llz1).
  destruct (clauses_ok_length c _ post la2 le2 lz2 Hc2) as (Lla2 & Lle2 & Llz2).
  destruct (Z.ltb_spec (Z.of_nat (List.length pre)) 0); [lia|].
  apply liftR_Returned in Hzkp. destruct Hzkp as [Hzkp _].
  cbn [ZkpCommitment.a ZkpCommitment.e ZkpCommitment.z] in Hzkp.
  (* the sum of the simulated challenges *)
  assert (Hpresent : present (map Some le1 ++ None :: map Some le2) = le1 ++ le2).
  { rewrite present_app. cbn [present]. now rewrite !present_dense. }
  assert (Hne : le1 ++ le2 <> []).
  { intros E. apply (f_equal (@List.length Z)) in E.
    rewrite length_app in E. cbn [List.length] in E.
    rewrite length_app in Hlen. cbn [List.length] in Hlen. lia. }
  rewrite reduce_add_total in Hzkp by (rewrite Hpresent; assumption).
  rewrite Hpresent in Hzkp. cbn [bind] in Hzkp.
  assert (Hsum : 0 <= total (le1 ++ le2)).
  { apply total_nonneg. apply Forall_app. now split. }
  assert (HM : 0 < hashMod) by reflexivity.
  rewrite mod_nonneg in Hzkp by lia. cbn [bind] in Hzkp.
  set (challenge := H (map Some (la1 ++ ak :: la2))) in *.
  set (ek := BigMath.positiveMod (challenge - total (le1 ++ le2) mod hashMod) hashMod) in *.
  assert (Hek : 0 <= ek) by (apply Z.mod_pos_bound; lia).
  unfold ZkpCommitment.set_e, ZkpCommitment.set_z in Hzkp.
  cbn [ZkpCommitment.a ZkpCommitment.e ZkpCommitment.z] in Hzkp.
  rewrite Nat2Z.id in Hzkp.
  rewrite (arr_set_middle (map Some le1)) in Hzkp by (rewrite length_map; lia).
  cbn [PublicKey.n PublicKey.new pub] in Hzkp.
  rewrite modPow_spec in Hzkp by lia. cbn [bind] in Hzkp.
  pose proof (Z.mod_pos_bound (r0 ^ ek) n ltac:(lia)).
  rewrite mod_nonneg in Hzkp by (try apply Z.mul_nonneg_nonneg; lia). cbn [bind] in Hzkp.
  injection Hzkp as <-.
  rewrite (arr_set_middle (map Some lz1)) by (rewrite length_map; lia).
  set (zk := (omega * (r0 ^ ek mod n)) mod n).
  (* the verifier *)
  unfold verifyZkp. cbn [ZkpCommitment.a ZkpCommitment.e ZkpCommitment.z].
  replace (map Some le1 ++ Some ek :: map Some le2) with (map Some (le1 ++ ek :: le2))
    by now rewrite map_app.
  replace (map Some lz1 ++ Some zk :: map Some lz2) with (map Some (lz1 ++ zk :: lz2))
    by now rewrite map_app.
  rewrite !length_map, !length_app. cbn [List.length].
  replace (_ =? _)%nat with true by (symmetry; apply Nat.eqb_eq; lia). cbn [negb].
  rewrite reduce_add_total
    by (rewrite present_dense; intros E; apply (f_equal (@List.length Z)) in E;
        rewrite length_app in E; cbn [List.length] in E; lia).
  rewrite present_dense. cbn [bind].
  assert (Htot : total (le1 ++ ek :: le2) = total (le1 ++ le2) + ek).
  { rewrite !total_app. unfold total. cbn [fold_right]. lia. }
  rewrite mod_nonneg by lia. cbn [bind]. fold challenge.
  rewrite Htot. unfold ek at 1.
  rewrite challenge_sum by (unfold hashMod; apply Hhash).
  rewrite Z.eqb_refl. cbn [negb].
  apply (verifyZkp_loop_true c pub (pre ++ m :: post) (la1 ++ ak :: la2)
           (le1 ++ ek :: le2) (lz1 ++ zk :: lz2)) with (pa := []) (pe := []) (pz := []);
    try reflexivity.
  apply clauses_ok_app; [assumption|]. constructor; [|assumption].
  apply (own_clause n m r0 omega ek ak (r0 ^ ek mod n) zk); try lia; try assumption.
  - apply modPow_spec; lia.
  - apply mod_nonneg; [apply Z.mul_nonneg_nonneg; lia|lia].
Qed.

(** *** A run that returns

    On a tape of ones every sampler takes its first draw: [r], [omega],
    [e_i] and [z_i] are all 1. *)

Lemma bitLength_ge_4 (n : Z) : 8 <= n -> 4 <= bigInt.bitLength n.
Proof.
  intros Hn. unfold bigInt.bitLength.
  destruct (Z.ltb_spec n 0); [lia|]. destruct (Z.eqb_spec n 0); [lia|].
  pose proof (Z.log2_le_mono 8 n Hn) as Hl. change (Z.log2 8) with 3 in Hl. lia.
Qed.

Lemma sampleUnit_ones (n g : Z) (N : nat) :
  1 < n -> sampleUnit (PublicKey.new n g) (repeat 1 (S N)) = Returned (1, repeat 1 N).
Proof.
  intros Hn. unfold sampleUnit, doWhile. cbn [PublicKey.n PublicKey.new].
  cbn [repeat List.length doWhile_fuel BigMath.generateCoprime draw].
  assert (Hb : 1 <= bigInt.bitLength n).
  { unfold bigInt.bitLength. destruct (Z.ltb_spec n 0); [lia|].
    destruct (Z.eqb_spec n 0); [lia|]. pose proof (Z.log2_nonneg n). lia. }
  change (bigInt.bitLength 1) with 1. rewrite Z.gcd_1_l.
  change (0 <? 1) with true. change (1 =? 1) with true.
  destruct (Z.leb_spec 1 (bigInt.bitLength n)); [|lia]. cbn [andb].
  destruct (Z.leb_spec n 1); [lia|reflexivity].
Qed.

Lemma createZkp_loop_ones (n m c omega : Z) (rest : list Z) :
  8 <= n -> 0 <= c -> Z.gcd c n = 1 -> 0 <= omega ->
  forall (i : nat) (commitment : ZkpCommitment.t) (mk : Z) (N : nat),
    (2 * List.length rest <= N)%nat ->
    exists commitment' mk' N',
      createZkp_loop m c omega (PublicKey.new n (n + 1)) rest i commitment mk (repeat 1 N)
      = Returned ((commitment', mk'), repeat 1 N').
Proof.
  intros Hn Hc Hcn Hw. assert (Hnn : 1 < n * n) by nia.
  pose proof (bitLength_ge_4 n Hn) as Hbits.
  induction rest as [|mi rest IH]; intros i cm mk N HN.
  - exists cm, mk, N. reflexivity.
  - cbn [createZkp_loop]. unfold bindR at 1, liftR at 1.
    destruct (zkp_u_unit n (n + 1) c mi ltac:(lia) ltac:(lia) (g_coprime n) Hc Hcn)
      as (ui & -> & Hui & Huco).
    cbn [bind fst snd]. cbn [List.length] in HN.
    destruct (Z.eqb_spec mi m) as [_|_]; cbn [negb].
    + unfold bindR at 1, liftR at 1. cbn [PublicKey.n PublicKey.nSquared PublicKey.new].
      rewrite modPow_spec by lia. cbn [bind fst snd]. apply IH. lia.
    + destruct N as [|[|N]]; try lia. cbn [repeat].
      unfold bindR at 1. cbn [BigMath.generateRandom draw PublicKey.n PublicKey.new].
      change (bigInt.bitLength 1) with 1. change (0 <=? 1) with true.
      assert (2 <= bigInt.bitLength n / 2) by (apply Z.div_le_lower_bound; lia).
      destruct (Z.leb_spec 1 (bigInt.bitLength n / 2 - 1)); [|lia].
      cbn [andb bind fst snd].
      unfold bindR at 1. cbn [BigMath.generateCoprime draw].
      change (bigInt.bitLength 1) with 1. change (0 <? 1) with true. rewrite Z.gcd_1_l.
      change (1 =? 1) with true.
      destruct (Z.leb_spec 1 (bigInt.bitLength n - 1)); [|lia].
      cbn [andb bind fst snd].
      unfold bindR at 1, liftR at 1. cbn [PublicKey.nSquared PublicKey.new].
      rewrite modPow_spec by lia. cbn [bind fst snd].
      unfold bindR at 1, liftR at 1. rewrite modPow_spec by lia. cbn [bind fst snd].
      destruct (modInv_spec (ui ^ 1 mod (n * n)) (n * n)) as (inv & Einv & Hinv & _); try lia.
      { apply Z.mod_pos_bound. lia. }
      { apply Z.coprime_mod_l_iff. now rewrite Z.pow_1_r. }
      unfold bindR at 1, liftR at 1. rewrite Einv. cbn [bind fst snd].
      unfold bindR at 1, liftR at 1.
      pose proof (Z.mod_pos_bound (1 ^ n) (n * n) ltac:(lia)).
      rewrite mod_nonneg by (try apply Z.mul_nonneg_nonneg; lia). cbn [bind fst snd].
      apply IH. lia.
Qed.

Lemma built_present (m c omega : Z) (pub : PublicKey.t) (l : list Z) (ra re rz : jsarray) :
  built m c omega pub l ra re rz ->
  Forall (fun x => 0 <= x) (present re) /\
  ((exists x, In x l /\ x <> m) -> present re <> []).
Proof.
  induction 1 as [|mi rest ai ei zi ra re rz Hne Hei Hok Hb [IH1 IH2]
                  |rest ai ra re rz Ha Hb [IH1 IH2]]; cbn [present].
  - split; [constructor|]. intros (x & [] & _).
  - split; [now constructor|discriminate].
  - split; [assumption|]. intros (x & [<-|Hin] & Hx); [congruence|]. apply IH2. eauto.
Qed.

Lemma mk_after_nonneg (m : Z) (l : list Z) :
  forall i mk, In m l \/ 0 <= mk -> 0 <= mk_after m l i mk.
Proof.
  induction l as [|x l IH]; intros i mk Hin; cbn [mk_after].
  - destruct Hin as [[]|]; assumption.
  - apply IH. destruct (Z.eqb_spec x m) as [->|Hne]; [right; lia|].
    destruct Hin as [[->|Hin]|Hmk]; [congruence|now left|now right].
Qed.

(** For every valid set that holds [m] and another message,
    [encryptWithZkp] returns on the tape of ones. *)
Lemma encryptWithZkp_ones (H : jsarray -> Z) (n m : Z) (valid : list Z) (N : nat) :
  8 <= n -> 0 <= m < n -> In m valid -> (exists x, In x valid /\ x <> m) ->
  (2 * List.length valid + 2 <= N)%nat ->
  exists c commitment tape',
    encryptWithZkp H m valid (PublicKey.new n (n + 1)) (repeat 1 N)
    = Returned ((c, commitment), tape').
Proof.
  intros Hn Hm Hin Hother HN.
  destruct N as [|[|N]]; try lia.
  assert (Hg1 : Z.gcd 1 n = 1) by apply Z.gcd_1_l.
  pose proof (ciphertext_range n m 1 ltac:(lia)) as Hcr.
  pose proof (ciphertext_coprime n m 1 ltac:(lia) Hg1) as Hcco.
  unfold encryptWithZkp, bindR at 1, encryptWithoutR, bindR at 1.
  rewrite sampleUnit_ones by lia. cbn [bind fst snd].
  unfold liftR at 1. rewrite encryptWithR_spec by lia. cbn [bind fst snd].
  unfold bindR at 1, createZkp, bindR at 1.
  rewrite sampleUnit_ones by lia. cbn [bind fst snd].
  destruct (createZkp_loop_ones n m (ciphertext n m 1) 1 valid Hn ltac:(lia) Hcco ltac:(lia)
              0%nat (ZkpCommitment.new (List.length valid)) (-1) N ltac:(lia))
    as (cm0 & mk & N' & Hloop).
  unfold bindR at 1. rewrite Hloop. cbn [bind fst snd].
  apply (createZkp_loop_built n m (ciphertext n m 1) 1 ltac:(lia) ltac:(lia) Hcco valid
           [] [] []) in Hloop; [|reflexivity|reflexivity].
  destruct Hloop as (ra & re & rz & -> & Hbuilt & ->). cbn [app List.length].
  pose proof (mk_after_nonneg m valid 0 (-1) (or_introl Hin)) as Hmk.
  destruct (Z.ltb_spec (mk_after m valid 0 (-1)) 0); [lia|].
  destruct (built_present m _ 1 _ valid ra re rz Hbuilt) as [Hpos Hne].
  unfold liftR. cbn [ZkpCommitment.a ZkpCommitment.e ZkpCommitment.z].
  rewrite reduce_add_total by auto. cbn [bind].
  pose proof (total_nonneg _ Hpos).
  rewrite mod_nonneg by (try reflexivity; lia). cbn [bind].
  cbn [PublicKey.n PublicKey.new].
  rewrite modPow_spec; try lia; [|apply Z.mod_pos_bound; reflexivity]. cbn [bind].
  match goal with |- context [1 ^ ?e mod n] =>
    pose proof (Z.mod_pos_bound (1 ^ e) n ltac:(lia)) end.
  rewrite mod_nonneg by (try apply Z.mul_nonneg_nonneg; lia).
  unfold retR. cbn [bind fst snd]. eexists _, _, _. reflexivity.
Qed.

(** Completeness, with the run: for every valid set of at least two
    messages in which [m] occurs once there is a run of
    [encryptWithZkp] that returns, and [verifyZkp] accepts what any run
    returns. *)
Corollary zkp_completeness_run (H : jsarray -> Z) (n m : Z) (valid : list Z) :
  (forall arr, 0 <= H arr < 2 ^ 256) ->
  8 <= n -> 0 <= m < n ->
  count_occ Z.eq_dec valid m = 1%nat -> (2 <= List.length valid)%nat ->
  exists tape c commitment tape',
    encryptWithZkp H m valid (PublicKey.new n (n + 1)) tape
    = Returned ((c, commitment), tape') /\
    verifyZkp H c valid commitment (PublicKey.new n (n + 1)) = Returned true.
Proof.
  intros Hhash Hn Hm Honce Hlen.
  destruct (exactly_once_split m valid Honce) as (pre & post & E & Hpre & Hpost).
  assert (Hin : In m valid) by (rewrite E; apply in_elt).
  assert (Hother : exists x, In x valid /\ x <> m).
  { rewrite E in Hlen |- *. rewrite length_app in Hlen. cbn [List.length] in Hlen.
    destruct pre as [|x pre].
    - destruct post as [|x post]; [cbn in Hlen; lia|].
      exists x. split; [cbn; auto|]. intros ->. apply Hpost. now left.
    - exists x. split; [now left|]. intros ->. apply Hpre. now left. }
  destruct (encryptWithZkp_ones H n m valid (2 * List.length valid + 2) Hn Hm Hin Hother
              ltac:(lia)) as (c & cm & tape' & Hrun).
  exists (repeat 1 (2 * List.length valid + 2)), c, cm, tape'. split; [assumption|].
  apply (zkp_completeness H n m valid (repeat 1 (2 * List.length valid + 2)) tape' c cm);
    trivial; lia.
Qed.

(** ** The vote codec *)

Lemma toInt32_range (x : Z) : - 2 ^ 31 <= toInt32 x < 2 ^ 31.
Proof.
  unfold toInt32. pose proof (Z.mod_pos_bound x (2 ^ 32) ltac:(lia)).
  destruct (Z.leb_spec (2 ^ 31) (x mod 2 ^ 32)); lia.
Qed.

Lemma toInt32_small (x : Z) : 0 <= x < 2 ^ 31 -> toInt32 x = x.
Proof.
  intros Hx. unfold toInt32. rewrite Z.mod_small by lia.
  destruct (Z.leb_spec (2 ^ 31) x); lia.
Qed.

(** A 32-bit shift never reaches the safe-integer maximum. *)
Lemma js_shl_lt_MAX_SAFE_INTEGER (x s : Z) : js_shl x s < MAX_SAFE_INTEGER.
Proof.
  unfold js_shl, MAX_SAFE_INTEGER. pose proof (toInt32_range (Z.shiftl (toInt32 x) (s mod 32))).
  lia.
Qed.

Lemma js_shl_1_small (b : Z) : 0 <= b <= 30 -> js_shl 1 b = 2 ^ b.
Proof.
  intros Hb. unfold js_shl. rewrite (toInt32_small 1) by lia.
  rewrite Z.mod_small by lia. rewrite Z.shiftl_1_l.
  apply toInt32_small. split; [apply Z.pow_nonneg; lia|].
  apply Z.pow_lt_mono_r; lia.
Qed.

(** C9, at the failing input and in general. The guard
    [2 << (bitsPerChoice - 1) >= MAX_SAFE_INTEGER] is never taken:
    [encodeSingle] never fails with "Too big voting space", and for
    [bitsPerChoice = 54], where [2^54] exceeds the safe-integer maximum,
    it returns an encoding. *)
Theorem encodeSingle_guard_never_taken :
  (forall choice numChoices bitsPerChoice bin numBins,
      encodeSingle choice numChoices bitsPerChoice bin numBins
      <> Threw too_big_voting_space) /\
  MAX_SAFE_INTEGER < 2 ^ 54 /\
  js_shl 2 (54 - 1) = 4194304 /\
  encodeSingle 0 2 54 0 0 = Returned 1.
Proof.
  split; [|repeat split; reflexivity].
  intros choice numChoices bitsPerChoice bin numBins. unfold encodeSingle.
  destruct (_ || _); [discriminate|].
  destruct (_ && _); [discriminate|].
  destruct (bitsPerChoice <? 2); [discriminate|].
  pose proof (js_shl_lt_MAX_SAFE_INTEGER 2 (bitsPerChoice - 1)).
  destruct (Z.leb_spec MAX_SAFE_INTEGER (js_shl 2 (bitsPerChoice - 1))); [lia|].
  unfold bigInt.shiftLeft. destruct (_ <? _); discriminate.
Qed.

(** C8, at the failing input. [bitsPerChoice = 33] passes the validation
    of both functions ([2^33] is a safe integer), and the decoded array
    is all zeros: the mask [(1 << 32) - 1] is [0]. *)
Theorem decode_encodeSingle_33 :
  2 ^ 33 <= MAX_SAFE_INTEGER /\
  encodeSingle 0 2 33 0 0 = Returned 1 /\
  js_shl 1 (33 - 1) - 1 = 0 /\
  (encoded <- encodeSingle 0 2 33 0 0 ;; decode encoded 2 33)
  = Returned [Some 0; Some 0].
Proof. repeat split; try reflexivity. unfold MAX_SAFE_INTEGER. lia. Qed.

(** *** The round trip for fields of at most 31 bits *)

Lemma arr_set_next (done : list Z) (count : nat) (v : Z) :
  arr_set (map Some done ++ repeat None (S count)) (List.length done) v
  = map Some (done ++ [v]) ++ repeat None count.
Proof.
  induction done as [|x done IH]; [reflexivity|].
  cbn [List.length map app arr_set]. now rewrite IH.
Qed.

(** The loop of [decode] fills the array with the fields of [encoded],
    as long as the shift counts stay within the reach of the package. *)
Lemma decode_loop_spec (encoded bitsPerChoice : Z) (total : Z) (count : nat) :
  forall done : list Z,
    Z.of_nat (List.length done + count) = total ->
    0 <= bitsPerChoice -> total * bitsPerChoice <= 10000000 ->
    decode_loop count (Z.of_nat (List.length done)) encoded bitsPerChoice
      (map Some done ++ repeat None count)
    = Returned
        (map Some
           (done ++ map (field encoded bitsPerChoice (js_shl 1 (bitsPerChoice - 1) - 1))
                      (seq (List.length done) count))).
Proof.
  induction count as [|count IH]; intros done Htot HB Hsmall.
  - cbn [decode_loop seq map repeat]. now rewrite !app_nil_r.
  - cbn [decode_loop seq map]. unfold bigInt.shiftRight.
    assert (Hidx : 0 <= Z.of_nat (List.length done) * bitsPerChoice <= 10000000) by nia.
    destruct (Z.ltb_spec 10000000 (Z.abs (Z.of_nat (List.length done) * bitsPerChoice)));
      [lia|].
    cbn [bind]. rewrite Nat2Z.id, arr_set_next.
    replace (Z.of_nat (List.length done) + 1)
      with (Z.of_nat (List.length (done ++ [bigInt.and
              (Z.shiftr encoded (Z.of_nat (List.length done) * bitsPerChoice))
              (js_shl 1 (bitsPerChoice - 1) - 1)])))
      by (rewrite length_app; cbn [List.length]; lia).
    rewrite IH by (try rewrite length_app; cbn [List.length]; lia).
    rewrite length_app. cbn [List.length]. rewrite Nat.add_1_r, <- app_assoc. reflexivity.
Qed.

(** The fields of the encoding of one choice, under the mask
    [2^(bitsPerChoice - 1) - 1]. *)
Lemma field_of_power (bitsPerChoice : Z) (choice i : nat) :
  2 <= bitsPerChoice ->
  field (Z.shiftl 1 (bitsPerChoice * Z.of_nat choice)) bitsPerChoice
    (2 ^ (bitsPerChoice - 1) - 1) i
  = if Nat.eqb i choice then 1 else 0.
Proof.
  intros HB. unfold field. rewrite Z.shiftl_1_l.
  replace (2 ^ (bitsPerChoice - 1) - 1) with (Z.ones (bitsPerChoice - 1))
    by (rewrite Z.ones_equiv; lia).
  rewrite Z.land_ones by lia.
  destruct (Nat.eqb_spec i choice) as [->|Hne].
  - rewrite Z.shiftr_div_pow2 by nia. rewrite (Z.mul_comm bitsPerChoice).
    rewrite Z.div_same by (apply Z.pow_nonzero; nia).
    apply Z.mod_small. split; [lia|]. apply Z.pow_gt_1; lia.
  - destruct (Nat.lt_ge_cases i choice) as [Hlt|Hge].
    + rewrite Z.shiftr_div_pow2 by nia.
      replace (bitsPerChoice * Z.of_nat choice)
        with (bitsPerChoice * (Z.of_nat choice - Z.of_nat i - 1) + 1 + (bitsPerChoice - 1)
              + Z.of_nat i * bitsPerChoice) by ring.
      rewrite (Z.pow_add_r _ _ (Z.of_nat i * _)) by nia.
      rewrite Z.div_mul by (apply Z.pow_nonzero; nia).
      rewrite Z.pow_add_r by nia. apply Z_mod_mult.
    + rewrite Z.shiftr_div_pow2 by nia.
      rewrite Z.div_small; [apply Z.mod_0_l; apply Z.pow_nonzero; lia|].
      split; [apply Z.pow_nonneg; lia|]. apply Z.pow_lt_mono_r; nia.
Qed.

(** X11. For [2 <= bitsPerChoice <= 31], and shift counts within the
    reach of the BigInteger package, [decode] of [encodeSingle] has a 1 at
    [choice] and 0 elsewhere. *)
Lemma decode_encodeSingle_upto_31 (choice numChoices bitsPerChoice : Z) :
  0 <= choice < numChoices -> 2 <= numChoices ->
  2 <= bitsPerChoice <= 31 -> numChoices * bitsPerChoice <= 10000000 ->
  (encoded <- encodeSingle choice numChoices bitsPerChoice 0 0 ;;
   decode encoded numChoices bitsPerChoice)
  = Returned
      (map (fun i => Some (if Nat.eqb i (Z.to_nat choice) then 1 else 0))
         (seq 0 (Z.to_nat numChoices))).
Proof.
  intros Hc HC HB Hsmall. unfold encodeSingle.
  destruct (Z.leb_spec numChoices choice); [lia|].
  destruct (Z.ltb_spec numChoices 2); [lia|]. cbn [orb andb].
  change (0 <? 0) with false. cbn [andb].
  destruct (Z.ltb_spec bitsPerChoice 2); [lia|].
  pose proof (js_shl_lt_MAX_SAFE_INTEGER 2 (bitsPerChoice - 1)).
  destruct (Z.leb_spec MAX_SAFE_INTEGER (js_shl 2 (bitsPerChoice - 1))); [lia|].
  unfold bigInt.shiftLeft. rewrite Z.mul_0_l, Z.add_0_l.
  destruct (Z.ltb_spec 10000000 (Z.abs (bitsPerChoice * choice))); [nia|]. cbn [bind].
  unfold decode.
  destruct (Z.leb_spec MAX_SAFE_INTEGER (js_shl 2 (bitsPerChoice - 1))); [lia|].
  unfold new_Array_of_length.
  destruct (Z.ltb_spec numChoices 0); [lia|].
  destruct (Z.leb_spec (2 ^ 32) numChoices); [nia|]. cbn [orb bind].
  pose proof (decode_loop_spec (Z.shiftl 1 (bitsPerChoice * choice)) bitsPerChoice
                numChoices (Z.to_nat numChoices) []) as Hloop.
  cbn [List.length map app Nat.add] in Hloop. change (Z.of_nat 0) with 0 in Hloop.
  unfold new_Array.
  rewrite Hloop by lia. f_equal. rewrite map_map. apply map_ext. intros i.
  rewrite js_shl_1_small by lia.
  rewrite <- (Z2Nat.id choice) at 1 by lia. now rewrite field_of_power by lia.
Qed.

(** * Further properties *)

(** ** Homomorphic operations under decryption *)

(** What [encrypt] returns under a valid key is a ciphertext of [m]. *)
Lemma encrypts_encrypt (pub : PublicKey.t) (priv : PrivateKey.t) (m : Z) tape c tape' :
  valid_key_pair pub priv -> 0 <= m < PublicKey.n pub ->
  encrypt m pub tape = Returned (c, tape') ->
  encrypts (PublicKey.n pub) c m.
Proof.
  intros Hv Hm He. destruct (valid_key_pair_pub pub priv Hv) as [Hn _].
  destruct (encrypt_valid pub priv m tape c tape' Hv Hm He) as (r & Hg & Hr & ->).
  split; [now apply ciphertext_range|]. exists r. split; [assumption|apply ciphertext_cong].
Qed.

(** [decrypt] recovers the plaintext of every ciphertext, modulo [n]. *)
Lemma decrypt_encrypts (pub : PublicKey.t) (priv : PrivateKey.t) (c m : Z) :
  valid_key_pair pub priv -> encrypts (PublicKey.n pub) c m ->
  decrypt c pub priv = Returned (m mod PublicKey.n pub).
Proof.
  intros Hv (Hc & y & Hy & Hcong). now apply decrypt_core with y.
Qed.

(** The three operations on ciphertexts. *)
Lemma encrypts_addEncrypted (n g c1 c2 m1 m2 : Z) :
  1 < n -> encrypts n c1 m1 -> encrypts n c2 m2 ->
  exists c, addEncrypted c1 c2 (PublicKey.new n g) = Returned c /\ encrypts n c (m1 + m2).
Proof.
  intros Hn (Hc1 & y1 & Hy1 & E1) (Hc2 & y2 & Hy2 & E2).
  assert (Hnn : 1 < n * n) by nia.
  exists ((c1 * c2) mod (n * n)). split.
  - unfold addEncrypted. cbn [PublicKey.nSquared PublicKey.new].
    apply mod_nonneg; [apply Z.mul_nonneg_nonneg; lia|lia].
  - split; [apply Z.mod_pos_bound; lia|]. exists (y1 * y2). split.
    + now apply Z.coprime_mul_l.
    + rewrite Z.mod_mod by lia. rewrite (cong_mul _ _ _ _ (n * n) E1 E2).
      apply cong_of_divide; [lia|].
      exists (m1 * m2 * y1 ^ n * y2 ^ n). rewrite Z.pow_mul_l. ring.
Qed.

Lemma encrypts_addScalar (n c m k : Z) :
  1 < n -> 0 <= k -> encrypts n c m ->
  exists c', addScalar c k (PublicKey.new n (n + 1)) = Returned c' /\ encrypts n c' (m + k).
Proof.
  intros Hn Hk (Hc & y & Hy & E).
  assert (Hnn : 1 < n * n) by nia.
  pose proof (Z.mod_pos_bound ((n + 1) ^ k) (n * n) ltac:(lia)) as Hg.
  exists ((c * ((n + 1) ^ k mod (n * n))) mod (n * n)). split.
  - unfold addScalar. cbn [PublicKey.nSquared PublicKey.g PublicKey.new].
    rewrite modPow_spec by lia. cbn [bind].
    apply mod_nonneg; [apply Z.mul_nonneg_nonneg; lia|lia].
  - split; [apply Z.mod_pos_bound; lia|]. exists y. split; [assumption|].
    rewrite Z.mod_mod by lia.
    assert (Eg : ((n + 1) ^ k mod (n * n)) mod (n * n) = (1 + n * k) mod (n * n)).
    { rewrite Z.mod_mod by lia. replace (n + 1) with (1 + n * 1) by ring.
      rewrite pow_one_plus by lia. now rewrite Z.mul_1_r. }
    rewrite (cong_mul _ _ _ _ (n * n) E Eg).
    apply cong_of_divide; [lia|]. exists (m * k * y ^ n). ring.
Qed.

Lemma encrypts_mulScalar (n g c m k : Z) :
  1 < n -> 0 <= k -> encrypts n c m ->
  exists c', mulScalar c k (PublicKey.new n g) = Returned c' /\ encrypts n c' (k * m).
Proof.
  intros Hn Hk (Hc & y & Hy & E).
  assert (Hnn : 1 < n * n) by nia.
  exists (c ^ k mod (n * n)). split.
  - unfold mulScalar. cbn [PublicKey.nSquared PublicKey.new]. apply modPow_spec; lia.
  - split; [apply Z.mod_pos_bound; lia|]. exists (y ^ k). split.
    + apply Z.coprime_pow_l; [lia|assumption].
    + rewrite Z.mod_mod by lia. rewrite (cong_pow _ _ (n * n) k E).
      rewrite Z.pow_mul_l. rewrite <- !Z.pow_mul_r by lia. rewrite (Z.mul_comm n k).
      apply cong_mul; [|reflexivity]. now apply pow_one_plus; lia.
Qed.

(** X4. Under a valid key pair, for a ciphertext [c] that [encrypt]
    returned for [0 <= m < n] and a scalar [k >= 0], [addScalar] returns
    and its result decrypts to [(m + k) mod n]. *)
Theorem decrypt_addScalar (pub : PublicKey.t) (priv : PrivateKey.t) (m k : Z)
  (tape tape' : list Z) (c : Z) :
  valid_key_pair pub priv -> 0 <= m < PublicKey.n pub -> 0 <= k ->
  encrypt m pub tape = Returned (c, tape') ->
  exists c', addScalar c k pub = Returned c' /\
        decrypt c' pub priv = Returned ((m + k) mod PublicKey.n pub).
Proof.
  intros Hv Hm Hk He. destruct (valid_key_pair_pub pub priv Hv) as [Hn Hpub].
  pose proof (encrypts_encrypt pub priv m tape c tape' Hv Hm He) as Henc.
  destruct (encrypts_addScalar _ c m k Hn Hk Henc) as (c' & Hadd & Henc').
  rewrite <- Hpub in Hadd. exists c'. split; [assumption|]. now apply decrypt_encrypts.
Qed.

(** X5. Under a valid key pair, for a ciphertext [c] that [encrypt]
    returned for [0 <= m < n] and a scalar [k >= 0], [mulScalar] returns
    and its result decrypts to [(k m) mod n]. *)
Theorem decrypt_mulScalar (pub : PublicKey.t) (priv : PrivateKey.t) (m k : Z)
  (tape tape' : list Z) (c : Z) :
  valid_key_pair pub priv -> 0 <= m < PublicKey.n pub -> 0 <= k ->
  encrypt m pub tape = Returned (c, tape') ->
  exists c', mulScalar c k pub = Returned c' /\
        decrypt c' pub priv = Returned ((k * m) mod PublicKey.n pub).
Proof.
  intros Hv Hm Hk He. destruct (valid_key_pair_pub pub priv Hv) as [Hn Hpub].
  pose proof (encrypts_encrypt pub priv m tape c tape' Hv Hm He) as Henc.
  destruct (encrypts_mulScalar _ (PublicKey.n pub + 1) c m k Hn Hk Henc)
    as (c' & Hmul & Henc').
  rewrite <- Hpub in Hmul. exists c'. split; [assumption|]. now apply decrypt_encrypts.
Qed.

(** The aggregation loop keeps a ciphertext of the running sum. *)
Lemma aggregate_encrypts (n g : Z) (cs ms : list Z) :
  1 < n -> Forall2 (encrypts n) cs ms ->
  forall sum m0, encrypts n sum m0 ->
  exists c, aggregate sum cs (PublicKey.new n g) = Returned c /\
       encrypts n c (m0 + total ms).
Proof.
  intros Hn Hall. induction Hall as [|c m cs ms Hc _ IH]; intros sum m0 Hsum.
  - exists sum. cbn [aggregate total fold_right]. now rewrite Z.add_0_r.
  - cbn [aggregate].
    destruct (encrypts_addEncrypted n g sum c m0 m Hn Hsum Hc) as (sum' & -> & Hsum').
    cbn [bind]. destruct (IH sum' (m0 + m) Hsum') as (c' & Hagg & Henc).
    exists c'. split; [assumption|].
    replace (m0 + total (m :: ms)) with (m0 + m + total ms); [assumption|].
    unfold total. cbn [fold_right]. ring.
Qed.

(** X6. Under a valid key pair, folding [addEncrypted] over ciphertexts
    that [encrypt] returned for the plaintexts [ms], from a ciphertext of
    [m0], returns a ciphertext that decrypts to the sum of all the
    plaintexts modulo [n]. *)
Theorem decrypt_aggregate (pub : PublicKey.t) (priv : PrivateKey.t)
  (m0 : Z) (ms : list Z) (c0 : Z) (cs : list Z) (tape0 tape0' : list Z) :
  valid_key_pair pub priv ->
  0 <= m0 < PublicKey.n pub -> encrypt m0 pub tape0 = Returned (c0, tape0') ->
  Forall2 (fun m c => 0 <= m < PublicKey.n pub /\
                      exists tape tape', encrypt m pub tape = Returned (c, tape')) ms cs ->
  exists sum, aggregate c0 cs pub = Returned sum /\
         decrypt sum pub priv = Returned ((m0 + total ms) mod PublicKey.n pub).
Proof.
  intros Hv Hm0 He0 Hall. destruct (valid_key_pair_pub pub priv Hv) as [Hn Hpub].
  assert (Henc : Forall2 (encrypts (PublicKey.n pub)) cs ms).
  { induction Hall as [|m c ms cs (Hm & tape & tape' & He) _ IH]; constructor; [|exact IH].
    now apply (encrypts_encrypt pub priv m tape c tape'). }
  destruct (aggregate_encrypts _ (PublicKey.n pub + 1) cs ms Hn Henc c0 m0
              (encrypts_encrypt pub priv m0 tape0 c0 tape0' Hv Hm0 He0))
    as (sum & Hagg & Hsum).
  rewrite <- Hpub in Hagg. exists sum. split; [assumption|]. now apply decrypt_encrypts.
Qed.


(** ** Key generation *)

Lemma bindR_not_Threw {A B : Type} (x : Rand A) (k : A -> Rand B) :
  (forall tape e, x tape <> Threw e) -> (forall a tape e, k a tape <> Threw e) ->
  forall tape e, bindR x k tape <> Threw e.
Proof.
  intros Hx Hk tape e. unfold bindR.
  destruct (x tape) as [[a tape']| |] eqn:E; cbn [bind fst snd]; try discriminate.
  - apply Hk.
  - now apply Hx in E.
Qed.

Lemma samplePrimes_not_Threw (isPrime : Z -> bool) (bits : Z) (tape : list Z) (e : exn) :
  samplePrimes isPrime bits tape <> Threw e.
Proof.
  unfold samplePrimes. apply doWhile_not_Threw. clear tape e.
  apply bindR_not_Threw; [|discriminate].
  apply doWhile_not_Threw.
  apply bindR_not_Threw; [intros; apply draw_not_Threw|]. intros p.
  apply bindR_not_Threw; [intros; apply draw_not_Threw|]. discriminate.
Qed.

Lemma divide_Threw (a b : Z) (e : exn) : bigInt.divide a b = Threw e -> facade_error e.
Proof.
  unfold bigInt.divide. destruct (b =? 0); [|discriminate].
  intros E. injection E as <-. now left.
Qed.

(** The computation of the key throws only what the BigInteger package
    throws. *)
Lemma keyPairOf_Threw (p q n : Z) (e : exn) :
  keyPairOf p q n = Threw e -> facade_error e.
Proof.
  unfold keyPairOf. intros E.
  destruct (bigInt.divide _ _) as [lambda| |] eqn:E1; cbn [bind] in E; try discriminate.
  2: { injection E as <-. now apply divide_Threw in E1. }
  destruct (bigInt.modPow _ _ _) as [u| |] eqn:E2; cbn [bind] in E; try discriminate.
  2: { injection E as <-. now apply modPow_Threw in E2. }
  destruct (bigInt.divide (u - 1) n) as [u2| |] eqn:E3; cbn [bind] in E; try discriminate.
  2: { injection E as <-. now apply divide_Threw in E3. }
  destruct (bigInt.modInv u2 n) as [mu| |] eqn:E4; cbn [bind] in E; try discriminate.
  injection E as <-. now apply modInv_Threw in E4.
Qed.

(** X1. [generateKeyPair(bits)] fails with "Key must be at least 160
    bits" exactly when [bits] is not a multiple of 8 or is below 160,
    whatever the randomness. *)
Theorem generateKeyPair_bad_parameter (isPrime : Z -> bool) (bits : Z) (tape : list Z) :
  generateKeyPair isPrime bits tape = Threw BadKeyParameter <->
  0 < Z.rem bits 8 \/ bits < 160.
Proof.
  unfold generateKeyPair.
  destruct (Z.ltb_spec 0 (Z.rem bits 8)) as [H8|H8]; cbn [orb].
  { split; [now left|reflexivity]. }
  destruct (Z.ltb_spec bits 160) as [H160|H160].
  { split; [now right|reflexivity]. }
  split; [|lia]. intros E. exfalso. unfold bindR in E.
  destruct (samplePrimes isPrime bits tape) as [[pqn tape']| |] eqn:Es;
    cbn [bind fst snd] in E; try discriminate.
  - unfold liftR in E.
    destruct (keyPairOf _ _ _) as [kp| |] eqn:Ek; cbn [bind] in E; try discriminate.
    injection E as ->. apply keyPairOf_Threw in Ek.
    now apply (facade_error_not_RangeError _ "Key must be at least 160 bits" Ek).
  - now apply samplePrimes_not_Threw in Es.
Qed.

(** The exponent that [generateKeyPair] computes is the least common
    multiple of [p - 1] and [q - 1]. *)
Lemma carmichael_lcm (p q : Z) : 1 < p -> 1 < q -> carmichael p q = Z.lcm (p - 1) (q - 1).
Proof.
  intros Hp Hq. unfold carmichael, Z.lcm.
  pose proof (Z.gcd_nonneg (p - 1) (q - 1)) as Hg.
  assert (Hg0 : Z.gcd (p - 1) (q - 1) <> 0).
  { intros E. apply Z.gcd_eq_0_l in E. lia. }
  rewrite Z.divide_div_mul_exact by (trivial; apply Z.gcd_divide_r).
  symmetry. apply Z.abs_eq. apply Z.mul_nonneg_nonneg; [lia|].
  apply Z.div_pos; lia.
Qed.

(** X2. Every key pair that [generateKeyPair(bits)] returns, for a sound
    primality test: [n] is the product of two distinct primes and has
    exactly [bits] bits, [g = n + 1], [nSquared = n^2],
    [lambda = lcm(p - 1, q - 1)] is prime to [n], and [mu] is the inverse
    of [lambda] modulo [n], in [[0, n)]. *)
Theorem generateKeyPair_key_shape (isPrime : Z -> bool) (bits : Z) (tape tape' : list Z)
  (pub : PublicKey.t) (priv : PrivateKey.t) :
  (forall x, isPrime x = true -> Z.prime x) ->
  generateKeyPair isPrime bits tape = Returned ((pub, priv), tape') ->
  exists p q,
    Z.prime p /\ Z.prime q /\ p <> q /\
    PublicKey.n pub = p * q /\
    bigInt.bitLength (PublicKey.n pub) = bits /\
    PublicKey.g pub = PublicKey.n pub + 1 /\
    PublicKey.nSquared pub = PublicKey.n pub * PublicKey.n pub /\
    PrivateKey.lambda priv = Z.lcm (p - 1) (q - 1) /\
    Z.gcd (PrivateKey.lambda priv) (PublicKey.n pub) = 1 /\
    0 <= PrivateKey.mu priv < PublicKey.n pub /\
    (PrivateKey.mu priv * PrivateKey.lambda priv) mod PublicKey.n pub = 1.
Proof.
  intros Hsound Hgen.
  destruct (generateKeyPair_valid isPrime bits tape pub priv tape' Hsound Hgen)
    as (Hv & _ & _ & Hlen).
  apply valid_key_pair_inv in Hv. destruct Hv as (p & q & Hkey & Hpub & Hl & Hmu & Hinv).
  exists p, q. pose proof (carmichael_coprime p q Hkey) as Hco.
  destruct Hkey as [Pp Pq Hne _].
  pose proof (Z.prime_ge_2 p Pp). pose proof (Z.prime_ge_2 q Pq).
  rewrite Hl. rewrite Hpub in Hlen |- *. cbn [PublicKey.n PublicKey.g PublicKey.nSquared
                                                PublicKey.new] in *.
  repeat (split; [first [assumption|reflexivity|apply carmichael_lcm; lia]|]).
  assumption.
Qed.


(** ** Decryption *)

(** X3. For a modulus [n > 1] and a private key with [lambda, mu >= 0],
    [decrypt] fails with "ciphertext must be less than modulo n^2" for
    every [c >= n^2], and for every [0 <= c < n^2], a ciphertext or not,
    it returns a value in [[0, n)]. *)
Theorem decrypt_outcome (n g lambda mu c : Z) :
  1 < n -> 0 <= lambda -> 0 <= mu ->
  (n * n <= c ->
   decrypt c (PublicKey.new n g) (PrivateKey.new lambda mu) = Threw BadCiphertext) /\
  (0 <= c < n * n ->
   exists m, decrypt c (PublicKey.new n g) (PrivateKey.new lambda mu) = Returned m /\
        0 <= m < n).
Proof.
  intros Hn Hl Hmu. unfold decrypt.
  cbn [PublicKey.n PublicKey.nSquared PublicKey.new PrivateKey.lambda PrivateKey.mu].
  split; intros Hc.
  - destruct (Z.leb_spec (n * n) c); [reflexivity|lia].
  - destruct (Z.leb_spec (n * n) c); [lia|].
    assert (Hnn : 1 < n * n) by nia.
    rewrite modPow_spec by lia. cbn [bind].
    pose proof (Z.mod_pos_bound (c ^ lambda) (n * n) ltac:(lia)) as Hu.
    remember (c ^ lambda mod (n * n)) as u eqn:Eu.
    unfold bigInt.divide. destruct (Z.eqb_spec n 0); [lia|]. cbn [bind].
    assert (Hq : 0 <= Z.quot (u - 1) n).
    { destruct (Z.eq_dec u 0) as [->|Hu0].
      - change (0 - 1) with (- (1)). rewrite Z.quot_opp_l by lia.
        rewrite Z.quot_small by lia. lia.
      - apply Z.quot_pos; lia. }
    rewrite mod_nonneg by (try apply Z.mul_nonneg_nonneg; lia).
    eexists. split; [reflexivity|]. apply Z.mod_pos_bound. lia.
Qed.


(** ** Signatures *)

(** X10. A signature that [verifySignature] accepts for [m] is rejected
    for every message with a different hash. *)
Theorem verifySignature_other_message (H : Z -> Z) (m m' : Z) (sig : Signature.t)
  (pub : PublicKey.t) :
  verifySignature H m sig pub = Returned true -> H m' <> H m ->
  verifySignature H m' sig pub = Returned false.
Proof.
  unfold verifySignature. intros Hok Hne.
  destruct (bigInt.modPow (PublicKey.g pub) _ _) as [gs1| |]; cbn [bind] in *;
    try discriminate.
  destruct (bigInt.modPow (Signature.s2 sig) _ _) as [s2n| |]; cbn [bind] in *;
    try discriminate.
  destruct (bigInt.mod_ _ _) as [hm| |]; cbn [bind] in *; try discriminate.
  injection Hok as Hok. apply Z.eqb_eq in Hok. subst hm.
  f_equal. apply Z.eqb_neq. congruence.
Qed.


(** ** Membership proofs *)

(** X9. A commitment whose [e] array holds no element, the empty
    commitment for an empty valid set included, makes [verifyZkp] throw:
    the length guard fires or [reduce] raises a [TypeError]; it never
    answers [true] or [false]. *)
Theorem verifyZkp_without_challenges (H : jsarray -> Z) (c : Z) (valid : list Z)
  (commitment : ZkpCommitment.t) (pub : PublicKey.t) :
  present (ZkpCommitment.e commitment) = [] ->
  verifyZkp H c valid commitment pub = Threw MalformedCommitment \/
  verifyZkp H c valid commitment pub = Threw TypeError.
Proof.
  intros He. unfold verifyZkp. destruct (negb _); [now left|right].
  unfold reduce_add. rewrite He. reflexivity.
Qed.

(** The index [mk] that the loop of [createZkp] leaves. *)
Lemma createZkp_loop_mk (m c omega : Z) (pub : PublicKey.t) (rest : list Z) :
  forall (i : nat) (commitment : ZkpCommitment.t) (mk : Z) (tape tape' : list Z)
    (commitment' : ZkpCommitment.t) (mk' : Z),
    createZkp_loop m c omega pub rest i commitment mk tape
    = Returned ((commitment', mk'), tape') ->
    mk' = mk_after m rest i mk.
Proof.
  induction rest as [|mi rest IH]; intros i cm mk tape tape' cm' mk' Hrun.
  - cbn [createZkp_loop] in Hrun. unfold retR in Hrun. now injection Hrun as _ <- _.
  - cbn [createZkp_loop mk_after] in Hrun |- *.
    apply bindR_Returned in Hrun. destruct Hrun as (ui & tape1 & _ & Hrun).
    destruct (Z.eqb_spec mi m) as [_|_]; cbn [negb] in Hrun.
    + apply bindR_Returned in Hrun. destruct Hrun as (ai & tape2 & _ & Hrun).
      now apply IH in Hrun.
    + apply bindR_Returned in Hrun. destruct Hrun as (ei & tape2 & _ & Hrun).
      apply bindR_Returned in Hrun. destruct Hrun as (zi & tape3 & _ & Hrun).
      apply bindR_Returned in Hrun. destruct Hrun as (zin & tape4 & _ & Hrun).
      apply bindR_Returned in Hrun. destruct Hrun as (uiei & tape5 & _ & Hrun).
      apply bindR_Returned in Hrun. destruct Hrun as (inv & tape6 & _ & Hrun).
      apply bindR_Returned in Hrun. destruct Hrun as (ai & tape7 & _ & Hrun).
      now apply IH in Hrun.
Qed.

(** X8. When [m] is not in the valid set, [encryptWithZkp] never returns
    a commitment, and on the tape of ones it fails with "Message m isn't
    included in the list of valid messages". *)
Theorem encryptWithZkp_not_in_valid_set (H : jsarray -> Z) (n m : Z) (valid : list Z)
  (N : nat) :
  8 <= n -> 0 <= m < n -> ~ In m valid -> (2 * List.length valid + 2 <= N)%nat ->
  (forall tape c commitment tape',
      encryptWithZkp H m valid (PublicKey.new n (n + 1)) tape
      <> Returned ((c, commitment), tape')) /\
  encryptWithZkp H m valid (PublicKey.new n (n + 1)) (repeat 1 N) = Threw NotInValidSet.
Proof.
  intros Hn Hm Hnot HN. split.
  - intros tape c cm tape' Hrun. unfold encryptWithZkp in Hrun.
    apply bindR_Returned in Hrun. destruct Hrun as ([c0 r] & tape1 & _ & Hrun).
    apply bindR_Returned in Hrun. destruct Hrun as (cm0 & tape2 & Hzkp & _).
    cbn [fst snd] in Hzkp. unfold createZkp in Hzkp.
    apply bindR_Returned in Hzkp. destruct Hzkp as (omega & tape3 & _ & Hzkp).
    apply bindR_Returned in Hzkp. destruct Hzkp as ([cm1 mk] & tape4 & Hloop & Hzkp).
    apply createZkp_loop_mk in Hloop. rewrite mk_after_notin in Hloop by assumption.
    subst mk. cbn [fst snd] in Hzkp. discriminate Hzkp.
  - destruct N as [|[|N]]; try lia.
    assert (Hg1 : Z.gcd 1 n = 1) by apply Z.gcd_1_l.
    pose proof (ciphertext_range n m 1 ltac:(lia)) as Hcr.
    pose proof (ciphertext_coprime n m 1 ltac:(lia) Hg1) as Hcco.
    unfold encryptWithZkp, bindR at 1, encryptWithoutR, bindR at 1.
    rewrite sampleUnit_ones by lia. cbn [bind fst snd].
    unfold liftR at 1. rewrite encryptWithR_spec by lia. cbn [bind fst snd].
    unfold bindR at 1, createZkp, bindR at 1.
    rewrite sampleUnit_ones by lia. cbn [bind fst snd].
    destruct (createZkp_loop_ones n m (ciphertext n m 1) 1 valid Hn ltac:(lia) Hcco
                ltac:(lia) 0%nat (ZkpCommitment.new (List.length valid)) (-1) N ltac:(lia))
      as (cm0 & mk & N' & Hloop).
    unfold bindR at 1. rewrite Hloop. cbn [bind fst snd].
    apply createZkp_loop_mk in Hloop. rewrite mk_after_notin in Hloop by assumption.
    subst mk. reflexivity.
Qed.

(** X7. For a valid set of at least two messages in which [m] occurs
    once and a 256-bit hash, [encryptWithZkp] has a run that returns, and
    [verifyZkp] accepts the ciphertext and commitment of every run that
    returns. *)
Theorem encryptWithZkp_verifyZkp (H : jsarray -> Z) (n m : Z) (valid : list Z) :
  (forall arr, 0 <= H arr < 2 ^ 256) ->
  8 <= n -> 0 <= m < n ->
  count_occ Z.eq_dec valid m = 1%nat -> (2 <= List.length valid)%nat ->
  (exists tape c commitment tape',
      encryptWithZkp H m valid (PublicKey.new n (n + 1)) tape
      = Returned ((c, commitment), tape')) /\
  (forall tape c commitment tape',
      encryptWithZkp H m valid (PublicKey.new n (n + 1)) tape
      = Returned ((c, commitment), tape') ->
      verifyZkp H c valid commitment (PublicKey.new n (n + 1)) = Returned true).
Proof.
  intros Hhash Hn Hm Honce Hlen. split.
  - destruct (zkp_completeness_run H n m valid Hhash Hn Hm Honce Hlen)
      as (tape & c & cm & tape' & Hrun & _).
    now exists tape, c, cm, tape'.
  - intros tape c cm tape' Hrun.
    apply (zkp_completeness H n m valid tape tape' c cm); trivial; lia.
Qed.

(** X22. Under a valid key pair, the ciphertext that [encryptWithZkp]
    returns for [0 <= m < n] decrypts to [m]. *)
Theorem encryptWithZkp_decrypt (H : jsarray -> Z) (pub : PublicKey.t) (priv : PrivateKey.t)
  (m : Z) (valid : list Z) (tape tape' : list Z) (c : Z) (commitment : ZkpCommitment.t) :
  valid_key_pair pub priv -> 0 <= m < PublicKey.n pub ->
  encryptWithZkp H m valid pub tape = Returned ((c, commitment), tape') ->
  decrypt c pub priv = Returned m.
Proof.
  intros Hv Hm Hrun. unfold encryptWithZkp in Hrun.
  apply bindR_Returned in Hrun. destruct Hrun as ([c0 r] & tape1 & Henc & Hrun).
  apply bindR_Returned in Hrun. destruct Hrun as (cm & tape2 & _ & Hret).
  unfold retR in Hret. cbn [fst snd] in Hret. injection Hret as -> _ _.
  unfold encryptWithoutR in Henc.
  apply bindR_Returned in Henc. destruct Henc as (r0 & tape3 & Hs & Henc).
  apply liftR_Returned in Henc. destruct Henc as [Henc ->].
  assert (Hr : encryptWithR m pub r0 = Returned (c, r0)).
  { rewrite Henc. f_equal. f_equal. unfold encryptWithR in Henc.
    destruct (_ <=? _); [discriminate|].
    destruct (bigInt.mod_ _ _); cbn [bind] in Henc; try discriminate.
    destruct (bigInt.modPow _ _ _); cbn [bind] in Henc; try discriminate.
    destruct (bigInt.mod_ _ _); cbn [bind] in Henc; try discriminate.
    now injection Henc as _ <-. }
  pose proof (encrypt_of_sample m pub tape r0 tape3 c Hs Hr) as He.
  rewrite (decrypt_encrypts pub priv c m Hv (encrypts_encrypt pub priv m tape c tape3 Hv Hm He)).
  now rewrite Z.mod_small.
Qed.

(** X24. For a valid set of at least two messages in which [m] occurs
    once and a 256-bit hash, the commitment that [encryptWithZkp] returns
    has three arrays of [k] elements without holes, challenges [e] that
    are not negative, and the sum of the challenges is the hash of [a]
    modulo [2^256]. *)
Theorem encryptWithZkp_commitment_shape (H : jsarray -> Z) (n m : Z) (valid : list Z)
  (tape tape' : list Z) (c : Z) (commitment : ZkpCommitment.t) :
  (forall arr, 0 <= H arr < 2 ^ 256) ->
  1 < n -> 0 <= m < n ->
  count_occ Z.eq_dec valid m = 1%nat -> (2 <= List.length valid)%nat ->
  encryptWithZkp H m valid (PublicKey.new n (n + 1)) tape
  = Returned ((c, commitment), tape') ->
  exists la le lz,
    commitment = ZkpCommitment.mk (map Some la) (map Some le) (map Some lz) /\
    List.length la = List.length valid /\
    List.length le = List.length valid /\
    List.length lz = List.length valid /\
    Forall (fun e => 0 <= e) le /\
    total le mod 2 ^ 256 = H (map Some la).
Proof.
  intros Hhash Hn Hm Honce Hlen Hrun. set (pub := PublicKey.new n (n + 1)) in *.
  assert (Hnn : 1 < n * n) by nia.
  unfold encryptWithZkp in Hrun.
  apply bindR_Returned in Hrun. destruct Hrun as ([c0 r] & tape1 & Henc & Hrun).
  apply bindR_Returned in Hrun. destruct Hrun as (cm & tape2 & Hzkp & Hret).
  unfold retR in Hret. cbn [fst snd] in Hret, Hzkp. injection Hret as -> -> _.
  unfold encryptWithoutR in Henc.
  apply bindR_Returned in Henc. destruct Henc as (r0 & tape3 & Hs & Henc).
  apply liftR_Returned in Henc. destruct Henc as [Henc ->].
  pose proof (sampleUnit_Returned _ _ _ _ Hs) as [Hr0 Hr0n].
  cbn [PublicKey.n PublicKey.new pub] in Hr0, Hr0n.
  unfold pub in Henc. rewrite encryptWithR_spec in Henc by lia. injection Henc as <- <-.
  pose proof (ciphertext_range n m r0 Hn) as Hcr.
  pose proof (ciphertext_coprime n m r0 Hn Hr0n) as Hcco.
  remember (ciphertext n m r0) as c eqn:Ec.
  unfold createZkp in Hzkp.
  apply bindR_Returned in Hzkp. destruct Hzkp as (omega & tape4 & Hw & Hzkp).
  pose proof (sampleUnit_Returned _ _ _ _ Hw) as [Hw0 _].
  cbn [PublicKey.n PublicKey.new pub] in Hw0.
  apply bindR_Returned in Hzkp. destruct Hzkp as ([cm0 mk] & tape5 & Hloop & Hzkp).
  cbn [fst snd] in Hzkp.
  apply (createZkp_loop_built n m c omega Hn ltac:(lia) Hcco valid [] [] []) in Hloop;
    [|reflexivity|reflexivity].
  destruct Hloop as (ra & re & rz & -> & Hbuilt & ->). cbn [app List.length] in Hbuilt, Hzkp.
  destruct (exactly_once_split m valid Honce) as (pre & post & -> & Hpre & Hpost).
  destruct (built_split m c omega _ pre post ra re rz Hpre Hpost Hbuilt)
    as (la1 & le1 & lz1 & ak & la2 & le2 & lz2 & -> & -> & -> & Hc1 & Hc2 & Hp1 & Hp2 & Hak).
  rewrite mk_after_split in Hzkp by assumption. cbn [Nat.add] in Hzkp.
  destruct (clauses_ok_length c _ pre la1 le1 lz1 Hc1) as (Lla1 & Lle1 & Llz1).
  destruct (clauses_ok_length c _ post la2 le2 lz2 Hc2) as (Lla2 & Lle2 & Llz2).
  destruct (Z.ltb_spec (Z.of_nat (List.length pre)) 0); [lia|].
  apply liftR_Returned in Hzkp. destruct Hzkp as [Hzkp _].
  cbn [ZkpCommitment.a ZkpCommitment.e ZkpCommitment.z] in Hzkp.
  assert (Hpresent : present (map Some le1 ++ None :: map Some le2) = le1 ++ le2).
  { rewrite present_app. cbn [present]. now rewrite !present_dense. }
  assert (Hne : le1 ++ le2 <> []).
  { intros E. apply (f_equal (@List.length Z)) in E.
    rewrite length_app in E. cbn [List.length] in E.
    rewrite length_app in Hlen. cbn [List.length] in Hlen. lia. }
  rewrite reduce_add_total in Hzkp by (rewrite Hpresent; assumption).
  rewrite Hpresent in Hzkp. cbn [bind] in Hzkp.
  assert (Hsum : 0 <= total (le1 ++ le2)).
  { apply total_nonneg. apply Forall_app. now split. }
  assert (HM : 0 < hashMod) by reflexivity.
  rewrite mod_nonneg in Hzkp by lia. cbn [bind] in Hzkp.
  remember (H (map Some (la1 ++ ak :: la2))) as challenge eqn:Echal.
  remember (BigMath.positiveMod (challenge - total (le1 ++ le2) mod hashMod) hashMod)
    as ek eqn:Eek.
  assert (Hek : 0 <= ek) by (rewrite Eek; apply Z.mod_pos_bound; lia).
  unfold ZkpCommitment.set_e, ZkpCommitment.set_z in Hzkp.
  cbn [ZkpCommitment.a ZkpCommitment.e ZkpCommitment.z] in Hzkp.
  rewrite Nat2Z.id in Hzkp.
  rewrite (arr_set_middle (map Some le1)) in Hzkp by (rewrite length_map; lia).
  cbn [PublicKey.n PublicKey.new pub] in Hzkp.
  rewrite modPow_spec in Hzkp by lia. cbn [bind] in Hzkp.
  pose proof (Z.mod_pos_bound (r0 ^ ek) n ltac:(lia)).
  rewrite mod_nonneg in Hzkp by (try apply Z.mul_nonneg_nonneg; lia). cbn [bind] in Hzkp.
  injection Hzkp as <-.
  rewrite (arr_set_middle (map Some lz1)) by (rewrite length_map; lia).
  exists (la1 ++ ak :: la2), (le1 ++ ek :: le2),
    (lz1 ++ (omega * (r0 ^ ek mod n)) mod n :: lz2).
  split; [now rewrite !map_app|].
  rewrite !length_app. cbn [List.length].
  split; [lia|]. split; [lia|]. split; [lia|]. split.
  - apply Forall_app. split; [assumption|]. now constructor.
  - assert (Htot : total (le1 ++ ek :: le2) = total (le1 ++ le2) + ek).
    { rewrite !total_app. unfold total. cbn [fold_right]. lia. }
    rewrite Htot. subst ek. change (2 ^ 256) with hashMod. rewrite <- Echal.
    apply challenge_sum. unfold hashMod. rewrite Echal. apply Hhash.
Qed.

(** *** A message listed twice *)






Section Duplicates.

Variables (m c omega : Z) (pub : PublicKey.t).





End Duplicates.


(** ** The fields of an encoding *)

(** Field [i] of a packed integer, under the mask of [decode]: the top
    bit of the field is dropped. *)
Lemma field_pack (B : Z) (cs : list Z) (i : nat) :
  2 <= B -> Forall (fun c => 0 <= c < 2 ^ B) cs ->
  field (pack B cs) B (2 ^ (B - 1) - 1) i = nth i cs 0 mod 2 ^ (B - 1).
Proof.
  intros HB. unfold field.
  replace (2 ^ (B - 1) - 1) with (Z.ones (B - 1)) by (rewrite Z.ones_equiv; lia).
  assert (Hpow : 2 ^ B = 2 ^ (B - 1) * 2).
  { replace B with ((B - 1) + 1) at 1 by lia. rewrite Z.pow_add_r by lia. reflexivity. }
  assert (Hpos : 0 < 2 ^ (B - 1)) by (apply Z.pow_pos_nonneg; lia).
  revert i. induction cs as [|c cs IH]; intros i Hcs.
  - cbn [pack]. rewrite Z.shiftr_0_l, Z.land_0_l. destruct i; cbn [nth]; now rewrite Z.mod_0_l by lia.
  - inversion Hcs as [|? ? Hc Hcs']; subst. cbn [pack]. destruct i as [|i].
    + cbn [nth]. change (Z.of_nat 0 * B) with 0. rewrite Z.shiftr_0_r.
      rewrite Z.land_ones by lia. rewrite Hpow.
      replace (c + 2 ^ (B - 1) * 2 * pack B cs) with (c + (2 * pack B cs) * 2 ^ (B - 1)) by ring.
      apply Z_mod_plus_full.
    + cbn [nth]. rewrite <- (IH i Hcs').
      f_equal. rewrite !Z.shiftr_div_pow2 by nia.
      replace (Z.of_nat (S i) * B) with (B + Z.of_nat i * B) by lia.
      rewrite Z.pow_add_r by nia. rewrite <- Z.div_div by (try apply Z.pow_pos_nonneg; nia).
      f_equal. rewrite Z.add_comm, Z.mul_comm, Z.div_add_l by lia.
      rewrite (Z.div_small c) by lia. lia.
Qed.

Lemma map_nth_seq {A : Type} (f : Z -> A) (cs : list Z) :
  map (fun i => f (nth i cs 0)) (seq 0 (List.length cs)) = map f cs.
Proof.
  induction cs as [|c cs IH]; [reflexivity|].
  cbn [List.length seq map nth]. f_equal.
  rewrite <- seq_shift, map_map. exact IH.
Qed.

(** [decode] of a packed integer returns its fields without their top
    bit. *)
Lemma decode_pack (bitsPerChoice : Z) (fields : list Z) :
  2 <= bitsPerChoice <= 31 ->
  Z.of_nat (List.length fields) * bitsPerChoice <= 10000000 ->
  Forall (fun c => 0 <= c < 2 ^ bitsPerChoice) fields ->
  decode (pack bitsPerChoice fields) (Z.of_nat (List.length fields)) bitsPerChoice
  = Returned (map (fun c => Some (c mod 2 ^ (bitsPerChoice - 1))) fields).
Proof.
  intros HB Hsmall Hf. unfold decode.
  pose proof (js_shl_lt_MAX_SAFE_INTEGER 2 (bitsPerChoice - 1)).
  destruct (Z.leb_spec MAX_SAFE_INTEGER (js_shl 2 (bitsPerChoice - 1))); [lia|].
  unfold new_Array_of_length.
  destruct (Z.ltb_spec (Z.of_nat (List.length fields)) 0); [lia|].
  destruct (Z.leb_spec (2 ^ 32) (Z.of_nat (List.length fields))); [nia|]. cbn [orb bind].
  pose proof (decode_loop_spec (pack bitsPerChoice fields) bitsPerChoice
                (Z.of_nat (List.length fields)) (List.length fields) []) as Hloop.
  cbn [List.length map app Nat.add] in Hloop. change (Z.of_nat 0) with 0 in Hloop.
  unfold new_Array. rewrite Nat2Z.id, Hloop by lia. f_equal.
  rewrite js_shl_1_small by lia. rewrite map_map.
  rewrite <- (map_nth_seq (fun c => Some (c mod 2 ^ (bitsPerChoice - 1)))).
  apply map_ext. intros i. now rewrite field_pack by (trivial; lia).
Qed.

(** ** [encodeSingle] and [encodeMultiple] *)

(** What [encodeSingle] returns on parameters that pass its checks. *)
Lemma encodeSingle_Returned (choice numChoices bitsPerChoice bin numBins : Z) :
  choice < numChoices -> 2 <= numChoices -> numBins <= 0 \/ bin < numBins ->
  2 <= bitsPerChoice ->
  Z.abs (bitsPerChoice * (bin * numChoices + choice)) <= 10000000 ->
  encodeSingle choice numChoices bitsPerChoice bin numBins
  = Returned (Z.shiftl 1 (bitsPerChoice * (bin * numChoices + choice))).
Proof.
  intros Hc HC Hbin HB Hsmall. unfold encodeSingle.
  destruct (Z.leb_spec numChoices choice); [lia|].
  destruct (Z.ltb_spec numChoices 2); [lia|]. cbn [orb].
  replace ((0 <? numBins) && (numBins <=? bin)) with false
    by (destruct (Z.ltb_spec 0 numBins), (Z.leb_spec numBins bin); cbn [andb]; lia).
  destruct (Z.ltb_spec bitsPerChoice 2); [lia|].
  pose proof (js_shl_lt_MAX_SAFE_INTEGER 2 (bitsPerChoice - 1)).
  destruct (Z.leb_spec MAX_SAFE_INTEGER (js_shl 2 (bitsPerChoice - 1))); [lia|].
  unfold bigInt.shiftLeft.
  destruct (Z.ltb_spec 10000000 (Z.abs (bitsPerChoice * (bin * numChoices + choice))));
    [lia|reflexivity].
Qed.

Lemma pack_add (B : Z) (f g : nat -> Z) (l : list nat) :
  pack B (map (fun i => f i + g i) l) = pack B (map f l) + pack B (map g l).
Proof. induction l as [|i l IH]; cbn [map pack]; [reflexivity|]. rewrite IH. ring. Qed.

Lemma pack_zero (B : Z) (f : nat -> Z) (l : list nat) :
  (forall i, In i l -> f i = 0) -> pack B (map f l) = 0.
Proof.
  induction l as [|i l IH]; intros Hf; cbn [map pack]; [reflexivity|].
  rewrite IH by (intros j Hj; apply Hf; now right). rewrite (Hf i) by now left. ring.
Qed.

Lemma pack_indicator (B : Z) (c : nat) (n : nat) :
  0 <= B -> forall s : nat,
  (s <= c < s + n)%nat ->
  pack B (map (fun i => if Nat.eqb i c then 1 else 0) (seq s n)) = 2 ^ (B * Z.of_nat (c - s)).
Proof.
  intros HB. induction n as [|n IH]; intros s Hc; [lia|].
  cbn [seq map pack]. destruct (Nat.eqb_spec s c) as [->|Hne].
  - rewrite Nat.sub_diag, Z.mul_0_r. rewrite pack_zero; [rewrite Z.pow_0_r; ring|].
    intros i Hi. apply in_seq in Hi. destruct (Nat.eqb_spec i c); [lia|reflexivity].
  - rewrite IH by lia. rewrite Z.add_0_l, <- Z.pow_add_r by nia. f_equal. nia.
Qed.

Lemma votes_for_cons (c : Z) (rest : list Z) (i : nat) :
  0 <= c ->
  votes_for (c :: rest) i = (if Nat.eqb i (Z.to_nat c) then 1 else 0) + votes_for rest i.
Proof.
  intros Hc. unfold votes_for. cbn [count_occ].
  destruct (Z.eq_dec c (Z.of_nat i)) as [E|E], (Nat.eqb_spec i (Z.to_nat c)); lia.
Qed.

Lemma votes_for_nonneg (choices : list Z) (i : nat) : 0 <= votes_for choices i.
Proof. apply Nat2Z.is_nonneg. Qed.

(** The sum of the encodings of the choices packs the votes per
    choice. *)
Lemma pack_votes (numChoices bitsPerChoice : Z) (choices : list Z) :
  0 <= bitsPerChoice -> Forall (fun c => 0 <= c < numChoices) choices ->
  pack bitsPerChoice (map (votes_for choices) (seq 0 (Z.to_nat numChoices)))
  = total (map (fun c => 2 ^ (bitsPerChoice * c)) choices).
Proof.
  intros HB Hall. induction Hall as [|c rest Hc _ IH].
  - cbn [map total fold_right]. apply pack_zero. intros i _. reflexivity.
  - rewrite (map_ext _ _ (fun i => votes_for_cons c rest i (proj1 Hc))).
    rewrite (pack_add bitsPerChoice (fun i => if Nat.eqb i (Z.to_nat c) then 1 else 0)).
    rewrite pack_indicator by lia. rewrite IH, Nat.sub_0_r, Z2Nat.id by lia.
    unfold total. cbn [map fold_right]. reflexivity.
Qed.

Lemma pack_bound (bitsPerChoice : Z) (fields : list Z) :
  0 <= bitsPerChoice -> Forall (fun c => 0 <= c < 2 ^ bitsPerChoice) fields ->
  0 <= pack bitsPerChoice fields < 2 ^ (bitsPerChoice * Z.of_nat (List.length fields)).
Proof.
  intros HB Hall. induction Hall as [|c rest Hc _ IH].
  - cbn [pack List.length]. rewrite Z.mul_0_r. cbn. lia.
  - cbn [pack List.length].
    replace (bitsPerChoice * Z.of_nat (S (List.length rest)))
      with (bitsPerChoice + bitsPerChoice * Z.of_nat (List.length rest)) by lia.
    rewrite Z.pow_add_r by nia.
    pose proof (Z.pow_pos_nonneg 2 bitsPerChoice ltac:(lia) HB). nia.
Qed.

Lemma encodeMultiple_loop_total (numChoices bitsPerChoice : Z) (choices : list Z) :
  2 <= numChoices -> 2 <= bitsPerChoice -> numChoices * bitsPerChoice <= 10000000 ->
  Forall (fun c => 0 <= c < numChoices) choices ->
  forall result,
    encodeMultiple_loop choices numChoices bitsPerChoice 0 0 result
    = Returned (result + total (map (fun c => 2 ^ (bitsPerChoice * c)) choices)).
Proof.
  intros HC HB Hsmall Hall. induction Hall as [|c rest Hc _ IH]; intros result.
  - cbn [encodeMultiple_loop map total fold_right]. now rewrite Z.add_0_r.
  - cbn [encodeMultiple_loop]. rewrite encodeSingle_Returned by nia. cbn [bind].
    rewrite IH. f_equal. rewrite Z.shiftl_1_l, Z.mul_0_l, Z.add_0_l.
    unfold total. cbn [map fold_right]. ring.
Qed.

(** X12. For choices in [[0, numChoices)], [2 <= bitsPerChoice <= 31] and
    fewer than [2^bitsPerChoice] votes per choice, [decode] of
    [encodeMultiple] returns for each choice its number of votes modulo
    [2^(bitsPerChoice - 1)]: exactly the number of votes when each is
    below [2^(bitsPerChoice - 1)]. *)
Theorem decode_encodeMultiple (choices : list Z) (numChoices bitsPerChoice : Z) :
  2 <= numChoices -> 2 <= bitsPerChoice <= 31 ->
  numChoices * bitsPerChoice <= 10000000 ->
  Forall (fun c => 0 <= c < numChoices) choices ->
  (forall i, votes_for choices i < 2 ^ bitsPerChoice) ->
  exists tally,
    (encoded <- encodeMultiple choices numChoices bitsPerChoice 0 0 ;;
     decode encoded numChoices bitsPerChoice) = Returned (map Some tally) /\
    tally = map (fun i => votes_for choices i mod 2 ^ (bitsPerChoice - 1))
              (seq 0 (Z.to_nat numChoices)) /\
    ((forall i, votes_for choices i < 2 ^ (bitsPerChoice - 1)) ->
     tally = map (votes_for choices) (seq 0 (Z.to_nat numChoices))).
Proof.
  intros HC HB Hsmall Hall Hcount.
  exists (map (fun i => votes_for choices i mod 2 ^ (bitsPerChoice - 1))
            (seq 0 (Z.to_nat numChoices))).
  split; [|split; [reflexivity|]].
  - unfold encodeMultiple.
    rewrite encodeMultiple_loop_total by (trivial; lia). cbn [bind]. rewrite Z.add_0_l.
    rewrite <- (pack_votes numChoices) by (trivial; lia).
    pose proof (decode_pack bitsPerChoice
                  (map (votes_for choices) (seq 0 (Z.to_nat numChoices))) HB) as Hd.
    rewrite length_map, length_seq, Z2Nat.id in Hd by lia.
    rewrite Hd; [now rewrite !map_map|lia|].
    apply Forall_forall. intros x Hx. apply in_map_iff in Hx. destruct Hx as (i & <- & _).
    split; [apply votes_for_nonneg|apply Hcount].
  - intros Hlow. apply map_ext. intros i. apply Z.mod_small.
    split; [apply votes_for_nonneg|apply Hlow].
Qed.


(** ** [decodeGroups] *)

Lemma arr2_set_next (done : list jsarray) (count : nat) (row : jsarray) :
  arr2_set (map Some done ++ repeat None (S count)) (List.length done) row
  = map Some (done ++ [row]) ++ repeat None count.
Proof.
  induction done as [|x done IH]; [reflexivity|].
  cbn [List.length map app arr2_set]. now rewrite IH.
Qed.

Lemma decodeGroups_choices_spec (encoded numChoices bitsPerChoice : Z) (bin : nat)
  (count : nat) :
  forall done : list Z,
    Z.of_nat (List.length done + count) = numChoices ->
    0 <= bitsPerChoice ->
    (Z.of_nat bin * numChoices + numChoices) * bitsPerChoice <= 10000000 ->
    decodeGroups_choices count (Z.of_nat (List.length done)) (Z.of_nat bin) encoded
      numChoices bitsPerChoice (map Some done ++ repeat None count)
    = Returned
        (map Some
           (done ++ map (fun i => field encoded bitsPerChoice
                                    (js_shl 1 (bitsPerChoice - 1) - 1)
                                    (bin * Z.to_nat numChoices + i))
                      (seq (List.length done) count))).
Proof.
  induction count as [|count IH]; intros done Htot HB Hsmall.
  - cbn [decodeGroups_choices seq map repeat]. now rewrite !app_nil_r.
  - cbn [decodeGroups_choices seq map]. unfold bigInt.shiftRight.
    assert (Hidx : 0 <= (Z.of_nat (List.length done) + Z.of_nat bin * numChoices)
                        * bitsPerChoice <= 10000000).
    { assert (0 <= Z.of_nat bin * numChoices) by (apply Z.mul_nonneg_nonneg; lia).
      split; [apply Z.mul_nonneg_nonneg; lia|].
      apply Z.le_trans with ((Z.of_nat bin * numChoices + numChoices) * bitsPerChoice);
        [apply Z.mul_le_mono_nonneg_r; lia|assumption]. }
    destruct (Z.ltb_spec 10000000
                (Z.abs ((Z.of_nat (List.length done) + Z.of_nat bin * numChoices)
                        * bitsPerChoice))); [lia|].
    cbn [bind]. rewrite Nat2Z.id, arr_set_next.
    remember (bigInt.and _ _) as answer eqn:Eanswer.
    replace (Z.of_nat (List.length done) + 1)
      with (Z.of_nat (List.length (done ++ [answer])))
      by (rewrite length_app; cbn [List.length]; lia).
    rewrite IH by (try rewrite length_app; cbn [List.length]; lia).
    rewrite length_app. cbn [List.length]. rewrite Nat.add_1_r, <- app_assoc.
    cbn [app]. do 3 f_equal. subst answer. unfold field, bigInt.and. do 3 f_equal.
    rewrite Nat2Z.inj_add, Nat2Z.inj_mul, Z2Nat.id by lia. ring.
Qed.

Lemma decodeGroups_bins_spec (encoded numChoices bitsPerChoice : Z) (numBins : Z)
  (count : nat) :
  forall done : list jsarray,
    Z.of_nat (List.length done + count) = numBins ->
    0 <= numChoices < 2 ^ 32 -> 0 <= bitsPerChoice ->
    numBins * numChoices * bitsPerChoice <= 10000000 ->
    decodeGroups_bins count (Z.of_nat (List.length done)) encoded numChoices bitsPerChoice
      (map Some done ++ repeat None count)
    = Returned
        (map Some
           (done ++ map (fun bin =>
                           map (fun i => Some (field encoded bitsPerChoice
                                                 (js_shl 1 (bitsPerChoice - 1) - 1)
                                                 (bin * Z.to_nat numChoices + i)))
                             (seq 0 (Z.to_nat numChoices)))
                      (seq (List.length done) count))).
Proof.
  induction count as [|count IH]; intros done Htot HC HB Hsmall.
  - cbn [decodeGroups_bins seq map repeat]. now rewrite !app_nil_r.
  - cbn [decodeGroups_bins seq map]. unfold new_Array_of_length.
    destruct (Z.ltb_spec numChoices 0); [lia|].
    destruct (Z.leb_spec (2 ^ 32) numChoices); [lia|]. cbn [orb bind].
    pose proof (decodeGroups_choices_spec encoded numChoices bitsPerChoice
                  (List.length done) (Z.to_nat numChoices) []) as Hrow.
    cbn [List.length map app Nat.add] in Hrow. change (Z.of_nat 0) with 0 in Hrow.
    rewrite map_map in Hrow.
    remember (map (fun i => Some (field encoded bitsPerChoice
                                    (js_shl 1 (bitsPerChoice - 1) - 1)
                                    (List.length done * Z.to_nat numChoices + i)))
                (seq 0 (Z.to_nat numChoices))) as row eqn:Erow.
    unfold new_Array. rewrite Hrow by nia. cbn [bind].
    rewrite Nat2Z.id, arr2_set_next.
    replace (Z.of_nat (List.length done) + 1)
      with (Z.of_nat (List.length (done ++ [row])))
      by (rewrite length_app; cbn [List.length]; lia).
    rewrite IH by (try rewrite length_app; cbn [List.length]; lia).
    rewrite length_app. cbn [List.length]. rewrite Nat.add_1_r, <- app_assoc. reflexivity.
Qed.

(** What [decodeGroups] and [decode] return, field by field. *)
Lemma decodeGroups_spec (encoded numChoices bitsPerChoice numBins : Z) :
  0 <= numChoices < 2 ^ 32 -> 0 <= numBins < 2 ^ 32 -> 0 <= bitsPerChoice ->
  numBins * numChoices * bitsPerChoice <= 10000000 ->
  decodeGroups encoded numChoices bitsPerChoice numBins
  = Returned
      (map (fun bin =>
              Some (map (fun i => Some (field encoded bitsPerChoice
                                          (js_shl 1 (bitsPerChoice - 1) - 1)
                                          (bin * Z.to_nat numChoices + i)))
                      (seq 0 (Z.to_nat numChoices))))
         (seq 0 (Z.to_nat numBins))).
Proof.
  intros HC HN HB Hsmall. unfold decodeGroups.
  pose proof (js_shl_lt_MAX_SAFE_INTEGER 2 (bitsPerChoice - 1)).
  destruct (Z.leb_spec MAX_SAFE_INTEGER (js_shl 2 (bitsPerChoice - 1))); [lia|].
  unfold new_Array2_of_length.
  destruct (Z.ltb_spec numBins 0); [lia|].
  destruct (Z.leb_spec (2 ^ 32) numBins); [lia|]. cbn [orb bind].
  pose proof (decodeGroups_bins_spec encoded numChoices bitsPerChoice numBins
                (Z.to_nat numBins) []) as Hloop.
  cbn [List.length map app Nat.add] in Hloop. change (Z.of_nat 0) with 0 in Hloop.
  rewrite Hloop by lia. now rewrite map_map.
Qed.

Lemma decode_spec (encoded numChoices bitsPerChoice : Z) :
  0 <= numChoices < 2 ^ 32 -> 0 <= bitsPerChoice ->
  numChoices * bitsPerChoice <= 10000000 ->
  decode encoded numChoices bitsPerChoice
  = Returned (map (fun i => Some (field encoded bitsPerChoice
                                   (js_shl 1 (bitsPerChoice - 1) - 1) i))
                (seq 0 (Z.to_nat numChoices))).
Proof.
  intros HC HB Hsmall. unfold decode.
  pose proof (js_shl_lt_MAX_SAFE_INTEGER 2 (bitsPerChoice - 1)).
  destruct (Z.leb_spec MAX_SAFE_INTEGER (js_shl 2 (bitsPerChoice - 1))); [lia|].
  unfold new_Array_of_length.
  destruct (Z.ltb_spec numChoices 0); [lia|].
  destruct (Z.leb_spec (2 ^ 32) numChoices); [lia|]. cbn [orb bind].
  pose proof (decode_loop_spec encoded bitsPerChoice numChoices (Z.to_nat numChoices) [])
    as Hloop.
  cbn [List.length map app Nat.add] in Hloop. change (Z.of_nat 0) with 0 in Hloop.
  unfold new_Array. rewrite Hloop by lia. now rewrite map_map.
Qed.

Lemma seq_offset (a len : nat) : seq a len = map (fun i => (a + i)%nat) (seq 0 len).
Proof.
  induction a as [|a IH]; [now rewrite map_id|].
  rewrite <- seq_shift, IH, map_map. reflexivity.
Qed.

Lemma concat_rows {A : Type} (g : nat -> A) (C : nat) (n : nat) :
  forall s : nat,
    List.concat (map (fun bin => map (fun i => g (bin * C + i)%nat) (seq 0 C)) (seq s n))
    = map g (seq (s * C) (n * C)).
Proof.
  induction n as [|n IH]; intros s; [reflexivity|].
  cbn [seq map List.concat]. rewrite IH.
  replace (S n * C)%nat with (C + n * C)%nat by lia.
  rewrite seq_app, map_app. f_equal.
  - rewrite (seq_offset (s * C)), map_map. reflexivity.
  - do 2 f_equal. lia.
Qed.


Lemma row_index_inj (C b c b' c' : nat) :
  (c < C)%nat -> (c' < C)%nat -> (b * C + c = b' * C + c')%nat -> b = b' /\ c = c'.
Proof.
  intros Hc Hc' E.
  assert (Hb : b = b').
  { rewrite (Nat.div_unique (b * C + c) C b c Hc) by (rewrite Nat.mul_comm; reflexivity).
    rewrite E. symmetry. apply Nat.div_unique with c'; [assumption|].
    rewrite Nat.mul_comm. reflexivity. }
  split; [assumption|]. subst b'. lia.
Qed.

(** X15. For [0 <= choice < numChoices], [0 <= bin < numBins] and
    [2 <= bitsPerChoice <= 31], [decodeGroups] of [encodeSingle] has a 1 at
    row [bin], column [choice], and 0 everywhere else. *)
Theorem decodeGroups_encodeSingle (choice numChoices bitsPerChoice bin numBins : Z) :
  0 <= choice < numChoices -> 2 <= numChoices -> 0 <= bin < numBins ->
  2 <= bitsPerChoice <= 31 -> numBins * numChoices * bitsPerChoice <= 10000000 ->
  (encoded <- encodeSingle choice numChoices bitsPerChoice bin numBins ;;
   decodeGroups encoded numChoices bitsPerChoice numBins)
  = Returned
      (map (fun b =>
              Some (map (fun c =>
                           Some (if Nat.eqb b (Z.to_nat bin) && Nat.eqb c (Z.to_nat choice)
                                 then 1 else 0))
                      (seq 0 (Z.to_nat numChoices))))
         (seq 0 (Z.to_nat numBins))).
Proof.
  intros Hc HC Hbin HB Hsmall.
  assert (Hk : 0 <= bin * numChoices + choice < numBins * numChoices) by nia.
  assert (Hflat : numBins * numChoices <= 10000000) by nia.
  assert (HCle : numChoices <= numBins * numChoices) by nia.
  assert (HNle : numBins <= numBins * numChoices) by nia.
  assert (Hshift : 0 <= bitsPerChoice * (bin * numChoices + choice) <= 10000000).
  { split; [apply Z.mul_nonneg_nonneg; lia|].
    apply Z.le_trans with (bitsPerChoice * (numBins * numChoices)); [|lia].
    apply Z.mul_le_mono_nonneg_l; lia. }
  rewrite encodeSingle_Returned by (try (right; lia); lia). cbn [bind].
  rewrite decodeGroups_spec by lia. f_equal.
  apply map_ext. intros b. f_equal. apply map_ext_in. intros c Hin. f_equal.
  apply in_seq in Hin. rewrite js_shl_1_small by lia.
  rewrite <- (Z2Nat.id (bin * numChoices + choice)) by lia.
  rewrite field_of_power by lia.
  assert (0 <= bin * numChoices) by (apply Z.mul_nonneg_nonneg; lia).
  rewrite Z2Nat.inj_add, Z2Nat.inj_mul by lia.
  assert (Hch : (Z.to_nat choice < Z.to_nat numChoices)%nat) by lia.
  destruct (Nat.eqb_spec (b * Z.to_nat numChoices + c)
              (Z.to_nat bin * Z.to_nat numChoices + Z.to_nat choice)) as [E|E].
  - apply row_index_inj in E; [|lia|assumption]. destruct E as [-> ->].
    now rewrite !Nat.eqb_refl.
  - destruct (Nat.eqb_spec b (Z.to_nat bin)) as [->|Hb]; [|reflexivity].
    destruct (Nat.eqb_spec c (Z.to_nat choice)) as [->|Hc']; [now elim E|reflexivity].
Qed.

(** The votes for a flat index, when every choice is moved into bin
    [bin]. *)
Lemma votes_for_shift (numChoices : Z) (choices : list Z) (bin b i : nat) :
  0 <= numChoices -> Forall (fun c => 0 <= c < numChoices) choices ->
  (i < Z.to_nat numChoices)%nat ->
  votes_for (map (fun c => Z.of_nat bin * numChoices + c) choices)
    (b * Z.to_nat numChoices + i)
  = if Nat.eqb b bin then votes_for choices i else 0.
Proof.
  intros HC Hall Hi. unfold votes_for.
  induction Hall as [|c rest Hc _ IH]; [now destruct (Nat.eqb b bin)|].
  cbn [map count_occ].
  destruct (Z.eq_dec (Z.of_nat bin * numChoices + c)
              (Z.of_nat (b * Z.to_nat numChoices + i))) as [E|E].
  - assert (E' : (bin * Z.to_nat numChoices + Z.to_nat c
                  = b * Z.to_nat numChoices + i)%nat).
    { apply Nat2Z.inj. rewrite !Nat2Z.inj_add, !Nat2Z.inj_mul, !Z2Nat.id by lia.
      rewrite Nat2Z.inj_add, Nat2Z.inj_mul, Z2Nat.id in E by lia. exact E. }
    apply row_index_inj in E'; [|lia|assumption]. destruct E' as [<- <-].
    rewrite Nat.eqb_refl in IH |- *. rewrite (Z2Nat.id c) in IH |- * by lia.
    destruct (Z.eq_dec c c); [|congruence]. lia.
  - destruct (Nat.eqb_spec b bin) as [->|Hb].
    + destruct (Z.eq_dec c (Z.of_nat i)) as [->|_]; [|exact IH].
      exfalso. apply E. rewrite Nat2Z.inj_add, Nat2Z.inj_mul, Z2Nat.id by lia. reflexivity.
    + exact IH.
Qed.

(** What [encodeMultiple] returns for a bin. *)
Lemma encodeMultiple_loop_bin (numChoices bitsPerChoice bin numBins : Z)
  (choices : list Z) :
  2 <= numChoices -> 2 <= bitsPerChoice -> 0 <= bin < numBins ->
  numBins * numChoices * bitsPerChoice <= 10000000 ->
  Forall (fun c => 0 <= c < numChoices) choices ->
  forall result,
    encodeMultiple_loop choices numChoices bitsPerChoice bin numBins result
    = Returned (result + total (map (fun k => 2 ^ (bitsPerChoice * k))
                                 (map (fun c => bin * numChoices + c) choices))).
Proof.
  intros HC HB Hbin Hsmall Hall. induction Hall as [|c rest Hc _ IH]; intros result.
  - cbn [encodeMultiple_loop map total fold_right]. now rewrite Z.add_0_r.
  - cbn [encodeMultiple_loop].
    assert (H0 : 0 <= bin * numChoices) by (apply Z.mul_nonneg_nonneg; lia).
    assert (Hk : bin * numChoices + c < numBins * numChoices) by nia.
    assert (Hs : 0 <= bitsPerChoice * (bin * numChoices + c) <= 10000000).
    { split; [apply Z.mul_nonneg_nonneg; lia|].
      apply Z.le_trans with (bitsPerChoice * (numBins * numChoices)); [|lia].
      apply Z.mul_le_mono_nonneg_l; lia. }
    rewrite encodeSingle_Returned by (try (right; lia); lia). cbn [bind].
    rewrite IH. f_equal. rewrite Z.shiftl_1_l.
    unfold total. cbn [map fold_right]. ring.
Qed.

(** X23. For choices in [[0, numChoices)], [0 <= bin < numBins],
    [2 <= bitsPerChoice <= 31] and fewer than [2^(bitsPerChoice - 1)] votes
    per choice, [decodeGroups] of [encodeMultiple] holds the number of votes
    of each choice in row [bin] and 0 in every other row. *)
Theorem decodeGroups_encodeMultiple (choices : list Z)
  (numChoices bitsPerChoice bin numBins : Z) :
  2 <= numChoices -> 2 <= bitsPerChoice <= 31 -> 0 <= bin < numBins ->
  numBins * numChoices * bitsPerChoice <= 10000000 ->
  Forall (fun c => 0 <= c < numChoices) choices ->
  (forall i, votes_for choices i < 2 ^ (bitsPerChoice - 1)) ->
  (encoded <- encodeMultiple choices numChoices bitsPerChoice bin numBins ;;
   decodeGroups encoded numChoices bitsPerChoice numBins)
  = Returned
      (map (fun b =>
              Some (map (fun i =>
                           Some (if Nat.eqb b (Z.to_nat bin) then votes_for choices i else 0))
                      (seq 0 (Z.to_nat numChoices))))
         (seq 0 (Z.to_nat numBins))).
Proof.
  intros HC HB Hbin Hsmall Hall Hcount.
  assert (H0 : 0 <= bin * numChoices) by (apply Z.mul_nonneg_nonneg; lia).
  assert (Hflat : 0 <= numBins * numChoices <= 10000000) by nia.
  assert (HCle : numChoices <= numBins * numChoices) by nia.
  assert (HNle : numBins <= numBins * numChoices) by nia.
  unfold encodeMultiple. rewrite encodeMultiple_loop_bin by (trivial; lia).
  cbn [bind]. rewrite Z.add_0_l.
  assert (Hall' : Forall (fun k => 0 <= k < numBins * numChoices)
                    (map (fun c => bin * numChoices + c) choices)).
  { apply Forall_forall. intros k Hk. apply in_map_iff in Hk. destruct Hk as (c & <- & Hc).
    rewrite Forall_forall in Hall. specialize (Hall c Hc). nia. }
  rewrite <- (pack_votes (numBins * numChoices)) by (trivial; lia).
  rewrite decodeGroups_spec by lia. f_equal.
  apply map_ext_in. intros b Hb. apply in_seq in Hb. f_equal.
  apply map_ext_in. intros i Hi. apply in_seq in Hi. f_equal.
  rewrite js_shl_1_small by lia.
  assert (Hlt : 2 ^ (bitsPerChoice - 1) < 2 ^ bitsPerChoice)
    by (apply Z.pow_lt_mono_r; lia).
  pose proof (votes_for_shift numChoices choices (Z.to_nat bin) b i ltac:(lia) Hall
                ltac:(lia)) as Hv.
  rewrite Z2Nat.id in Hv by lia.
  assert (Hidx : (b * Z.to_nat numChoices + i < Z.to_nat (numBins * numChoices))%nat).
  { rewrite Z2Nat.inj_mul by lia.
    apply Nat.lt_le_trans with (b * Z.to_nat numChoices + Z.to_nat numChoices)%nat; [lia|].
    replace (b * Z.to_nat numChoices + Z.to_nat numChoices)%nat
      with (S b * Z.to_nat numChoices)%nat by lia.
    apply Nat.mul_le_mono_r. lia. }
  rewrite field_pack; [|lia|].
  - rewrite (nth_indep _ 0 (votes_for (map (fun c => bin * numChoices + c) choices) 0))
      by now rewrite length_map, length_seq.
    rewrite map_nth, seq_nth by assumption. cbn [Nat.add]. rewrite Hv.
    apply Z.mod_small. destruct (Nat.eqb b (Z.to_nat bin)).
    + split; [apply votes_for_nonneg|apply Hcount].
    + split; [lia|apply Z.pow_pos_nonneg; lia].
  - apply Forall_forall. intros x Hx. apply in_map_iff in Hx. destruct Hx as (k & <- & Hk).
    apply in_seq in Hk. split; [apply votes_for_nonneg|].
    assert (Hq : (k / Z.to_nat numChoices * Z.to_nat numChoices
                  + k mod Z.to_nat numChoices = k)%nat).
    { rewrite Nat.mul_comm. symmetry. apply Nat.div_mod_eq. }
    rewrite <- Hq.
    pose proof (votes_for_shift numChoices choices (Z.to_nat bin)
                  (k / Z.to_nat numChoices) (k mod Z.to_nat numChoices) ltac:(lia) Hall
                  ltac:(apply Nat.mod_upper_bound; lia)) as Hv'.
    rewrite Z2Nat.id in Hv' by lia. rewrite Hv'.
    destruct (Nat.eqb (k / Z.to_nat numChoices) (Z.to_nat bin));
      [specialize (Hcount (k mod Z.to_nat numChoices)%nat); lia|].
    apply Z.pow_pos_nonneg; lia.
Qed.

(** ** Edge behaviour of [decode] and [encodeSingle] *)

(** X13. For [2 <= bitsPerChoice <= 31] and any integer [encoded],
    negative ones included, [decode] returns [numChoices] entries, each in
    [[0, 2^(bitsPerChoice - 1))]. *)
Theorem decode_range (encoded numChoices bitsPerChoice : Z) :
  0 <= numChoices -> 2 <= bitsPerChoice <= 31 ->
  numChoices * bitsPerChoice <= 10000000 ->
  exists fields,
    decode encoded numChoices bitsPerChoice = Returned (map Some fields) /\
    List.length fields = Z.to_nat numChoices /\
    Forall (fun c => 0 <= c < 2 ^ (bitsPerChoice - 1)) fields.
Proof.
  intros HC HB Hsmall.
  exists (map (field encoded bitsPerChoice (js_shl 1 (bitsPerChoice - 1) - 1))
            (seq 0 (Z.to_nat numChoices))).
  split; [|split].
  - rewrite decode_spec by nia. now rewrite map_map.
  - now rewrite length_map, length_seq.
  - apply Forall_forall. intros x Hx. apply in_map_iff in Hx. destruct Hx as (i & <- & _).
    unfold field. rewrite js_shl_1_small by lia.
    replace (2 ^ (bitsPerChoice - 1) - 1) with (Z.ones (bitsPerChoice - 1))
      by (rewrite Z.ones_equiv; lia).
    rewrite Z.land_ones by lia. apply Z.mod_pos_bound. apply Z.pow_pos_nonneg; lia.
Qed.



(** ** [getTotalVotesBits] *)

(** What a returned encoding tells about the parameters. *)
Lemma encodeSingle_inv (choice numChoices bitsPerChoice bin numBins e : Z) :
  encodeSingle choice numChoices bitsPerChoice bin numBins = Returned e ->
  choice < numChoices /\ 2 <= numChoices /\ (numBins <= 0 \/ bin < numBins) /\
  2 <= bitsPerChoice /\
  Z.abs (bitsPerChoice * (bin * numChoices + choice)) <= 10000000 /\
  e = Z.shiftl 1 (bitsPerChoice * (bin * numChoices + choice)).
Proof.
  unfold encodeSingle.
  destruct (Z.leb_spec numChoices choice); [discriminate|].
  destruct (Z.ltb_spec numChoices 2); [discriminate|]. cbn [orb].
  destruct (Z.ltb_spec 0 numBins), (Z.leb_spec numBins bin); cbn [andb];
    try discriminate.
  all: destruct (Z.ltb_spec bitsPerChoice 2); [discriminate|].
  all: destruct (Z.leb_spec MAX_SAFE_INTEGER (js_shl 2 (bitsPerChoice - 1)));
    [discriminate|].
  all: unfold bigInt.shiftLeft.
  all: destruct (Z.ltb_spec 10000000 (Z.abs (bitsPerChoice * (bin * numChoices + choice))));
    [discriminate|].
  all: intros E; injection E as <-; repeat split; lia.
Qed.



(** ** [getSingleChoicePermutations] *)

Lemma permutations_choices_spec (numChoices bitsPerChoice bin numBins : Z) (count : nat) :
  2 <= numChoices -> 2 <= bitsPerChoice -> numBins <= 0 \/ bin < numBins -> 0 <= bin ->
  bitsPerChoice * (bin * numChoices + numChoices) <= 10000000 ->
  forall (k : nat) (votes : list Z),
    Z.of_nat (k + count) = numChoices ->
    permutations_choices count (Z.of_nat k) numChoices bitsPerChoice bin numBins votes
    = Returned
        (votes ++ map (fun i => 2 ^ (bitsPerChoice * (bin * numChoices + Z.of_nat i)))
                    (seq k count)).
Proof.
  intros HC HB Hbin Hb Hsmall.
  induction count as [|count IH]; intros k votes Hk.
  - cbn [permutations_choices seq map]. now rewrite app_nil_r.
  - cbn [permutations_choices seq map].
    assert (H0 : 0 <= bin * numChoices) by (apply Z.mul_nonneg_nonneg; lia).
    assert (Hs : 0 <= bitsPerChoice * (bin * numChoices + Z.of_nat k) <= 10000000).
    { split; [apply Z.mul_nonneg_nonneg; lia|].
      apply Z.le_trans with (bitsPerChoice * (bin * numChoices + numChoices)); [|assumption].
      apply Z.mul_le_mono_nonneg_l; lia. }
    rewrite encodeSingle_Returned by (trivial; lia). cbn [bind].
    replace (Z.of_nat k + 1) with (Z.of_nat (S k)) by lia.
    rewrite IH by lia. rewrite Z.shiftl_1_l, <- app_assoc. reflexivity.
Qed.

Lemma permutations_bins_spec (numChoices bitsPerChoice numBins : Z) :
  2 <= numChoices -> 2 <= bitsPerChoice ->
  bitsPerChoice * (Z.max 1 numBins * numChoices) <= 10000000 ->
  forall (rounds fuel b : nat) (votes : list Z),
    Z.of_nat (b + S rounds) = Z.max 1 numBins -> (rounds < fuel)%nat ->
    permutations_bins fuel (Z.of_nat b) numChoices bitsPerChoice numBins votes
    = Returned
        (votes ++
         List.concat
           (map (fun bin =>
                   map (fun i => 2 ^ (bitsPerChoice
                                      * (Z.of_nat bin * numChoices + Z.of_nat i)))
                     (seq 0 (Z.to_nat numChoices)))
              (seq b (S rounds)))).
Proof.
  intros HC HB Hsmall.
  induction rounds as [|rounds IH]; intros fuel b votes Hb Hfuel.
  all: destruct fuel as [|fuel]; [lia|]; cbn [permutations_bins].
  all: assert (Hbin : numBins <= 0 \/ Z.of_nat b < numBins) by lia.
  all: assert (Hrow : bitsPerChoice * (Z.of_nat b * numChoices + numChoices) <= 10000000)
         by (apply Z.le_trans with (bitsPerChoice * (Z.max 1 numBins * numChoices));
             [apply Z.mul_le_mono_nonneg_l; nia|assumption]).
  all: pose proof (permutations_choices_spec numChoices bitsPerChoice (Z.of_nat b) numBins
                     (Z.to_nat numChoices) HC HB Hbin ltac:(lia) Hrow 0%nat votes
                     ltac:(lia)) as Hc.
  all: change (Z.of_nat 0) with 0 in Hc; rewrite Hc; cbn [bind].
  - destruct (Z.ltb_spec (Z.of_nat b + 1) numBins); [lia|].
    cbn [seq map List.concat]. now rewrite app_nil_r.
  - destruct (Z.ltb_spec (Z.of_nat b + 1) numBins); [|lia].
    replace (Z.of_nat b + 1) with (Z.of_nat (S b)) by lia.
    rewrite IH by lia. rewrite <- app_assoc. reflexivity.
Qed.

(** The list that [getSingleChoicePermutations] returns. *)
Lemma getSingleChoicePermutations_Returned (numChoices bitsPerChoice numBins : Z) :
  2 <= numChoices -> 2 <= bitsPerChoice ->
  bitsPerChoice * (Z.max 1 numBins * numChoices) <= 10000000 ->
  getSingleChoicePermutations numChoices bitsPerChoice numBins
  = Returned (map (fun k => 2 ^ (bitsPerChoice * Z.of_nat k))
                (seq 0 (Z.to_nat (Z.max 1 numBins * numChoices)))).
Proof.
  intros HC HB Hsmall. unfold getSingleChoicePermutations.
  destruct (Z.ltb_spec numChoices 2); [lia|].
  change 0 with (Z.of_nat 0) at 1.
  rewrite (permutations_bins_spec numChoices bitsPerChoice numBins HC HB Hsmall
             (Z.to_nat (Z.max 1 numBins) - 1) (S (Z.to_nat numBins)) 0 []) by lia.
  cbn [app]. f_equal.
  replace (S (Z.to_nat (Z.max 1 numBins) - 1)) with (Z.to_nat (Z.max 1 numBins)) by lia.
  rewrite Z2Nat.inj_mul by lia.
  pose proof (concat_rows (fun k => 2 ^ (bitsPerChoice * Z.of_nat k))
                (Z.to_nat numChoices) (Z.to_nat (Z.max 1 numBins)) 0) as Hflat.
  rewrite Nat.mul_0_l in Hflat. rewrite <- Hflat.
  f_equal. apply map_ext. intros bin. apply map_ext. intros i. do 2 f_equal.
  rewrite Nat2Z.inj_add, Nat2Z.inj_mul, Z2Nat.id by lia. reflexivity.
Qed.

Lemma powers_NoDup (bitsPerChoice : Z) (count : nat) :
  2 <= bitsPerChoice ->
  NoDup (map (fun k => 2 ^ (bitsPerChoice * Z.of_nat k)) (seq 0 count)).
Proof.
  intros HB. apply NoDup_map_NoDup_ForallPairs; [|apply seq_NoDup].
  intros x y _ _ E. apply Z.pow_inj_r in E; nia.
Qed.

Lemma powers_nth (bitsPerChoice : Z) (count k : nat) :
  (k < count)%nat ->
  nth_error (map (fun k => 2 ^ (bitsPerChoice * Z.of_nat k)) (seq 0 count)) k
  = Some (2 ^ (bitsPerChoice * Z.of_nat k)).
Proof.
  intros Hk. rewrite nth_error_map, nth_error_seq.
  destruct (Nat.ltb_spec k count); [reflexivity|lia].
Qed.

(** X18. For [numChoices >= 2] and [bitsPerChoice >= 2],
    [getSingleChoicePermutations] returns [max(1, numBins) numChoices]
    votes without duplicates, and the encoding of every choice in every
    bin is the vote at index [bin numChoices + choice], which occurs once. *)
Theorem getSingleChoicePermutations_valid_set (numChoices bitsPerChoice numBins : Z) :
  2 <= numChoices -> 2 <= bitsPerChoice ->
  bitsPerChoice * (Z.max 1 numBins * numChoices) <= 10000000 ->
  exists votes,
    getSingleChoicePermutations numChoices bitsPerChoice numBins = Returned votes /\
    List.length votes = Z.to_nat (Z.max 1 numBins * numChoices) /\
    NoDup votes /\
    forall choice bin,
      0 <= choice < numChoices -> 0 <= bin < Z.max 1 numBins ->
      exists vote,
        encodeSingle choice numChoices bitsPerChoice bin numBins = Returned vote /\
        nth_error votes (Z.to_nat (bin * numChoices + choice)) = Some vote /\
        count_occ Z.eq_dec votes vote = 1%nat.
Proof.
  intros HC HB Hsmall.
  exists (map (fun k => 2 ^ (bitsPerChoice * Z.of_nat k))
            (seq 0 (Z.to_nat (Z.max 1 numBins * numChoices)))).
  pose proof (powers_NoDup bitsPerChoice (Z.to_nat (Z.max 1 numBins * numChoices)) HB)
    as Hnd.
  split; [now apply getSingleChoicePermutations_Returned|].
  split; [now rewrite length_map, length_seq|]. split; [exact Hnd|].
  intros choice bin Hc Hb.
  assert (H0 : 0 <= bin * numChoices) by (apply Z.mul_nonneg_nonneg; lia).
  assert (Hk : bin * numChoices + choice < Z.max 1 numBins * numChoices) by nia.
  assert (Hs : 0 <= bitsPerChoice * (bin * numChoices + choice) <= 10000000).
  { split; [apply Z.mul_nonneg_nonneg; lia|].
    apply Z.le_trans with (bitsPerChoice * (Z.max 1 numBins * numChoices)); [|assumption].
    apply Z.mul_le_mono_nonneg_l; lia. }
  exists (Z.shiftl 1 (bitsPerChoice * (bin * numChoices + choice))).
  split; [apply encodeSingle_Returned; lia|].
  rewrite Z.shiftl_1_l.
  pose proof (powers_nth bitsPerChoice (Z.to_nat (Z.max 1 numBins * numChoices))
                (Z.to_nat (bin * numChoices + choice)) ltac:(lia)) as Hnth.
  rewrite Z2Nat.id in Hnth by lia. split; [exact Hnth|].
  apply NoDup_count_occ'; [exact Hnd|]. now apply nth_error_In in Hnth.
Qed.

(** X19. [getSingleChoicePermutations] fails with "Invalid choices" for
    [numChoices < 2] and, for [numChoices >= 2], with "bitsPerChoice must
    be at least 2" for [bitsPerChoice < 2]. *)
Theorem getSingleChoicePermutations_errors (numChoices bitsPerChoice numBins : Z) :
  (numChoices < 2 ->
   getSingleChoicePermutations numChoices bitsPerChoice numBins
   = Threw (RangeError "Invalid choices"%string)) /\
  (2 <= numChoices -> bitsPerChoice < 2 ->
   getSingleChoicePermutations numChoices bitsPerChoice numBins
   = Threw (RangeError "bitsPerChoice must be at least 2"%string)).
Proof.
  unfold getSingleChoicePermutations. split.
  - intros HC. destruct (Z.ltb_spec numChoices 2); [reflexivity|lia].
  - intros HC HB. destruct (Z.ltb_spec numChoices 2); [lia|].
    cbn [permutations_bins].
    destruct (Z.to_nat numChoices) as [|count] eqn:E; [lia|].
    cbn [permutations_choices]. unfold encodeSingle.
    destruct (Z.leb_spec numChoices 0); [lia|].
    destruct (Z.ltb_spec numChoices 2); [lia|]. cbn [orb].
    replace ((0 <? numBins) && (numBins <=? 0)) with false
      by (destruct (Z.ltb_spec 0 numBins), (Z.leb_spec numBins 0); cbn [andb]; lia).
    destruct (Z.ltb_spec bitsPerChoice 2); [reflexivity|lia].
Qed.

(** ** Votes *)

(** X20. For an encoded vote below [n] and the valid set that
    [getSingleChoicePermutations] returns, [verifyZkp] accepts whatever
    [encryptWithZkp] returns. *)
Theorem vote_membership_proof (H : jsarray -> Z) (n : Z)
  (numChoices bitsPerChoice numBins choice bin : Z) :
  (forall arr, 0 <= H arr < 2 ^ 256) -> 1 < n ->
  2 <= numChoices -> 2 <= bitsPerChoice ->
  bitsPerChoice * (Z.max 1 numBins * numChoices) <= 10000000 ->
  0 <= choice < numChoices -> 0 <= bin < Z.max 1 numBins ->
  2 ^ (bitsPerChoice * (bin * numChoices + choice)) < n ->
  exists validVotes vote,
    getSingleChoicePermutations numChoices bitsPerChoice numBins = Returned validVotes /\
    encodeSingle choice numChoices bitsPerChoice bin numBins = Returned vote /\
    forall tape c commitment tape',
      encryptWithZkp H vote validVotes (PublicKey.new n (n + 1)) tape
      = Returned ((c, commitment), tape') ->
      verifyZkp H c validVotes commitment (PublicKey.new n (n + 1)) = Returned true.
Proof.
  intros Hhash Hn HC HB Hsmall Hc Hb Hfit.
  assert (H0 : 0 <= bin * numChoices) by (apply Z.mul_nonneg_nonneg; lia).
  assert (Hk : bin * numChoices + choice < Z.max 1 numBins * numChoices) by nia.
  assert (Hs : 0 <= bitsPerChoice * (bin * numChoices + choice) <= 10000000).
  { split; [apply Z.mul_nonneg_nonneg; lia|].
    apply Z.le_trans with (bitsPerChoice * (Z.max 1 numBins * numChoices)); [|assumption].
    apply Z.mul_le_mono_nonneg_l; lia. }
  exists (map (fun k => 2 ^ (bitsPerChoice * Z.of_nat k))
            (seq 0 (Z.to_nat (Z.max 1 numBins * numChoices)))),
    (2 ^ (bitsPerChoice * (bin * numChoices + choice))).
  split; [now apply getSingleChoicePermutations_Returned|].
  split; [rewrite <- Z.shiftl_1_l; apply encodeSingle_Returned; lia|].
  intros tape c cm tape' Hrun.
  apply (zkp_completeness H n (2 ^ (bitsPerChoice * (bin * numChoices + choice)))
           (map (fun k => 2 ^ (bitsPerChoice * Z.of_nat k))
              (seq 0 (Z.to_nat (Z.max 1 numBins * numChoices))))
           tape tape' c cm); trivial.
  - split; [apply Z.pow_nonneg; lia|assumption].
  - apply NoDup_count_occ'; [now apply powers_NoDup|].
    pose proof (powers_nth bitsPerChoice (Z.to_nat (Z.max 1 numBins * numChoices))
                  (Z.to_nat (bin * numChoices + choice)) ltac:(lia)) as Hnth.
    rewrite Z2Nat.id in Hnth by lia. now apply nth_error_In in Hnth.
  - rewrite length_map, length_seq. nia.
Qed.

(** X21. The election of the tests: under a valid key pair with
    [2^(bitsPerChoice numChoices) <= n], [2 <= bitsPerChoice <= 31] and
    fewer than [2^(bitsPerChoice - 1)] votes per choice, aggregating the
    encrypted encodings of the choices onto an encryption of 0, decrypting
    the sum and decoding it returns the number of votes of each choice. *)
Theorem election_tally (pub : PublicKey.t) (priv : PrivateKey.t)
  (numChoices bitsPerChoice : Z) (choices : list Z) (c0 : Z) (cs : list Z)
  (tape0 tape0' : list Z) :
  valid_key_pair pub priv ->
  2 <= numChoices -> 2 <= bitsPerChoice <= 31 ->
  numChoices * bitsPerChoice <= 10000000 ->
  2 ^ (bitsPerChoice * numChoices) <= PublicKey.n pub ->
  (forall i, votes_for choices i < 2 ^ (bitsPerChoice - 1)) ->
  encrypt 0 pub tape0 = Returned (c0, tape0') ->
  Forall2 (fun choice c =>
             0 <= choice < numChoices /\
             exists vote tape tape',
               encodeSingle choice numChoices bitsPerChoice 0 0 = Returned vote /\
               encrypt vote pub tape = Returned (c, tape')) choices cs ->
  (sum <- aggregate c0 cs pub ;;
   tally <- decrypt sum pub priv ;;
   decode tally numChoices bitsPerChoice)
  = Returned (map (fun i => Some (votes_for choices i)) (seq 0 (Z.to_nat numChoices))).
Proof.
  intros Hv HC HB Hsmall Hfit Hcount He0 Hall.
  destruct (valid_key_pair_pub pub priv Hv) as [Hn Hpub].
  remember (PublicKey.n pub) as n eqn:En.
  assert (Hrange : Forall (fun c => 0 <= c < numChoices) choices).
  { clear - Hall. induction Hall as [|ch c chs cs (Hch & _) _ IH]; constructor; assumption. }
  assert (Henc : Forall2 (encrypts n) cs (map (fun c => 2 ^ (bitsPerChoice * c)) choices)).
  { induction Hall as [|ch c chs cs (Hch & vote & tape & tape' & Hvote & He) Hall IH];
      cbn [map]; constructor.
    - apply encodeSingle_inv in Hvote. destruct Hvote as (_ & _ & _ & _ & _ & ->).
      rewrite Z.mul_0_l, Z.add_0_l, Z.shiftl_1_l in He. rewrite En.
      apply (encrypts_encrypt pub priv _ tape c tape' Hv); [|exact He].
      rewrite <- En. split; [apply Z.pow_nonneg; lia|].
      apply Z.lt_le_trans with (2 ^ (bitsPerChoice * numChoices)); [|assumption].
      apply Z.pow_lt_mono_r; nia.
    - apply IH.
      + intros i. specialize (Hcount i). unfold votes_for in *. cbn [count_occ] in Hcount.
        destruct (Z.eq_dec ch (Z.of_nat i)); lia.
      + now inversion Hrange. }
  assert (Hzero : encrypts n c0 0).
  { rewrite En. apply (encrypts_encrypt pub priv 0 tape0 c0 tape0' Hv); [lia|exact He0]. }
  destruct (aggregate_encrypts n (n + 1) cs _ Hn Henc c0 0 Hzero) as (sum & Hagg & Hsum).
  rewrite <- Hpub in Hagg. rewrite Hagg. cbn [bind].
  rewrite En in Hsum. rewrite (decrypt_encrypts pub priv sum _ Hv Hsum). cbn [bind].
  rewrite Z.add_0_l, <- (pack_votes numChoices) by (trivial; lia).
  assert (Hfields : Forall (fun c => 0 <= c < 2 ^ bitsPerChoice)
                      (map (votes_for choices) (seq 0 (Z.to_nat numChoices)))).
  { apply Forall_forall. intros x Hx. apply in_map_iff in Hx. destruct Hx as (i & <- & _).
    split; [apply votes_for_nonneg|]. specialize (Hcount i).
    assert (2 ^ (bitsPerChoice - 1) < 2 ^ bitsPerChoice) by (apply Z.pow_lt_mono_r; lia).
    lia. }
  pose proof (pack_bound bitsPerChoice _ ltac:(lia) Hfields) as Hpack.
  rewrite length_map, length_seq, Z2Nat.id in Hpack by lia.
  rewrite Z.mod_small by lia.
  pose proof (decode_pack bitsPerChoice
                (map (votes_for choices) (seq 0 (Z.to_nat numChoices))) HB) as Hd.
  rewrite length_map, length_seq, Z2Nat.id in Hd by lia.
  rewrite Hd by (trivial; lia). f_equal. rewrite map_map. apply map_ext. intros i.
  rewrite Z.mod_small; [reflexivity|]. split; [apply votes_for_nonneg|apply Hcount].
Qed.

(** * Examples at concrete keys *)

(** The four primes, by Proth's criterion. *)
Lemma p80_prime : Z.prime p80.
Proof. apply (proth_prime p80 549755813861 41 3). vm_compute. reflexivity. Qed.

Lemma q80_prime : Z.prime q80.
Proof. apply (proth_prime q80 549755813841 41 5). vm_compute. reflexivity. Qed.

Lemma p128_prime : Z.prime p128.
Proof. apply (proth_prime p128 9223372036854775769 65 3). vm_compute. reflexivity. Qed.

Lemma q128_prime : Z.prime q128.
Proof. apply (proth_prime q128 9223372036854775731 65 5). vm_compute. reflexivity. Qed.

(** The table admits primes only. *)
Lemma isPrime_table_sound (x : Z) : isPrime_table x = true -> Z.prime x.
Proof.
  unfold isPrime_table. intros H.
  repeat (apply orb_prop in H; destruct H as [H|H]); apply Z.eqb_eq in H; subst x.
  - exact p80_prime.
  - exact q80_prime.
  - exact p128_prime.
  - exact q128_prime.
Qed.

(** The runs of [generateKeyPair] that draw these primes. *)
Lemma generateKeyPair_160 :
  generateKeyPair isPrime_table 160 [p80; q80] = Returned ((pub160, priv160), []).
Proof. vm_compute. reflexivity. Qed.

Lemma generateKeyPair_256 :
  generateKeyPair isPrime_table 256 [p128; q128] = Returned ((pub256, priv256), []).
Proof. vm_compute. reflexivity. Qed.

(** The 160-bit key pair is a key pair of the data model. *)
Lemma valid_key_pair_160 : valid_key_pair pub160 priv160.
Proof.
  exact (proj1 (generateKeyPair_valid isPrime_table 160 [p80; q80] pub160 priv160 []
                  isPrime_table_sound generateKeyPair_160)).
Qed.

(** The round trip under the 160-bit key: plaintext 42, randomness 7. *)
Lemma decrypt_encrypt_roundtrip_witness :
  (forall x, isPrime_table x = true -> Z.prime x) /\
  160 <= 160 /\ Z.rem 160 8 = 0 /\
  generateKeyPair isPrime_table 160 [p80; q80] = Returned ((pub160, priv160), []) /\
  0 <= 42 < PublicKey.n pub160 /\
  sampleUnit pub160 [7] = Returned (7, []) /\
  exists c, encrypt 42 pub160 [7] = Returned (c, []) /\
       decrypt c pub160 priv160 = Returned 42.
Proof.
  assert (H1 : 160 <= 160) by lia.
  assert (H2 : Z.rem 160 8 = 0) by reflexivity.
  assert (H3 : 0 <= 42 < PublicKey.n pub160) by (vm_compute; split; [discriminate|reflexivity]).
  assert (H4 : sampleUnit pub160 [7] = Returned (7, [])) by (vm_compute; reflexivity).
  exact (conj isPrime_table_sound (conj H1 (conj H2 (conj generateKeyPair_160 (conj H3
          (conj H4
             (decrypt_encrypt_roundtrip isPrime_table 160 [p80; q80] [] pub160 priv160 42
                [7] [] 7 isPrime_table_sound H1 H2 generateKeyPair_160 H3 H4))))))).
Defined.

(** The sum of 1000 and 234 under the 160-bit key. *)
Lemma decrypt_addEncrypted_encrypt_witness :
  valid_key_pair pub160 priv160 /\
  0 <= 1000 < PublicKey.n pub160 /\ 0 <= 234 < PublicKey.n pub160 /\
  sampleUnit pub160 [7] = Returned (7, []) /\
  sampleUnit pub160 [11] = Returned (11, []) /\
  exists c1 c2 c,
    encrypt 1000 pub160 [7] = Returned (c1, []) /\
    encrypt 234 pub160 [11] = Returned (c2, []) /\
    addEncrypted c1 c2 pub160 = Returned c /\
    decrypt c pub160 priv160 = Returned ((1000 + 234) mod PublicKey.n pub160).
Proof.
  assert (H1 : 0 <= 1000 < PublicKey.n pub160) by (vm_compute; split; [discriminate|reflexivity]).
  assert (H2 : 0 <= 234 < PublicKey.n pub160) by (vm_compute; split; [discriminate|reflexivity]).
  assert (H3 : sampleUnit pub160 [7] = Returned (7, [])) by (vm_compute; reflexivity).
  assert (H4 : sampleUnit pub160 [11] = Returned (11, [])) by (vm_compute; reflexivity).
  exact (conj valid_key_pair_160 (conj H1 (conj H2 (conj H3 (conj H4
          (decrypt_addEncrypted_encrypt pub160 priv160 1000 234 [7] [] [11] [] 7 11
             valid_key_pair_160 H1 H2 H3 H4)))))).
Defined.

(** C6 as stated fails: a negative plaintext is encrypted, not rejected. *)
Lemma encrypt_negative_counterexample :
  -1 < 0 /\ encrypt (-1) pub143 [7] = Returned (-13726, []).
Proof. split; [lia|vm_compute; reflexivity]. Qed.

(** The check of the plaintext at [n = 143]: 143 is refused, 42 is
    encrypted. *)
Lemma encrypt_plaintext_check_witness :
  sampleUnit (PublicKey.new 143 144) [7] = Returned (7, []) /\
  (143 <= 143 -> encrypt 143 (PublicKey.new 143 144) [7] = Threw BadPlaintext) /\
  (42 < 143 -> exists c, encrypt 42 (PublicKey.new 143 144) [7] = Returned (c, []) /\
                    (0 <= 42 -> 0 <= c < 143 * 143)).
Proof.
  assert (H : sampleUnit (PublicKey.new 143 144) [7] = Returned (7, []))
    by (vm_compute; reflexivity).
  exact (conj H (conj (proj1 (encrypt_plaintext_check 143 144 143 [7] [] 7 H))
                      (proj2 (encrypt_plaintext_check 143 144 42 [7] [] 7 H)))).
Defined.

(** A signature under the 256-bit key, for a message whose hash is 2. *)
Lemma signature_roundtrip_witness :
  (forall x, isPrime_table x = true -> Z.prime x) /\
  256 <= 256 /\
  generateKeyPair isPrime_table 256 [p128; q128] = Returned ((pub256, priv256), []) /\
  0 <= (fun _ : Z => 2) 5 < 2 ^ 256 /\
  Z.gcd ((fun _ : Z => 2) 5) (PublicKey.n pub256) = 1 /\
  exists sig, createSignature (fun _ => 2) 5 pub256 priv256 = Returned sig /\
         verifySignature (fun _ => 2) 5 sig pub256 = Returned true.
Proof.
  assert (H1 : 256 <= 256) by lia.
  assert (H2 : 0 <= (fun _ : Z => 2) 5 < 2 ^ 256)
    by (vm_compute; split; [discriminate|reflexivity]).
  assert (H3 : Z.gcd ((fun _ : Z => 2) 5) (PublicKey.n pub256) = 1)
    by (vm_compute; reflexivity).
  exact (conj isPrime_table_sound (conj H1 (conj generateKeyPair_256 (conj H2 (conj H3
          (signature_roundtrip isPrime_table (fun _ => 2) 256 [p128; q128] [] pub256 priv256 5
             isPrime_table_sound H1 generateKeyPair_256 H2 H3)))))).
Defined.

(** The three operations at [n = 143]. *)
Lemma homomorphic_ops_range_witness :
  1 < 143 /\ 0 <= 144 /\
  0 <= 5 < 143 * 143 /\ 0 <= 7 < 143 * 143 /\ 0 <= 9 < 143 * 143 /\ 0 <= 3 /\
  (exists x, addEncrypted 7 9 (PublicKey.new 143 144) = Returned x /\ 0 <= x < 143 * 143) /\
  (exists x, addScalar 5 3 (PublicKey.new 143 144) = Returned x /\ 0 <= x < 143 * 143) /\
  (exists x, mulScalar 5 3 (PublicKey.new 143 144) = Returned x /\ 0 <= x < 143 * 143).
Proof.
  assert (H1 : 1 < 143) by lia. assert (H2 : 0 <= 144) by lia.
  assert (H3 : 0 <= 5 < 143 * 143) by lia. assert (H4 : 0 <= 7 < 143 * 143) by lia.
  assert (H5 : 0 <= 9 < 143 * 143) by lia. assert (H6 : 0 <= 3) by lia.
  exact (conj H1 (conj H2 (conj H3 (conj H4 (conj H5 (conj H6
          (homomorphic_ops_range 143 144 5 7 9 3 H1 H2 H3 H4 H5 H6))))))).
Defined.

(** C4 as stated fails: with [k = 1] and lengths 2, 1, 0, which sum to
    [3 k], the verifier answers [false] instead of failing. *)
Lemma verifyZkp_unequal_lengths_counterexample :
  let commitment := ZkpCommitment.create [Some 1; Some 2] [Some 5] [] in
  List.length (ZkpCommitment.a commitment) <> List.length [0] /\
  verifyZkp (fun _ => 0) 7 [0] commitment pub143 = Returned false.
Proof. split; [discriminate|vm_compute; reflexivity]. Qed.

(** Lengths 2, 1, 1 against [k = 1]: the guard fires. *)
Lemma verifyZkp_length_guard_witness :
  verifyZkp (fun _ => 0) 7 [0] (ZkpCommitment.create [Some 1; Some 2] [Some 5] [Some 3]) pub143
  = Threw MalformedCommitment.
Proof.
  apply (proj2 (verifyZkp_length_guard (fun _ => 0) 7 [0]
                  (ZkpCommitment.create [Some 1; Some 2] [Some 5] [Some 3]) pub143)).
  discriminate.
Defined.

(** [createZkp] on the valid set [[5]] at [n = 143]. *)
Lemma createZkp_singleton_witness :
  pub143 = PublicKey.new 143 144 /\ 0 <= 144 /\ Z.gcd 144 143 = 1 /\
  sampleUnit pub143 [7] = Returned (7, []) /\
  createZkp (fun _ => 0) 5 1010 3 [5] pub143 [7] = Threw TypeError.
Proof.
  assert (H1 : pub143 = PublicKey.new 143 144) by reflexivity.
  assert (H2 : 0 <= 144) by lia.
  assert (H3 : Z.gcd 144 143 = 1) by reflexivity.
  assert (H4 : sampleUnit pub143 [7] = Returned (7, [])) by (vm_compute; reflexivity).
  exact (conj H1 (conj H2 (conj H3 (conj H4
          (proj2 (proj2 (createZkp_singleton (fun _ => 0) 5 1010 3 pub143 [7]))
             143 144 7 [] H1 H2 H3 H4))))).
Defined.

(** C3 at the failing input. Under the 160-bit key, with the valid set
    [[1]] and the plaintext 1, [encryptWithZkp] encrypts and then
    [createZkp] raises a [TypeError] instead of returning a commitment. *)
Theorem encryptWithZkp_singleton_fails (H : jsarray -> Z) :
  valid_key_pair pub160 priv160 /\
  In 1 [1] /\ 0 <= 1 < PublicKey.n pub160 /\
  encryptWithZkp H 1 [1] pub160 [1; 1] = Threw TypeError.
Proof.
  split; [exact valid_key_pair_160|]. split; [now left|].
  split; [vm_compute; split; [discriminate|reflexivity]|].
  vm_compute. reflexivity.
Qed.

(** ** Instances of the further properties *)

Lemma prime_13 : Z.prime 13.
Proof. apply (proth_prime 13 3 2 2). reflexivity. Qed.

Lemma prime_17 : Z.prime 17.
Proof. apply (proth_prime 17 1 4 3). reflexivity. Qed.

(** The small key pair is a key pair of the data model. *)
Lemma valid_key_pair_221 : valid_key_pair pub221 priv221.
Proof.
  exists 13, 17. split; [|reflexivity].
  split; [exact prime_13|exact prime_17|discriminate|reflexivity].
Qed.

Lemma votes_for_le_length (choices : list Z) (i : nat) :
  votes_for choices i <= Z.of_nat (List.length choices).
Proof. unfold votes_for. apply inj_le, count_occ_bound. Qed.

(** 100 bits are refused. *)
Lemma generateKeyPair_bad_parameter_witness :
  generateKeyPair isPrime_table 100 [] = Threw BadKeyParameter.
Proof.
  apply (proj2 (generateKeyPair_bad_parameter isPrime_table 100 [])). right. lia.
Defined.

(** The shape of the 160-bit key. *)
Lemma generateKeyPair_key_shape_witness :
  (forall x, isPrime_table x = true -> Z.prime x) /\
  generateKeyPair isPrime_table 160 [p80; q80] = Returned ((pub160, priv160), []) /\
  exists p q,
    Z.prime p /\ Z.prime q /\ p <> q /\
    PublicKey.n pub160 = p * q /\
    bigInt.bitLength (PublicKey.n pub160) = 160 /\
    PublicKey.g pub160 = PublicKey.n pub160 + 1 /\
    PublicKey.nSquared pub160 = PublicKey.n pub160 * PublicKey.n pub160 /\
    PrivateKey.lambda priv160 = Z.lcm (p - 1) (q - 1) /\
    Z.gcd (PrivateKey.lambda priv160) (PublicKey.n pub160) = 1 /\
    0 <= PrivateKey.mu priv160 < PublicKey.n pub160 /\
    (PrivateKey.mu priv160 * PrivateKey.lambda priv160) mod PublicKey.n pub160 = 1.
Proof.
  exact (conj isPrime_table_sound (conj generateKeyPair_160
          (generateKeyPair_key_shape isPrime_table 160 [p80; q80] [] pub160 priv160
             isPrime_table_sound generateKeyPair_160))).
Defined.

(** [decrypt] at [n = 221]: 50000 is refused, 11657 decrypts into range. *)
Lemma decrypt_outcome_witness :
  1 < 221 /\ 0 <= 48 /\ 0 <= 198 /\
  decrypt 50000 pub221 priv221 = Threw BadCiphertext /\
  exists m, decrypt 11657 pub221 priv221 = Returned m /\ 0 <= m < 221.
Proof.
  assert (H1 : 1 < 221) by lia. assert (H2 : 0 <= 48) by lia.
  assert (H3 : 0 <= 198) by lia.
  assert (H4 : 221 * 221 <= 50000) by lia.
  assert (H5 : 0 <= 11657 < 221 * 221) by lia.
  exact (conj H1 (conj H2 (conj H3
          (conj (proj1 (decrypt_outcome 221 222 48 198 50000 H1 H2 H3) H4)
                (proj2 (decrypt_outcome 221 222 48 198 11657 H1 H2 H3) H5))))).
Defined.

(** 5 plus the scalar 10 under the small key. *)
Lemma decrypt_addScalar_witness :
  valid_key_pair pub221 priv221 /\ 0 <= 5 < PublicKey.n pub221 /\ 0 <= 10 /\
  encrypt 5 pub221 [3] = Returned (11657, []) /\
  exists c', addScalar 11657 10 pub221 = Returned c' /\
        decrypt c' pub221 priv221 = Returned ((5 + 10) mod PublicKey.n pub221).
Proof.
  assert (H1 : 0 <= 5 < PublicKey.n pub221) by (cbn; lia).
  assert (H2 : 0 <= 10) by lia.
  assert (H3 : encrypt 5 pub221 [3] = Returned (11657, [])) by reflexivity.
  exact (conj valid_key_pair_221 (conj H1 (conj H2 (conj H3
          (decrypt_addScalar pub221 priv221 5 10 [3] [] 11657
             valid_key_pair_221 H1 H2 H3))))).
Defined.

(** 5 times the scalar 10 under the small key. *)
Lemma decrypt_mulScalar_witness :
  valid_key_pair pub221 priv221 /\ 0 <= 5 < PublicKey.n pub221 /\ 0 <= 10 /\
  encrypt 5 pub221 [3] = Returned (11657, []) /\
  exists c', mulScalar 11657 10 pub221 = Returned c' /\
        decrypt c' pub221 priv221 = Returned ((10 * 5) mod PublicKey.n pub221).
Proof.
  assert (H1 : 0 <= 5 < PublicKey.n pub221) by (cbn; lia).
  assert (H2 : 0 <= 10) by lia.
  assert (H3 : encrypt 5 pub221 [3] = Returned (11657, [])) by reflexivity.
  exact (conj valid_key_pair_221 (conj H1 (conj H2 (conj H3
          (decrypt_mulScalar pub221 priv221 5 10 [3] [] 11657
             valid_key_pair_221 H1 H2 H3))))).
Defined.

(** The sum of 0, 7 and 9 under the small key. *)
Lemma decrypt_aggregate_witness :
  valid_key_pair pub221 priv221 /\ 0 <= 0 < PublicKey.n pub221 /\
  encrypt 0 pub221 [2] = Returned (46663, []) /\
  exists sum, aggregate 46663 [27323; 35999] pub221 = Returned sum /\
         decrypt sum pub221 priv221
         = Returned ((0 + total [7; 9]) mod PublicKey.n pub221).
Proof.
  assert (H1 : 0 <= 0 < PublicKey.n pub221) by (cbn; lia).
  assert (H2 : encrypt 0 pub221 [2] = Returned (46663, [])) by reflexivity.
  assert (H3 : Forall2 (fun m c => 0 <= m < PublicKey.n pub221 /\
                                   exists tape tape',
                                     encrypt m pub221 tape = Returned (c, tape'))
                 [7; 9] [27323; 35999]).
  { constructor; [|constructor; [|constructor]].
    - split; [cbn; lia|]. exists [4], []. reflexivity.
    - split; [cbn; lia|]. exists [6], []. reflexivity. }
  exact (conj valid_key_pair_221 (conj H1 (conj H2
          (decrypt_aggregate pub221 priv221 0 [7; 9] 46663 [27323; 35999] [2] []
             valid_key_pair_221 H1 H2 H3)))).
Defined.

(** A membership proof for 1 in [[1; 2]] at [n = 221], on the draws 3, 5,
    7 and 9. *)
Lemma encryptWithZkp_verifyZkp_witness :
  (forall arr : jsarray, 0 <= (fun _ : jsarray => 0) arr < 2 ^ 256) /\
  8 <= 221 /\ 0 <= 1 < 221 /\
  count_occ Z.eq_dec [1; 2] 1 = 1%nat /\ (2 <= List.length [1; 2])%nat /\
  verifyZkp (fun _ => 0) 12320 [1; 2]
    (ZkpCommitment.mk [Some 42996; Some 33887]
       [Some 115792089237316195423570985008687907853269984665640564039457584007913129639929;
        Some 7]
       [Some 70; Some 9])
    (PublicKey.new 221 (221 + 1))
  = Returned true.
Proof.
  assert (H1 : forall arr : jsarray, 0 <= (fun _ : jsarray => 0) arr < 2 ^ 256)
    by (intros arr; split; [lia|reflexivity]).
  assert (H2 : 8 <= 221) by lia. assert (H3 : 0 <= 1 < 221) by lia.
  assert (H4 : count_occ Z.eq_dec [1; 2] 1 = 1%nat) by reflexivity.
  assert (H5 : (2 <= List.length [1; 2])%nat) by (cbn; lia).
  assert (H6 : encryptWithZkp (fun _ => 0) 1 [1; 2] (PublicKey.new 221 (221 + 1))
                 [3; 5; 7; 9; 11]
               = Returned
                   ((12320,
                     ZkpCommitment.mk [Some 42996; Some 33887]
                       [Some 115792089237316195423570985008687907853269984665640564039457584007913129639929;
                        Some 7]
                       [Some 70; Some 9]), [11]))
    by (vm_compute; reflexivity).
  exact (conj H1 (conj H2 (conj H3 (conj H4 (conj H5
          (proj2 (encryptWithZkp_verifyZkp (fun _ => 0) 221 1 [1; 2] H1 H2 H3 H4 H5)
             _ _ _ _ H6)))))).
Defined.

(** 4 is not in [[1; 2; 3]]. *)
Lemma encryptWithZkp_not_in_valid_set_witness :
  8 <= 221 /\ 0 <= 4 < 221 /\ ~ In 4 [1; 2; 3] /\
  (2 * List.length [1; 2; 3] + 2 <= 8)%nat /\
  encryptWithZkp (fun _ => 0) 4 [1; 2; 3] (PublicKey.new 221 (221 + 1)) (repeat 1 8)
  = Threw NotInValidSet.
Proof.
  assert (H1 : 8 <= 221) by lia. assert (H2 : 0 <= 4 < 221) by lia.
  assert (H3 : ~ In 4 [1; 2; 3]) by (cbn; intros [E|[E|[E|[]]]]; discriminate E).
  assert (H4 : (2 * List.length [1; 2; 3] + 2 <= 8)%nat) by (cbn; lia).
  exact (conj H1 (conj H2 (conj H3 (conj H4
          (proj2 (encryptWithZkp_not_in_valid_set (fun _ => 0) 221 4 [1; 2; 3] 8
                    H1 H2 H3 H4)))))).
Defined.

(** The empty commitment against the empty valid set. *)
Lemma verifyZkp_without_challenges_witness :
  present (ZkpCommitment.e (ZkpCommitment.new 0)) = [] /\
  (verifyZkp (fun _ => 0) 7 [] (ZkpCommitment.new 0) pub221 = Threw MalformedCommitment \/
   verifyZkp (fun _ => 0) 7 [] (ZkpCommitment.new 0) pub221 = Threw TypeError).
Proof.
  assert (H1 : present (ZkpCommitment.e (ZkpCommitment.new 0)) = []) by reflexivity.
  exact (conj H1 (verifyZkp_without_challenges (fun _ => 0) 7 [] (ZkpCommitment.new 0)
                    pub221 H1)).
Defined.

(** The signature of 5 under the small key, with the identity for a
    hash, is rejected for 6. *)
Lemma verifySignature_other_message_witness :
  verifySignature (fun m => m) 5 (Signature.new 3 31) pub221 = Returned true /\
  (fun m : Z => m) 6 <> (fun m : Z => m) 5 /\
  verifySignature (fun m => m) 6 (Signature.new 3 31) pub221 = Returned false.
Proof.
  assert (H1 : verifySignature (fun m => m) 5 (Signature.new 3 31) pub221 = Returned true)
    by reflexivity.
  assert (H2 : (fun m : Z => m) 6 <> (fun m : Z => m) 5) by discriminate.
  exact (conj H1 (conj H2
          (verifySignature_other_message (fun m => m) 5 6 (Signature.new 3 31) pub221
             H1 H2))).
Defined.

(** Choice 1 of 3, on 8 bits. *)
Lemma decode_encodeSingle_upto_31_witness :
  0 <= 1 < 3 /\ 2 <= 3 /\ 2 <= 8 <= 31 /\ 3 * 8 <= 10000000 /\
  (encoded <- encodeSingle 1 3 8 0 0 ;; decode encoded 3 8)
  = Returned
      (map (fun i => Some (if Nat.eqb i (Z.to_nat 1) then 1 else 0))
         (seq 0 (Z.to_nat 3))).
Proof.
  assert (H1 : 0 <= 1 < 3) by lia. assert (H2 : 2 <= 3) by lia.
  assert (H3 : 2 <= 8 <= 31) by lia. assert (H4 : 3 * 8 <= 10000000) by lia.
  exact (conj H1 (conj H2 (conj H3 (conj H4
          (decode_encodeSingle_upto_31 1 3 8 H1 H2 H3 H4))))).
Defined.

(** The choices 0, 1, 2 and 1 of 3, on 8 bits. *)
Lemma decode_encodeMultiple_witness :
  2 <= 3 /\ 2 <= 8 <= 31 /\ 3 * 8 <= 10000000 /\
  Forall (fun c => 0 <= c < 3) [0; 1; 2; 1] /\
  (forall i, votes_for [0; 1; 2; 1] i < 2 ^ 8) /\
  exists tally,
    (encoded <- encodeMultiple [0; 1; 2; 1] 3 8 0 0 ;; decode encoded 3 8)
    = Returned (map Some tally) /\
    tally = map (fun i => votes_for [0; 1; 2; 1] i mod 2 ^ (8 - 1)) (seq 0 (Z.to_nat 3)) /\
    ((forall i, votes_for [0; 1; 2; 1] i < 2 ^ (8 - 1)) ->
     tally = map (votes_for [0; 1; 2; 1]) (seq 0 (Z.to_nat 3))).
Proof.
  assert (H1 : 2 <= 3) by lia. assert (H2 : 2 <= 8 <= 31) by lia.
  assert (H3 : 3 * 8 <= 10000000) by lia.
  assert (H4 : Forall (fun c => 0 <= c < 3) [0; 1; 2; 1]) by (repeat constructor; lia).
  assert (H5 : forall i, votes_for [0; 1; 2; 1] i < 2 ^ 8).
  { intros i. pose proof (votes_for_le_length [0; 1; 2; 1] i) as Hle.
    cbn [List.length] in Hle. change (2 ^ 8) with 256. lia. }
  exact (conj H1 (conj H2 (conj H3 (conj H4 (conj H5
          (decode_encodeMultiple [0; 1; 2; 1] 3 8 H1 H2 H3 H4 H5)))))).
Defined.

(** A negative integer decodes into range. *)
Lemma decode_range_witness :
  0 <= 3 /\ 2 <= 8 <= 31 /\ 3 * 8 <= 10000000 /\
  exists fields,
    decode (-5) 3 8 = Returned (map Some fields) /\
    List.length fields = Z.to_nat 3 /\
    Forall (fun c => 0 <= c < 2 ^ (8 - 1)) fields.
Proof.
  assert (H1 : 0 <= 3) by lia. assert (H2 : 2 <= 8 <= 31) by lia.
  assert (H3 : 3 * 8 <= 10000000) by lia.
  exact (conj H1 (conj H2 (conj H3 (decode_range (-5) 3 8 H1 H2 H3)))).
Defined.


(** Choice 1 of 2 in bin 1 of 3. *)
Lemma decodeGroups_encodeSingle_witness :
  0 <= 1 < 2 /\ 2 <= 2 /\ 0 <= 1 < 3 /\ 2 <= 8 <= 31 /\ 3 * 2 * 8 <= 10000000 /\
  (encoded <- encodeSingle 1 2 8 1 3 ;; decodeGroups encoded 2 8 3)
  = Returned
      (map (fun b =>
              Some (map (fun c =>
                           Some (if Nat.eqb b (Z.to_nat 1) && Nat.eqb c (Z.to_nat 1)
                                 then 1 else 0))
                      (seq 0 (Z.to_nat 2))))
         (seq 0 (Z.to_nat 3))).
Proof.
  assert (H1 : 0 <= 1 < 2) by lia. assert (H2 : 2 <= 2) by lia.
  assert (H3 : 0 <= 1 < 3) by lia. assert (H4 : 2 <= 8 <= 31) by lia.
  assert (H5 : 3 * 2 * 8 <= 10000000) by lia.
  exact (conj H1 (conj H2 (conj H3 (conj H4 (conj H5
          (decodeGroups_encodeSingle 1 2 8 1 3 H1 H2 H3 H4 H5)))))).
Defined.



(** The valid votes for three choices in two bins. *)
Lemma getSingleChoicePermutations_valid_set_witness :
  2 <= 3 /\ 2 <= 8 /\ 8 * (Z.max 1 2 * 3) <= 10000000 /\
  exists votes,
    getSingleChoicePermutations 3 8 2 = Returned votes /\
    List.length votes = Z.to_nat (Z.max 1 2 * 3) /\
    NoDup votes /\
    forall choice bin,
      0 <= choice < 3 -> 0 <= bin < Z.max 1 2 ->
      exists vote,
        encodeSingle choice 3 8 bin 2 = Returned vote /\
        nth_error votes (Z.to_nat (bin * 3 + choice)) = Some vote /\
        count_occ Z.eq_dec votes vote = 1%nat.
Proof.
  assert (H1 : 2 <= 3) by lia. assert (H2 : 2 <= 8) by lia.
  assert (H3 : 8 * (Z.max 1 2 * 3) <= 10000000) by (cbn; lia).
  exact (conj H1 (conj H2 (conj H3
          (getSingleChoicePermutations_valid_set 3 8 2 H1 H2 H3)))).
Defined.

(** One choice, and one bit per choice. *)
Lemma getSingleChoicePermutations_errors_witness :
  getSingleChoicePermutations 1 8 0 = Threw (RangeError "Invalid choices"%string) /\
  getSingleChoicePermutations 2 1 0
  = Threw (RangeError "bitsPerChoice must be at least 2"%string).
Proof.
  assert (H1 : 1 < 2) by lia. assert (H2 : 2 <= 2) by lia.
  exact (conj (proj1 (getSingleChoicePermutations_errors 1 8 0) H1)
              (proj2 (getSingleChoicePermutations_errors 2 1 0) H2 H1)).
Defined.

(** A vote for choice 1 of 2, on 2 bits, at [n = 221]. *)
Lemma vote_membership_proof_witness :
  (forall arr : jsarray, 0 <= (fun _ : jsarray => 0) arr < 2 ^ 256) /\
  1 < 221 /\ 2 <= 2 /\ 2 <= 2 /\ 2 * (Z.max 1 0 * 2) <= 10000000 /\
  0 <= 1 < 2 /\ 0 <= 0 < Z.max 1 0 /\ 2 ^ (2 * (0 * 2 + 1)) < 221 /\
  exists validVotes vote,
    getSingleChoicePermutations 2 2 0 = Returned validVotes /\
    encodeSingle 1 2 2 0 0 = Returned vote /\
    forall tape c commitment tape',
      encryptWithZkp (fun _ => 0) vote validVotes (PublicKey.new 221 (221 + 1)) tape
      = Returned ((c, commitment), tape') ->
      verifyZkp (fun _ => 0) c validVotes commitment (PublicKey.new 221 (221 + 1))
      = Returned true.
Proof.
  assert (H1 : forall arr : jsarray, 0 <= (fun _ : jsarray => 0) arr < 2 ^ 256)
    by (intros arr; split; [lia|reflexivity]).
  assert (H2 : 1 < 221) by lia. assert (H3 : 2 <= 2) by lia.
  assert (H4 : 2 * (Z.max 1 0 * 2) <= 10000000) by (cbn; lia).
  assert (H5 : 0 <= 1 < 2) by lia. assert (H6 : 0 <= 0 < Z.max 1 0) by (cbn; lia).
  assert (H7 : 2 ^ (2 * (0 * 2 + 1)) < 221) by reflexivity.
  exact (conj H1 (conj H2 (conj H3 (conj H3 (conj H4 (conj H5 (conj H6 (conj H7
          (vote_membership_proof (fun _ => 0) 221 2 2 0 1 0
             H1 H2 H3 H3 H4 H5 H6 H7))))))))).
Defined.

(** An election with two choices on 3 bits: one vote for choice 0 and two
    for choice 1, at [n = 221]. *)
Lemma election_tally_witness :
  valid_key_pair pub221 priv221 /\ 2 <= 2 /\ 2 <= 3 <= 31 /\ 2 * 3 <= 10000000 /\
  2 ^ (3 * 2) <= PublicKey.n pub221 /\
  (forall i, votes_for [0; 1; 1] i < 2 ^ (3 - 1)) /\
  encrypt 0 pub221 [2] = Returned (46663, []) /\
  (sum <- aggregate 46663 [12320; 14487; 47929] pub221 ;;
   tally <- decrypt sum pub221 priv221 ;;
   decode tally 2 3)
  = Returned (map (fun i => Some (votes_for [0; 1; 1] i)) (seq 0 (Z.to_nat 2))).
Proof.
  assert (H1 : 2 <= 2) by lia. assert (H2 : 2 <= 3 <= 31) by lia.
  assert (H3 : 2 * 3 <= 10000000) by lia.
  assert (H4 : 2 ^ (3 * 2) <= PublicKey.n pub221) by (cbn; lia).
  assert (H5 : forall i, votes_for [0; 1; 1] i < 2 ^ (3 - 1)).
  { intros i. pose proof (votes_for_le_length [0; 1; 1] i) as Hle.
    cbn [List.length] in Hle. change (2 ^ (3 - 1)) with 4. lia. }
  assert (H6 : encrypt 0 pub221 [2] = Returned (46663, [])) by reflexivity.
  assert (H7 : Forall2 (fun choice c =>
                          0 <= choice < 2 /\
                          exists vote tape tape',
                            encodeSingle choice 2 3 0 0 = Returned vote /\
                            encrypt vote pub221 tape = Returned (c, tape'))
                 [0; 1; 1] [12320; 14487; 47929]).
  { constructor; [|constructor; [|constructor; [|constructor]]].
    - split; [lia|]. exists 1, [3], []. split; reflexivity.
    - split; [lia|]. exists 8, [5], []. split; reflexivity.
    - split; [lia|]. exists 8, [7], []. split; reflexivity. }
  exact (conj valid_key_pair_221 (conj H1 (conj H2 (conj H3 (conj H4 (conj H5 (conj H6
          (election_tally pub221 priv221 2 3 [0; 1; 1] 46663 [12320; 14487; 47929] [2] []
             valid_key_pair_221 H1 H2 H3 H4 H5 H6 H7)))))))).
Defined.

(** The ciphertext of the membership proof above decrypts to 1. *)
Lemma encryptWithZkp_decrypt_witness :
  valid_key_pair pub221 priv221 /\ 0 <= 1 < PublicKey.n pub221 /\
  decrypt 12320 pub221 priv221 = Returned 1.
Proof.
  assert (H1 : 0 <= 1 < PublicKey.n pub221) by (cbn; lia).
  assert (H2 : encryptWithZkp (fun _ => 0) 1 [1; 2] pub221 [3; 5; 7; 9; 11]
               = Returned
                   ((12320,
                     ZkpCommitment.mk [Some 42996; Some 33887]
                       [Some 115792089237316195423570985008687907853269984665640564039457584007913129639929;
                        Some 7]
                       [Some 70; Some 9]), [11]))
    by (vm_compute; reflexivity).
  exact (conj valid_key_pair_221 (conj H1
          (encryptWithZkp_decrypt (fun _ => 0) pub221 priv221 1 [1; 2] _ _ _ _
             valid_key_pair_221 H1 H2))).
Defined.

(** The choices 0, 1 and 1 of 2 in bin 1 of 2. *)
Lemma decodeGroups_encodeMultiple_witness :
  2 <= 2 /\ 2 <= 8 <= 31 /\ 0 <= 1 < 2 /\ 2 * 2 * 8 <= 10000000 /\
  Forall (fun c => 0 <= c < 2) [0; 1; 1] /\
  (forall i, votes_for [0; 1; 1] i < 2 ^ (8 - 1)) /\
  (encoded <- encodeMultiple [0; 1; 1] 2 8 1 2 ;; decodeGroups encoded 2 8 2)
  = Returned
      (map (fun b =>
              Some (map (fun i =>
                           Some (if Nat.eqb b (Z.to_nat 1) then votes_for [0; 1; 1] i
                                 else 0))
                      (seq 0 (Z.to_nat 2))))
         (seq 0 (Z.to_nat 2))).
Proof.
  assert (H1 : 2 <= 2) by lia. assert (H2 : 2 <= 8 <= 31) by lia.
  assert (H3 : 0 <= 1 < 2) by lia. assert (H4 : 2 * 2 * 8 <= 10000000) by lia.
  assert (H5 : Forall (fun c => 0 <= c < 2) [0; 1; 1]) by (repeat constructor; lia).
  assert (H6 : forall i, votes_for [0; 1; 1] i < 2 ^ (8 - 1)).
  { intros i. pose proof (votes_for_le_length [0; 1; 1] i) as Hle.
    cbn [List.length] in Hle. change (2 ^ (8 - 1)) with 128. lia. }
  exact (conj H1 (conj H2 (conj H3 (conj H4 (conj H5 (conj H6
          (decodeGroups_encodeMultiple [0; 1; 1] 2 8 1 2 H1 H2 H3 H4 H5 H6))))))).
Defined.

(** The shape of the commitment of the membership proof above. *)
Lemma encryptWithZkp_commitment_shape_witness :
  (forall arr : jsarray, 0 <= (fun _ : jsarray => 0) arr < 2 ^ 256) /\
  1 < 221 /\ 0 <= 1 < 221 /\
  count_occ Z.eq_dec [1; 2] 1 = 1%nat /\ (2 <= List.length [1; 2])%nat /\
  exists la le lz,
    ZkpCommitment.mk [Some 42996; Some 33887]
      [Some 115792089237316195423570985008687907853269984665640564039457584007913129639929;
       Some 7]
      [Some 70; Some 9]
    = ZkpCommitment.mk (map Some la) (map Some le) (map Some lz) /\
    List.length la = List.length [1; 2] /\
    List.length le = List.length [1; 2] /\
    List.length lz = List.length [1; 2] /\
    Forall (fun e => 0 <= e) le /\
    total le mod 2 ^ 256 = (fun _ : jsarray => 0) (map Some la).
Proof.
  assert (H1 : forall arr : jsarray, 0 <= (fun _ : jsarray => 0) arr < 2 ^ 256)
    by (intros arr; split; [lia|reflexivity]).
  assert (H2 : 1 < 221) by lia. assert (H3 : 0 <= 1 < 221) by lia.
  assert (H4 : count_occ Z.eq_dec [1; 2] 1 = 1%nat) by reflexivity.
  assert (H5 : (2 <= List.length [1; 2])%nat) by (cbn; lia).
  assert (H6 : encryptWithZkp (fun _ => 0) 1 [1; 2] (PublicKey.new 221 (221 + 1))
                 [3; 5; 7; 9; 11]
               = Returned
                   ((12320,
                     ZkpCommitment.mk [Some 42996; Some 33887]
                       [Some 115792089237316195423570985008687907853269984665640564039457584007913129639929;
                        Some 7]
                       [Some 70; Some 9]), [11]))
    by (vm_compute; reflexivity).
  exact (conj H1 (conj H2 (conj H3 (conj H4 (conj H5
          (encryptWithZkp_commitment_shape (fun _ => 0) 221 1 [1; 2] _ _ _ _
             H1 H2 H3 H4 H5 H6)))))).
Defined.

